(** * Incremental Notion sync and content-addressed asset cache

    A shallow embedding of [fetch-notion.mjs] (the incremental sync with the
    stable asset cache) and the properties its specification states about it.
    Part III adds properties read off the code itself: footprints, what a
    failure leaves behind, the shape of results, and the helpers the site
    builder applies to the snapshots.

    Conventions of the embedding.
    - JavaScript strings are modelled as [string], a sequence of code units
      below 256; character-level algorithms work on [list ascii].
    - A value that may be [undefined]/[null] or a string is an
      [option string]; it is truthy when it is [Some] non-empty string.
    - [last_edited_time] stamps stay strings and are compared the way the
      code compares them, with the string order. The sync watermark
      [lastSyncISO], which the code parses with [Date], is a number of
      milliseconds since the epoch.
    - Files are addressed by their path relative to the script directory
      [ROOT]; [path.join(DIR, name)] is the textual concatenation of the
      directory prefix and the name.
    - [JSON.parse (JSON.stringify x)] is the identity on the records stored
      on disk, so a file holds the structured value directly. The state
      file counts as a state only when it holds a state object such as
      [saveState] writes; any other content loads as the fresh state. The
      code keeps whatever [JSON.parse] returns, so the two part on a state
      file that holds a JSON array or an object of another shape, and on a
      watermark that [Date] cannot parse or that is out of its range; the
      statements of Part III about what a run saves assume
      [state_file_sound].
    - [toLowerCase] is modelled on the code units below 256, where it
      keeps the length of a string; on other characters it may not.
    - Asynchronous calls are awaited one after the other, so the program is
      a sequential state-and-exception computation over a world made of the
      in-memory sync state, the disk, and the log of effects performed.
    - Loops bounded only by the remote service (pagination, recursive block
      descent) take a fuel argument.
    - The remote API, the network, the clock, [sha1] and the URL parser are
      parameters of the world; console output and the [label] of
      [withRetry] are left out, as is the start-up code that reads the
      configuration and the token. *)

From Stdlib Require Import ZArith List String Ascii Lia Bool DecimalString
  DecimalNat.
From stdpp Require Import gmap strings list fin_maps.

(* ================================================================== *)
(** * Part I. Definitions                                              *)
(* ================================================================== *)

(** ** JavaScript strings *)

Module Js.

Definition chars (s : string) : list ascii := list_ascii_of_string s.
Definition str (l : list ascii) : string := string_of_list_ascii l.

(** Truthiness of a string: only the empty string is falsy. *)
Definition truthy (s : string) : bool := negb (String.eqb s "").

(** Truthiness of a possibly-missing string. *)
Definition otruthy (o : option string) : bool :=
  match o with Some s => truthy s | None => false end.

(** [a || b] on possibly-missing strings. *)
Definition or_else (a b : option string) : option string :=
  if otruthy a then a else b.

(** [a || null]. *)
Definition or_null (a : option string) : option string :=
  if otruthy a then a else None.

(** White space and line terminators removed by [String.prototype.trim],
    among the code units below 256: tab to carriage return, space, and
    no-break space. *)
Definition is_ws (c : ascii) : bool :=
  let n := nat_of_ascii c in
  (Nat.eqb n 32 || Nat.eqb n 160 || (Nat.leb 9 n && Nat.leb n 13))%bool.

Fixpoint trim_left (l : list ascii) : list ascii :=
  match l with
  | c :: t => if is_ws c then trim_left t else l
  | [] => []
  end.

Definition trim (l : list ascii) : list ascii :=
  rev (trim_left (rev (trim_left l))).

(** The character class [[0-9a-fA-F]]. *)
Definition is_hex (c : ascii) : bool :=
  let n := nat_of_ascii c in
  ((Nat.leb 48 n && Nat.leb n 57) || (Nat.leb 65 n && Nat.leb n 70)
   || (Nat.leb 97 n && Nat.leb n 102))%bool.

(** [toLowerCase] on the code units below 256: the letters [A-Z], and the
    accented capitals from 192 to 222 but for the multiplication sign. *)
Definition lower_char (c : ascii) : ascii :=
  let n := nat_of_ascii c in
  if ((Nat.leb 65 n && Nat.leb n 90)
      || (Nat.leb 192 n && Nat.leb n 222 && negb (Nat.eqb n 215)))%bool
  then ascii_of_nat (n + 32) else c.

Definition lower (l : list ascii) : list ascii := map lower_char l.

Definition hyphen : ascii := "-"%char.

(** [s.replace(/-/g, '')]. *)
Definition strip_hyphens (l : list ascii) : list ascii :=
  List.filter (fun c => negb (Ascii.eqb c hyphen)) l.

(** [l] starts with a run of exactly-[n]-many hex characters. *)
Definition hex_run_at (n : nat) (l : list ascii) : bool :=
  (Nat.eqb (length (firstn n l)) n && forallb is_hex (firstn n l))%bool.

(** [s.match(/[0-9a-fA-F]{n}/)]: the leftmost run of [n] hex characters. *)
Fixpoint match_hex (n : nat) (l : list ascii) : option (list ascii) :=
  if hex_run_at n l then Some (firstn n l)
  else match l with
       | [] => None
       | _ :: t => match_hex n t
       end.

(** [s.split(c)] for a one-character separator: never empty. *)
Fixpoint split_on (sep : ascii) (l : list ascii) : list (list ascii) :=
  match l with
  | [] => [[]]
  | c :: t =>
      if Ascii.eqb c sep then [] :: split_on sep t
      else match split_on sep t with
           | h :: r => (c :: h) :: r
           | [] => [[c]]
           end
  end.

(** Decimal rendering of an array index inside a template string. *)
Definition of_nat (n : nat) : string :=
  NilEmpty.string_of_uint (Nat.to_uint n).

End Js.

(** ** Utilities of the script *)

(** [Math.min(2500, 250 * 2 ** (n - 1))], the wait computed in [withRetry]
    after the [n]-th failure. *)
Definition retry_wait (n : Z) : Z := Z.min 2500 (250 * 2 ^ (n - 1)).

(** The same wait in the earlier copy of the script, the one without the
    asset cache, where the cap is 2000. *)
Definition retry_wait_earlier (n : Z) : Z := Z.min 2000 (250 * 2 ^ (n - 1)).

(** [normalizeId]: accept an id as raw 32 hex, dashed, or inside a URL. *)
Definition normalizeId (input : string) : option string :=
  if negb (Js.truthy input) then None
  else
    let s := Js.trim (Js.chars input) in
    let raw := match Js.match_hex 32 s with
               | Some m => m
               | None => Js.strip_hyphens s
               end in
    if Nat.eqb (length raw) 32 then Some (Js.str (Js.lower raw)) else None.

(** The normalizer as the specification words it: the 32-hex substring of
    the input, lowercased, when there is one; otherwise the input without
    its hyphens when that is exactly 32 hex characters; otherwise nothing. *)
Definition normalizeId_spec (input : string) : option string :=
  let s := Js.chars input in
  match Js.match_hex 32 s with
  | Some m => Some (Js.str (Js.lower m))
  | None =>
      let r := Js.strip_hyphens s in
      if (Nat.eqb (length r) 32 && forallb Js.is_hex r)%bool
      then Some (Js.str (Js.lower r)) else None
  end.

(** [isoMinusMinutes(iso, mins)]: the instant [mins] minutes earlier. *)
Definition isoMinusMinutes (iso : option Z) (mins : Z) : option Z :=
  match iso with
  | None => None
  | Some t => Some (t - mins * 60 * 1000)%Z
  end.

(** ** Data model *)

(** A [last_edited_time] stamp, an ISO-8601 string. *)
Definition Stamp := string.

(** The URL-bearing part of a cover, an image, a file block or a file
    entry: [x.file?.url] and [x.external?.url]. *)
Record FileRef := mkFileRef {
  ref_file_url : option string;
  ref_external_url : option string
}.

(** [x?.file?.url || x?.external?.url]. *)
Definition ref_url (r : FileRef) : option string :=
  Js.or_else (ref_file_url r) (ref_external_url r).

(** An entry of [state.images]. *)
Record AssetRecord := mkAsset {
  img_local : string;
  img_hash : string;
  img_size : nat;
  img_updated : Z;
  img_last_url : string
}.

(** An entry of [state.pages]. *)
Record PageState := mkPageState {
  ps_last_edited_time : Stamp;
  ps_cover_local : option string
}.

(** The sync state kept in [.cache/state.json]; an entry of [dbItems]
    holds only a [last_edited_time]. *)
Record SyncState := mkState {
  lastSyncISO : option Z;
  pages : gmap string PageState;
  dbItems : gmap string Stamp;
  images : gmap string AssetRecord
}.

Definition emptyState : SyncState :=
  {| lastSyncISO := None; pages := ∅; dbItems := ∅; images := ∅ |}.

(** Page metadata as [pages.retrieve] returns it. *)
Record PageMeta := mkMeta {
  meta_id : string;
  meta_last_edited_time : Stamp;
  meta_cover : FileRef
}.

(** The payload of an image or file block, with the [local] path the sync
    grafts into it. *)
Record Media := mkMedia {
  media_ref : FileRef;
  media_local : option string
}.

Inductive BlockBody :=
| BImage (m : Media)
| BFile (m : Media)
| BOther (ty : string).

(** A block; [blk_children] is the [children] field the sync attaches. *)
#[warnings="-register-all"] Inductive Block := mkBlock {
  blk_id : string;
  blk_has_children : bool;
  blk_body : BlockBody;
  blk_children : option (list Block)
}.

(** The snapshot document of a page. *)
Record Payload := mkPayload {
  pl_page : PageMeta;
  pl_blocks : list Block;
  pl_cover_local : option string
}.

(** An entry of a [files] property. *)
Record FileEntry := mkFileEntry {
  fe_ref : FileRef;
  fe_local : option string
}.

(** A property of a row: a [files] property with its array, or any other. *)
Inductive PropVal :=
| PFiles (files : list FileEntry)
| POther (ty : string).

(** A database row. [row_cover_local] is [None] when the object has no
    [cover_local] field and [Some v] when the field holds [v] ([null] or
    a path); [row_blocks] likewise for [blocks]. *)
Record Row := mkRow {
  row_id : string;
  row_last_edited_time : Stamp;
  row_cover : FileRef;
  row_properties : list (string * PropVal);
  row_cover_local : option (option string);
  row_blocks : option (list Block)
}.

(** What a file under [ROOT] holds. *)
Inductive File :=
| FBytes (buf : list Byte.byte)
| FPage (p : Payload)
| FDb (results : list Row)
| FState (s : SyncState).

(** ** The outside world *)

Inductive Err :=
| ErrApi (msg : string)
| ErrNet (msg : string)
| ErrFs (path : string)
| ErrParse (path : string).

(** One page of a cursor-paginated listing. *)
Record Listing (A : Type) := mkListing {
  results : list A;
  has_more : bool;
  next_cursor : option string
}.
Arguments mkListing {A}.
Arguments results {A}.
Arguments has_more {A}.
Arguments next_cursor {A}.

(** The query filter
    [{ timestamp: 'last_edited_time', last_edited_time: { on_or_after } }]. *)
Inductive Filter :=
| LastEditedOnOrAfter (since : Z).

Record HttpResponse := mkResp {
  resp_ok : bool;
  resp_status : Z;
  resp_body : Err + list Byte.byte
}.

(** Everything the script does not decide: the answers of the remote API
    and of the network (indexed by the number of remote interactions made
    so far, so that an answer may differ from one attempt to the next),
    whether a file write succeeds, the clock, and the library functions
    [sha1] (hex digest) and [new URL(u).pathname] ([None] when it throws). *)
Record Env := mkEnv {
  api_pages_retrieve : nat -> string -> Err + PageMeta;
  api_blocks_list : nat -> string -> option string -> Err + Listing Block;
  api_db_query :
    nat -> string -> option string -> option Filter -> Err + Listing Row;
  net_fetch : nat -> string -> Err + HttpResponse;
  fs_write_ok : nat -> string -> bool;
  clock : nat -> Z;
  sha1 : list Byte.byte -> string;
  url_pathname : string -> option string
}.

(** Effects the script performs, in the order it performs them. *)
Inductive Event :=
| EvPagesRetrieve (page_id : string)
| EvBlocksList (block_id : string) (cursor : option string)
| EvDbQuery (database_id : string) (cursor : option string)
            (filter : option Filter)
| EvFetch (url : string)
| EvSleep (ms : Z)
| EvWrite (path : string).

Record World := mkWorld {
  env : Env;
  mem : SyncState;
  disk : gmap string File;
  tick : nat;
  trace : list Event
}.

Definition with_mem (s : SyncState) (w : World) : World :=
  {| env := env w; mem := s; disk := disk w; tick := tick w;
     trace := trace w |}.
Definition with_disk (d : gmap string File) (w : World) : World :=
  {| env := env w; mem := mem w; disk := d; tick := tick w;
     trace := trace w |}.
(** Record an effect. *)
Definition logged (e : Event) (w : World) : World :=
  {| env := env w; mem := mem w; disk := disk w; tick := tick w;
     trace := trace w ++ [e] |}.
(** One more remote interaction made. *)
Definition ticked (w : World) : World :=
  {| env := env w; mem := mem w; disk := disk w; tick := S (tick w);
     trace := trace w |}.

(** ** The computation monad: state, exceptions, fuel *)

Inductive Res (A : Type) :=
| Ok (a : A)
| Throw (e : Err)
| OutOfFuel.
Arguments Ok {A}.
Arguments Throw {A}.
Arguments OutOfFuel {A}.

Definition M (A : Type) : Type := World -> Res A * World.

Definition ret {A} (a : A) : M A := fun w => (Ok a, w).
Definition throw {A} (e : Err) : M A := fun w => (Throw e, w).
Definition out_of_fuel {A} : M A := fun w => (OutOfFuel, w).

Definition bind {A B} (m : M A) (k : A -> M B) : M B :=
  fun w =>
    match m w with
    | (Ok a, w') => k a w'
    | (Throw e, w') => (Throw e, w')
    | (OutOfFuel, w') => (OutOfFuel, w')
    end.

Definition is_ok {A} (r : Res A) : bool :=
  match r with Ok _ => true | _ => false end.

(** A failure carried over to another result type. *)
Definition Throw_or_fuel {A B} (r : Res A) : Res B :=
  match r with
  | Throw e => Throw e
  | _ => OutOfFuel
  end.

(** [try { m } catch (e) { h e }]. *)
Definition try_catch {A} (m : M A) (h : Err -> M A) : M A :=
  fun w =>
    match m w with
    | (Throw e, w') => h e w'
    | r => r
    end.

Declare Scope js_scope.
Delimit Scope js_scope with js.
Notation "x <- c1 ;; c2" := (bind c1 (fun x => c2))
  (at level 100, c1 at next level, right associativity) : js_scope.
Notation "c1 ;; c2" := (bind c1 (fun _ => c2))
  (at level 100, right associativity) : js_scope.
Local Open Scope js_scope.

(** The loop [for (const x of xs) ...] rebuilding the array it walks. *)
Fixpoint for_each {A B} (f : A -> M B) (xs : list A) : M (list B) :=
  match xs with
  | [] => ret []
  | x :: r => y <- f x ;; ys <- for_each f r ;; ret (y :: ys)
  end.

(** The same loop with the array index at hand. *)
Fixpoint for_each_i {A B} (f : nat -> A -> M B) (i : nat) (xs : list A)
  : M (list B) :=
  match xs with
  | [] => ret []
  | x :: r => y <- f i x ;; ys <- for_each_i f (S i) r ;; ret (y :: ys)
  end.

(** *** Primitive effects *)

Definition get_mem : M SyncState := fun w => (Ok (mem w), w).
Definition get_env : M Env := fun w => (Ok (env w), w).
(** [new Date()], as milliseconds. *)
Definition get_now : M Z := fun w => (Ok (clock (env w) (tick w)), w).

(** [state.images[key] = rec]. *)
Definition set_image (key : string) (rec : AssetRecord) : M unit :=
  fun w =>
    let s := mem w in
    (Ok tt,
     with_mem {| lastSyncISO := lastSyncISO s; pages := pages s;
                 dbItems := dbItems s;
                 images := <[key := rec]> (images s) |} w).

(** [state.pages[pageId] = ps]. *)
Definition set_page (pageId : string) (ps : PageState) : M unit :=
  fun w =>
    let s := mem w in
    (Ok tt,
     with_mem {| lastSyncISO := lastSyncISO s;
                 pages := <[pageId := ps]> (pages s);
                 dbItems := dbItems s; images := images s |} w).

(** [state.dbItems[id] = { last_edited_time }]. *)
Definition set_dbItem (id : string) (t : Stamp) : M unit :=
  fun w =>
    let s := mem w in
    (Ok tt,
     with_mem {| lastSyncISO := lastSyncISO s; pages := pages s;
                 dbItems := <[id := t]> (dbItems s);
                 images := images s |} w).

(** [state.lastSyncISO = t]. *)
Definition set_lastSync (t : Z) : M unit :=
  fun w =>
    let s := mem w in
    (Ok tt,
     with_mem {| lastSyncISO := Some t; pages := pages s;
                 dbItems := dbItems s; images := images s |} w).

(** [const state = ...]: the state object of the run. *)
Definition put_mem (s : SyncState) : M unit :=
  fun w => (Ok tt, with_mem s w).

(** [fs.existsSync]. *)
Definition exists_file (path : string) : M bool :=
  fun w => (Ok (bool_decide (is_Some (disk w !! path))), w).

(** [fs.writeFileSync]: the write is attempted, and throws when the file
    system refuses it. *)
Definition write_file (path : string) (f : File) : M unit :=
  fun w =>
    let w1 := logged (EvWrite path) w in
    if fs_write_ok (env w) (tick w) path
    then (Ok tt, with_disk (<[path := f]> (disk w)) w1)
    else (Throw (ErrFs path), w1).

(** [setTimeout]-based [sleep]. *)
Definition sleep (ms : Z) : M unit :=
  fun w => (Ok tt, logged (EvSleep ms) w).

Definition of_sum {A} (r : Err + A) : M A :=
  match r with inl e => throw e | inr a => ret a end.

(** [notion.pages.retrieve({ page_id })]. *)
Definition pages_retrieve (page_id : string) : M PageMeta :=
  fun w =>
    of_sum (api_pages_retrieve (env w) (tick w) page_id)
           (logged (EvPagesRetrieve page_id) (ticked w)).

(** [notion.blocks.children.list({ block_id, start_cursor, page_size })]. *)
Definition blocks_children_list (block_id : string) (cursor : option string)
  : M (Listing Block) :=
  fun w =>
    of_sum (api_blocks_list (env w) (tick w) block_id cursor)
           (logged (EvBlocksList block_id cursor) (ticked w)).

(** [notion.databases.query(body)]. *)
Definition databases_query (database_id : string) (cursor : option string)
  (filter : option Filter) : M (Listing Row) :=
  fun w =>
    of_sum (api_db_query (env w) (tick w) database_id cursor filter)
           (logged (EvDbQuery database_id cursor filter) (ticked w)).

(** [fetch(url)]. *)
Definition fetch (url : string) : M HttpResponse :=
  fun w =>
    of_sum (net_fetch (env w) (tick w) url)
           (logged (EvFetch url) (ticked w)).

(** ** The script *)

(** Paths below [ROOT]. *)
Definition STATE_F : string := ".cache/state.json".
Definition in_IMG_DIR (name : string) : string := "images/" +:+ name.
Definition in_OUT_DIR (name : string) : string := "notion-data/" +:+ name.

(** The loop of [withRetry], entered with [n] failures so far. The [label]
    argument only feeds the log messages and is left out. *)
Fixpoint withRetry_loop {A} (fuel : nat) (fn : M A) (tries : Z) (n : Z)
  : M A :=
  match fuel with
  | O => out_of_fuel
  | S fuel' =>
      try_catch fn (fun e =>
        let n := (n + 1)%Z in
        let wait := retry_wait n in
        if (n >=? tries)%Z then throw e
        else sleep wait ;; withRetry_loop fuel' fn tries n)
  end.

(** [withRetry(fn, tries)]. Every iteration of the [while (true)] either
    returns, rethrows, or counts one more failure towards [tries], so
    [tries + 1] iterations are always enough (see [withRetry_loop_fuel]). *)
Definition withRetry {A} (fn : M A) (tries : Z) : M A :=
  withRetry_loop (S (Z.to_nat tries)) fn tries 0.

(** [loadState]: the state file when it exists and parses, else a fresh
    state with every map present. *)
Definition loadState : M SyncState :=
  fun w =>
    match disk w !! STATE_F with
    | Some (FState s) => (Ok s, w)
    | _ => (Ok emptyState, w)
    end.

(** [saveState(state)]. *)
Definition saveState : M unit :=
  state <- get_mem ;; write_file STATE_F (FState state).

(** [safeExtFromUrl(u, fallback)]. *)
Definition safeExtFromUrl (e : Env) (u fallback : string) : string :=
  match url_pathname e u with
  | None => fallback
  | Some p =>
      let ext :=
        hd [] (Js.split_on "?" (List.last (Js.split_on "." (Js.chars p)) [])) in
      if (negb (Js.truthy (Js.str ext)) || Nat.ltb 6 (length ext))%bool
      then fallback else Js.str ext
  end.

(** [state.images[key]?.local || null]. *)
Definition cached_local (state : SyncState) (key : string) : option string :=
  match images state !! key with
  | Some c => if Js.truthy (img_local c) then Some (img_local c) else None
  | None => None
  end.

(** [local.startsWith('./') ? local.slice(2) : local]. *)
Definition strip_dot_slash (local : string) : string :=
  if String.prefix "./" local
  then String.substring 2 (String.length local - 2) local
  else local.

(** [downloadFileCached(key, url, fnameHint, state)]. *)
Definition downloadFileCached (key : string) (url : option string)
  (fnameHint : string) : M (option string) :=
  state <- get_mem ;;
  match url with
  | Some u =>
      if negb (Js.truthy u) then ret (cached_local state key)
      else
        let cached := cached_local state key in
        hit <- match cached with
               | Some local => exists_file (strip_dot_slash local)
               | None => ret false
               end ;;
        if hit then ret cached
        else
          try_catch
            (res <- fetch u ;;
             if negb (resp_ok res) then ret cached
             else
               buf <- of_sum (resp_body res) ;;
               e <- get_env ;;
               let hash := sha1 e buf in
               let ext := safeExtFromUrl e u "bin" in
               let name :=
                 fnameHint +:+ "-" +:+ String.substring 0 12 hash
                   +:+ "." +:+ ext in
               let localRel := "./images/" +:+ name in
               let dst := in_IMG_DIR name in
               present <- exists_file dst ;;
               (if present then ret tt else write_file dst (FBytes buf)) ;;
               now <- get_now ;;
               set_image key
                 {| img_local := localRel; img_hash := "sha1:" +:+ hash;
                    img_size := length buf; img_updated := now;
                    img_last_url := u |} ;;
               ret (Some localRel))
            (fun _ => ret cached)
  | None => ret (cached_local state key)
  end.

(** The cursor loop shared, word for word, by [listBlocks],
    [queryDatabaseIncremental] and [fullIdsInDatabase]: call with the
    cursor, accumulate the results, stop when [has_more] is false. *)
Fixpoint paginate {A} (fuel : nat) (call : option string -> M (Listing A))
  (cursor : option string) (all : list A) : M (list A) :=
  match fuel with
  | O => out_of_fuel
  | S fuel' =>
      res <- withRetry (call cursor) 5 ;;
      let all := all ++ results res in
      if negb (has_more res) then ret all
      else paginate fuel' call (next_cursor res) all
  end.

Definition set_children (b : Block) (c : list Block) : Block :=
  {| blk_id := blk_id b; blk_has_children := blk_has_children b;
     blk_body := blk_body b; blk_children := Some c |}.

Definition set_body (b : Block) (body : BlockBody) : Block :=
  {| blk_id := blk_id b; blk_has_children := blk_has_children b;
     blk_body := body; blk_children := blk_children b |}.

(** [if (local) x.local = local]. *)
Definition graft_local (m : Media) (local : option string) : Media :=
  match local with
  | Some l => {| media_ref := media_ref m; media_local := Some l |}
  | None => m
  end.

(** [listBlocks(blockId, state)]. *)
Fixpoint listBlocks (fuel : nat) (blockId : string) : M (list Block) :=
  match fuel with
  | O => out_of_fuel
  | S fuel' =>
      all <- paginate fuel (blocks_children_list blockId) None [] ;;
      for_each (fun b =>
        b <- (if blk_has_children b
              then c <- listBlocks fuel' (blk_id b) ;; ret (set_children b c)
              else ret b) ;;
        match blk_body b with
        | BImage m =>
            local <- downloadFileCached
                       ("block:" +:+ blk_id b +:+ ":image")
                       (ref_url (media_ref m)) "image" ;;
            ret (set_body b (BImage (graft_local m local)))
        | BFile m =>
            local <- downloadFileCached
                       ("block:" +:+ blk_id b +:+ ":file")
                       (ref_url (media_ref m)) "file" ;;
            ret (set_body b (BFile (graft_local m local)))
        | BOther _ => ret b
        end) all
  end.

(** [!prev || (meta.last_edited_time > prev.last_edited_time)]. *)
Definition page_changed (prev : option PageState) (meta : PageMeta) : bool :=
  match prev with
  | None => true
  | Some p => String.ltb (ps_last_edited_time p) (meta_last_edited_time meta)
  end.

(** The rest of [fetchPageIfChanged] once the page is found changed. *)
Definition fetchChangedPage (fuel : nat) (pageId : string)
  (aliasOut : option string) (prev : option PageState) (meta : PageMeta)
  : M (option Payload) :=
  blocks <- listBlocks fuel pageId ;;
  let cov := ref_url (meta_cover meta) in
  let coverKey := "page:" +:+ meta_id meta +:+ ":cover" in
  localCover <-
    (if Js.otruthy cov then downloadFileCached coverKey cov "cover"
     else
       state <- get_mem ;;
       ret (Js.or_null
              (Js.or_else (cached_local state coverKey)
                          (prev ≫= ps_cover_local)))) ;;
  let payload :=
    {| pl_page := meta; pl_blocks := blocks; pl_cover_local := localCover |} in
  let fname :=
    if Js.otruthy aliasOut
    then "page-" +:+ default "" aliasOut +:+ ".json"
    else "page-" +:+ pageId +:+ ".json" in
  write_file (in_OUT_DIR fname) (FPage payload) ;;
  set_page pageId
    {| ps_last_edited_time := meta_last_edited_time meta;
       ps_cover_local := Js.or_null localCover |} ;;
  ret (Some payload).

(** [fetchPageIfChanged(pageId, aliasOut, state)]. *)
Definition fetchPageIfChanged (fuel : nat) (pageId : string)
  (aliasOut : option string) : M (option Payload) :=
  meta <- withRetry (pages_retrieve pageId) 5 ;;
  state <- get_mem ;;
  let prev := pages state !! pageId in
  let changed := page_changed prev meta in
  if negb changed then ret None
  else fetchChangedPage fuel pageId aliasOut prev meta.

(** The [filter] put in the query body when [sinceISO] is set. *)
Definition since_filter (sinceISO : option Z) : option Filter :=
  match sinceISO with
  | Some t => Some (LastEditedOnOrAfter t)
  | None => None
  end.

(** [queryDatabaseIncremental(database_id, sinceISO)]. *)
Definition queryDatabaseIncremental (fuel : nat) (database_id : string)
  (sinceISO : option Z) : M (list Row) :=
  paginate fuel
    (fun cursor => databases_query database_id cursor (since_filter sinceISO))
    None [].

(** [fullIdsInDatabase(database_id)]. *)
Definition fullIdsInDatabase (fuel : nat) (database_id : string)
  : M (list string) :=
  all <- paginate fuel (fun cursor => databases_query database_id cursor None)
           None [] ;;
  ret (map row_id all).

(** ** The JavaScript [Map]: keyed lookup that remembers insertion order *)

Module JsMap.

Definition t (V : Type) : Type := list (string * V).

Fixpoint get {V} (k : string) (m : t V) : option V :=
  match m with
  | [] => None
  | (k', v) :: r => if String.eqb k' k then Some v else get k r
  end.

(** [m.set(k, v)]: replace in place, or append. *)
Fixpoint set {V} (k : string) (v : V) (m : t V) : t V :=
  match m with
  | [] => [(k, v)]
  | (k', v') :: r =>
      if String.eqb k' k then (k, v) :: r else (k', v') :: set k v r
  end.

(** [m.delete(k)]. *)
Definition delete {V} (k : string) (m : t V) : t V :=
  List.filter (fun kv => negb (String.eqb (fst kv) k)) m.

Definition keys {V} (m : t V) : list string := map fst m.
Definition values {V} (m : t V) : list V := map snd m.

(** [new Map(entries)]. *)
Definition of_entries {V} (l : list (string * V)) : t V :=
  fold_left (fun m kv => set (fst kv) (snd kv) m) l [].

End JsMap.

(** ** Database sync *)

Definition set_cover_local (p : Row) (v : option string) : Row :=
  {| row_id := row_id p; row_last_edited_time := row_last_edited_time p;
     row_cover := row_cover p; row_properties := row_properties p;
     row_cover_local := Some v; row_blocks := row_blocks p |}.

Definition set_properties (p : Row) (props : list (string * PropVal)) : Row :=
  {| row_id := row_id p; row_last_edited_time := row_last_edited_time p;
     row_cover := row_cover p; row_properties := props;
     row_cover_local := row_cover_local p; row_blocks := row_blocks p |}.

Definition set_blocks (p : Row) (blocks : list Block) : Row :=
  {| row_id := row_id p; row_last_edited_time := row_last_edited_time p;
     row_cover := row_cover p; row_properties := row_properties p;
     row_cover_local := row_cover_local p; row_blocks := Some blocks |}.

(** [if (local) f.local = local]. *)
Definition graft_entry (f : FileEntry) (local : option string) : FileEntry :=
  match local with
  | Some l => {| fe_ref := fe_ref f; fe_local := Some l |}
  | None => f
  end.

(** The files of one property of row [rowId]: download all. *)
Definition syncPropFiles (rowId propName : string) (files : list FileEntry)
  : M (list FileEntry) :=
  for_each_i (fun i f =>
    let url := ref_url (fe_ref f) in
    let key := "page:" +:+ rowId +:+ ":prop:" +:+ propName +:+ ":"
                 +:+ Js.of_nat i in
    local <- downloadFileCached key url "file" ;;
    ret (graft_entry f local)) 0 files.

(** What the body of the loop over the changed rows does to the row [p]
    before it is put in the index: cover, files properties, blocks. *)
Definition syncRow (fuel : nat) (fetchBlocksForRows : bool) (p : Row)
  : M Row :=
  let cov := ref_url (row_cover p) in
  p <- (if Js.otruthy cov
        then
          local <- downloadFileCached ("page:" +:+ row_id p +:+ ":cover")
                     cov "cover" ;;
          ret (set_cover_local p local)
        else ret p) ;;
  props <- for_each (fun entry =>
             match snd entry with
             | PFiles files =>
                 files <- syncPropFiles (row_id p) (fst entry) files ;;
                 ret (fst entry, PFiles files)
             | POther _ => ret entry
             end) (row_properties p) ;;
  let p := set_properties p props in
  if fetchBlocksForRows
  then try_catch
         (blocks <- listBlocks fuel (row_id p) ;; ret (set_blocks p blocks))
         (fun _ => ret p)
  else ret p.

(** The loop [for (const p of changedRows)] over the index [byId]. *)
Fixpoint upsertRows (fuel : nat) (fetchBlocksForRows : bool)
  (changedRows : list Row) (byId : JsMap.t Row) : M (JsMap.t Row) :=
  match changedRows with
  | [] => ret byId
  | p :: rest =>
      p <- syncRow fuel fetchBlocksForRows p ;;
      let byId := JsMap.set (row_id p) p byId in
      set_dbItem (row_id p) (row_last_edited_time p) ;;
      upsertRows fuel fetchBlocksForRows rest byId
  end.

(** The stored snapshot's [results]: none when the file is absent; a file
    that is not a database snapshot makes the read throw. *)
Definition loadSnapshot (outFile : string) : M (list Row) :=
  fun w =>
    match disk w !! outFile with
    | None => (Ok [], w)
    | Some (FDb rows) => (Ok rows, w)
    | Some _ => (Throw (ErrParse outFile), w)
    end.

(** The loop deleting from the index every key that is not a current id. *)
Definition reconcile (currentIds : gset string) (byId : JsMap.t Row)
  : JsMap.t Row :=
  fold_left
    (fun m id =>
       if bool_decide (id ∈ currentIds) then m else JsMap.delete id m)
    (JsMap.keys byId) byId.

Record Options := mkOptions {
  sinceISO : option Z;
  fullMode : bool;
  fetchBlocksForRows : bool
}.

Definition db_file (outName : string) : string :=
  in_OUT_DIR ("db-" +:+ outName +:+ ".json").

(** [syncDatabase(database_id, outName, state, options)]. *)
Definition syncDatabase (fuel : nat) (database_id outName : string)
  (options : Options) : M unit :=
  changedRows <- queryDatabaseIncremental fuel database_id
                   (if fullMode options then None else sinceISO options) ;;
  let outFile := db_file outName in
  stored <- loadSnapshot outFile ;;
  let byId := JsMap.of_entries (map (fun x => (row_id x, x)) stored) in
  byId <- upsertRows fuel (fetchBlocksForRows options) changedRows byId ;;
  byId <- (if fullMode options
           then
             ids <- fullIdsInDatabase fuel database_id ;;
             ret (reconcile (list_to_set ids) byId)
           else ret byId) ;;
  write_file outFile (FDb (JsMap.values byId)).

(** ** Main *)

(** The ids of [site.config.json] ([""] for a missing entry). *)
Record Config := mkConfig {
  home_page_id : string;
  intro_page_id : string;
  culture_page_id : string;
  members_db_id : string;
  blog_db_id : string
}.

(** The two environment flags, each set when the variable is ['1']. *)
Record Flags := mkFlags {
  FULL_RECONCILE : bool;
  FETCH_BLOCKS_FOR_DB : bool
}.

(** [if (id) await fetchPageIfChanged(id, alias, state) else warn]. *)
Definition page_step (fuel : nat) (id : option string) (aliasOut : string)
  : M unit :=
  match id with
  | Some pageId => fetchPageIfChanged fuel pageId (Some aliasOut) ;; ret tt
  | None => ret tt
  end.

(** [if (id) await syncDatabase(id, outName, state, options) else warn]. *)
Definition db_step (fuel : nat) (id : option string) (outName : string)
  (options : Options) : M unit :=
  match id with
  | Some database_id => syncDatabase fuel database_id outName options
  | None => ret tt
  end.

(** [main] up to the comment [// Save state]: load the state, choose the
    mode, sync the three pages and the two databases. *)
Definition syncResources (fuel : nat) (cfg : Config) (flags : Flags)
  : M unit :=
  let home := normalizeId (home_page_id cfg) in
  let intro := normalizeId (intro_page_id cfg) in
  let culture := normalizeId (culture_page_id cfg) in
  let members := normalizeId (members_db_id cfg) in
  let blog := normalizeId (blog_db_id cfg) in
  state <- loadState ;;
  put_mem state ;;
  let full :=
    (FULL_RECONCILE flags
     || negb (bool_decide (is_Some (lastSyncISO state))))%bool in
  let since := if full then None else isoMinusMinutes (lastSyncISO state) 2 in
  let options :=
    {| sinceISO := since; fullMode := full;
       fetchBlocksForRows := FETCH_BLOCKS_FOR_DB flags |} in
  page_step fuel home "home" ;;
  page_step fuel intro "introduction" ;;
  page_step fuel culture "culture" ;;
  db_step fuel members "members" options ;;
  db_step fuel blog "blog" options.

(** [main]; a [Throw] is the rejection that the script's last lines turn
    into an exit with status 1. *)
Definition main (fuel : nat) (cfg : Config) (flags : Flags) : M unit :=
  syncResources fuel cfg flags ;;
  now <- get_now ;;
  set_lastSync now ;;
  saveState.


(** ** Vocabulary of the statements *)

(** The name [downloadFileCached] gives the file holding [buf], fetched
    from [u] with the filename hint [hint]. *)
Definition asset_name (e : Env) (hint u : string) (buf : list Byte.byte)
  : string :=
  hint +:+ "-" +:+ String.substring 0 12 (sha1 e buf) +:+ "."
    +:+ safeExtFromUrl e u "bin".

(** The key has no record with a local path, or the file of that path is
    gone. *)
Definition cache_miss (w : World) (key : string) : Prop :=
  cached_local (mem w) key = None \/
  exists l, cached_local (mem w) key = Some l
            /\ disk w !! strip_dot_slash l = None.

(** The call cannot produce a fresh file: the URL is absent, or the fetch
    made now throws, or it answers with a status that is not a success. *)
Definition no_fresh_file (w : World) (url : option string) : Prop :=
  Js.otruthy url = false \/
  exists u, url = Some u /\ Js.truthy u = true /\
    ((exists e, net_fetch (env w) (tick w) u = inl e) \/
     (exists res, net_fetch (env w) (tick w) u = inr res
                  /\ resp_ok res = false)).

(** Every run of [m] takes a world to one related to it by [R], whatever
    the outcome. *)
Definition preserves (R : World -> World -> Prop) {A} (m : M A) : Prop :=
  forall w, R w (snd (m w)).

(** The file at [path] is the same before and after. *)
Definition untouched (path : string) (w w' : World) : Prop :=
  disk w' !! path = disk w !! path.

(** The log of effects grows, by events that all satisfy [Q]. *)
Definition logs (Q : Event -> Prop) (w w' : World) : Prop :=
  exists evs, trace w' = trace w ++ evs /\ Forall Q evs.

(** [Q] holds of every effect of a sync except, possibly, writing
    elsewhere than in the image and snapshot directories, and querying a
    database with a filter that [query_allowed] excludes. *)
Record tolerant (Q : Event -> Prop)
  (query_allowed : string -> option Filter -> Prop) : Prop := {
  tol_sleep : forall ms, Q (EvSleep ms);
  tol_fetch : forall u, Q (EvFetch u);
  tol_pages : forall id, Q (EvPagesRetrieve id);
  tol_blocks : forall id c, Q (EvBlocksList id c);
  tol_image : forall name, Q (EvWrite (in_IMG_DIR name));
  tol_out : forall name, Q (EvWrite (in_OUT_DIR name));
  tol_query : forall db c f, query_allowed db f -> Q (EvDbQuery db c f)
}.

(** Modelled from the spec: the remote service's evaluation of the query
    filter, which no code of the script decides. The filter is a lower
    bound "last-modified at or after": it admits a row whose last edit,
    as an instant in milliseconds, is at or after the bound. *)
Definition filter_admits (f : Filter) (last_edited : Z) : bool :=
  match f with
  | LastEditedOnOrAfter since => (since <=? last_edited)%Z
  end.

(** An attempt to retrieve the metadata of page [pageId], or the sleep
    between two attempts: neither a fetch of blocks nor a write. *)
Definition retrieval_only (pageId : string) (e : Event) : Prop :=
  e = EvPagesRetrieve pageId \/ exists ms, e = EvSleep ms.

(** The sync state, the disk and the environment are the same. *)
Definition same_store (w w' : World) : Prop :=
  mem w' = mem w /\ disk w' = disk w /\ env w' = env w.

(** The snapshot file of a page. *)
Definition page_file (pageId : string) (aliasOut : option string) : string :=
  in_OUT_DIR (if Js.otruthy aliasOut
              then "page-" +:+ default "" aliasOut +:+ ".json"
              else "page-" +:+ pageId +:+ ".json").

(** The index [new Map(snapshot.results.map(x => [x.id, x]))]. *)
Definition index_of (rows : list Row) : JsMap.t Row :=
  JsMap.of_entries (map (fun x => (row_id x, x)) rows).

(** Every entry of the index sits under the id of its row. *)
Definition keyed (m : JsMap.t Row) : Prop :=
  Forall (fun kv => fst kv = row_id (snd kv)) m.

(** [r] is what the sync made of the fetched row [p], and of nothing
    else. *)
Definition synced_from (fuel : nat) (fetchBlocks : bool) (p r : Row) : Prop :=
  exists wa wb, syncRow fuel fetchBlocks p wa = (Ok r, wb).

(** The rows of the stored snapshot of [outName], none if it is absent. *)
Definition stored_rows (d : gmap string File) (outName : string)
  : option (list Row) :=
  match d !! db_file outName with
  | None => Some []
  | Some (FDb rows) => Some rows
  | Some _ => None
  end.

(** [m] always returns a value: it neither throws nor runs out of fuel. *)
Definition returns {A} (m : M A) : Prop :=
  forall w, exists a w', m w = (Ok a, w').

(** [m] never runs out of fuel. *)
Definition terminates {A} (m : M A) : Prop :=
  forall w, fst (m w) <> OutOfFuel.

(** The environment is the same. *)
Definition same_env (w w' : World) : Prop := env w' = env w.

(** The state a run starting on the disk [d] loads. *)
Definition stored_state (d : gmap string File) : SyncState :=
  match d !! STATE_F with
  | Some (FState s) => s
  | _ => emptyState
  end.

(** An effect other than writing the state file. *)
Definition not_state_write (e : Event) : Prop := e <> EvWrite STATE_F.

(** A database query, if the effect is one, carries the filter
    [on_or_after since]. *)
Definition queries_since (since : Z) (e : Event) : Prop :=
  match e with
  | EvDbQuery _ _ f => f = Some (LastEditedOnOrAfter since)
  | _ => True
  end.

(** The iterations the loop of [withRetry] can still need after [n]
    failures. *)
Definition retry_need (tries n : Z) : nat := S (Z.to_nat (tries - (n + 1))).

(** [m] is a run of [n] hexadecimal characters. *)
Definition hex_run (n : nat) (m : list ascii) : Prop :=
  length m = n /\ forallb Js.is_hex m = true.

(** [m] occurs in [l] right after the prefix [pre]. *)
Definition occurs_at (pre m l : list ascii) : Prop :=
  exists post, l = pre ++ m ++ post.

(** [l] has a run of [n] hexadecimal characters somewhere. *)
Definition has_hex_run (n : nat) (l : list ascii) : Prop :=
  exists pre m, occurs_at pre m l /\ hex_run n m.

(** [m] is the leftmost run of [n] hexadecimal characters of [l]. *)
Definition leftmost_hex_run (n : nat) (m l : list ascii) : Prop :=
  exists pre,
    occurs_at pre m l /\ hex_run n m /\
    forall pre' m', occurs_at pre' m' l -> hex_run n m' ->
                    length pre <= length pre'.

(** ** The site builder

    What the builder does with the snapshots: the two [esc] helpers, of
    [build.mjs] and of [tools/render/block.mjs], and [coverOf] of
    [tools/map.mjs], which picks the cover a card shows. *)

(** [s.replace(/[&<>]/g, m => ({'&':'&amp;','<':'&lt;','>':'&gt;'}[m]))]:
    one pass over the string, each match replaced by its entity. *)
Definition esc_char (c : ascii) : list ascii :=
  if Ascii.eqb c "&" then Js.chars "&amp;"
  else if Ascii.eqb c "<" then Js.chars "&lt;"
  else if Ascii.eqb c ">" then Js.chars "&gt;"
  else [c].

(** [esc] of [build.mjs]. *)
Definition esc (s : string) : string :=
  Js.str (flat_map esc_char (Js.chars s)).

(** [s.replace(/c/g, by)] for a one-character pattern. *)
Definition replace_all (c : ascii) (by_ : string) (l : list ascii)
  : list ascii :=
  flat_map (fun x => if Ascii.eqb x c then Js.chars by_ else [x]) l.

(** [esc] of [block.mjs]: three passes, one per character,
    [String(s).replace(/&/g,'&amp;').replace(/</g,'&lt;')
    .replace(/>/g,'&gt;')]. *)
Definition esc_block (s : string) : string :=
  Js.str (replace_all ">" "&gt;"
            (replace_all "<" "&lt;"
               (replace_all "&" "&amp;" (Js.chars s)))).

(** [coverOf(x)] on a row:
    [x?.cover_local || x?.cover?.file?.url || x?.cover?.external?.url
    || null]. *)
Definition coverOf (x : Row) : option string :=
  Js.or_null
    (Js.or_else
       (Js.or_else (mjoin (row_cover_local x)) (ref_file_url (row_cover x)))
       (ref_external_url (row_cover x))).

(** ** Further vocabulary *)

(** What holds of the outcome of [m] run from [w]. *)
Definition wp {A} (m : M A) (Q : Res A -> World -> Prop) (w : World) : Prop :=
  Q (fst (m w)) (snd (m w)).

(** Every file that exists still exists, with the same content. *)
Definition files_kept (w w' : World) : Prop :=
  forall p f, disk w !! p = Some f -> disk w' !! p = Some f.

(** The disk differs at most by files of the image directory. *)
Definition only_images_written (w w' : World) : Prop :=
  forall p, (forall name, p <> in_IMG_DIR name) -> disk w' !! p = disk w !! p.

(** Of the sync state, at most [images] differs. *)
Definition only_images_recorded (w w' : World) : Prop :=
  lastSyncISO (mem w') = lastSyncISO (mem w)
  /\ pages (mem w') = pages (mem w)
  /\ dbItems (mem w') = dbItems (mem w).

(** Every asset key recorded is still recorded. *)
Definition records_kept (w w' : World) : Prop :=
  forall k, is_Some (images (mem w) !! k) -> is_Some (images (mem w') !! k).

(** The record of the asset key [k] is the same. *)
Definition record_untouched (k : string) (w w' : World) : Prop :=
  images (mem w') !! k = images (mem w) !! k.

(** No file of the image directory is deleted or changed. *)
Definition image_files_kept (w w' : World) : Prop :=
  forall name f,
    disk w !! in_IMG_DIR name = Some f -> disk w' !! in_IMG_DIR name = Some f.

(** The footprint of a sync: from [w] to [w'] the asset records change
    at most under the keys in [K], the page stamps under the ids in [P],
    the row stamps under the ids in [D], and the files outside the image
    directory at the paths in [F]; the watermark and the environment are
    the same, no asset record is removed, and the files of the image
    directory that exist stay as they are. *)
Record within (K P D F : string -> Prop) (w w' : World) : Prop := mkWithin {
  wi_env : env w' = env w;
  wi_watermark : lastSyncISO (mem w') = lastSyncISO (mem w);
  wi_records :
    forall k, ~ K k -> images (mem w') !! k = images (mem w) !! k;
  wi_records_kept : records_kept w w';
  wi_pages : forall id, ~ P id -> pages (mem w') !! id = pages (mem w) !! id;
  wi_rows :
    forall id, ~ D id -> dbItems (mem w') !! id = dbItems (mem w) !! id;
  wi_files :
    forall p, ~ F p -> (forall name, p <> in_IMG_DIR name) ->
              disk w' !! p = disk w !! p;
  wi_images : image_files_kept w w'
}.

(** Asset keys of blocks, of covers, and of pages and rows in general. *)
Definition block_key (k : string) : Prop := String.prefix "block:" k = true.
Definition page_key (k : string) : Prop := String.prefix "page:" k = true.
Definition cover_key (k : string) : Prop :=
  exists id, k = "page:" +:+ id +:+ ":cover".

Definition nowhere (x : string) : Prop := False.
Definition anywhere (x : string) : Prop := True.

(** If the outcome [r] is a failure, the world [w'] it leaves is related
    to [w0] by [R]. *)
Definition fails_within (R : World -> World -> Prop) (w0 : World) {X}
  (r : Res X) (w' : World) : Prop :=
  is_ok r = false -> R w0 w'.


(** None of the five ids of the configuration is usable. *)
Definition no_usable_id (cfg : Config) : Prop :=
  normalizeId (home_page_id cfg) = None
  /\ normalizeId (intro_page_id cfg) = None
  /\ normalizeId (culture_page_id cfg) = None
  /\ normalizeId (members_db_id cfg) = None
  /\ normalizeId (blog_db_id cfg) = None.

(** The log of [k + 1] attempts that each log [ev], the first after [n]
    failures: between two attempts, the wait of [withRetry]. *)
Fixpoint attempts_log (ev : Event) (n : Z) (k : nat) : list Event :=
  match k with
  | O => [ev]
  | S k' =>
      ev :: EvSleep (retry_wait (n + 1)) :: attempts_log ev (n + 1) k'
  end.

(** The asset key of the [i]-th file of the property [propName] of the
    row [rowId]. *)
Definition prop_key (rowId propName : string) (i : nat) : string :=
  "page:" +:+ rowId +:+ ":prop:" +:+ propName +:+ ":" +:+ Js.of_nat i.

(** The requests a cursor loop makes against a remote that answers the
    request with cursor [c] by the page [listing c], and the results it
    accumulates: the cursors requested, in order, and the results of the
    pages, concatenated. [None] if [n] requests do not reach the last
    page. *)
Fixpoint follow {A} (n : nat) (listing : option string -> Listing A)
  (cursor : option string) : option (list (option string) * list A) :=
  match n with
  | O => None
  | S n' =>
      let res := listing cursor in
      if negb (has_more res) then Some ([cursor], results res)
      else match follow n' listing (next_cursor res) with
           | Some (cs, items) => Some (cursor :: cs, results res ++ items)
           | None => None
           end
  end.

(** What [listBlocks] makes of the body of a block: an image or a file
    may get a [local] path grafted, anything else is as it was. *)
Definition body_synced (a a' : BlockBody) : Prop :=
  match a, a' with
  | BImage m, BImage m' => exists local, m' = graft_local m local
  | BFile m, BFile m' => exists local, m' = graft_local m local
  | BOther ty, BOther ty' => ty' = ty
  | _, _ => False
  end.

(** What [listBlocks] makes of a block [b] of the listing: the same
    block, with its children attached when it has some. *)
Definition block_synced (b b' : Block) : Prop :=
  blk_id b' = blk_id b
  /\ blk_has_children b' = blk_has_children b
  /\ (if blk_has_children b then is_Some (blk_children b')
      else blk_children b' = blk_children b)
  /\ body_synced (blk_body b) (blk_body b').

(** An instant from which the two minutes of margin can be taken within
    the range of [Date], 8.64e15 ms either side of the epoch: outside it
    [toISOString] throws. *)
Definition watermark_in_range (t : Z) : Prop :=
  (-8640000000000000 + 2 * 60 * 1000 <= t <= 8640000000000000)%Z.

(** The state file is absent, or holds a state as [saveState] writes
    one: a JSON object with the fields of the state, whose watermark, if
    it has one, is a date in range. This leaves out the files on which
    the code and [loadState] as modelled part: a file holding a JSON
    array or an object of another shape, which the code keeps as its
    state object, and a watermark that [Date] cannot handle. *)
Definition state_file_sound (d : gmap string File) : Prop :=
  d !! STATE_F = None
  \/ exists st,
       d !! STATE_F = Some (FState st)
       /\ forall t, lastSyncISO st = Some t -> watermark_in_range t.

(** ** Sample worlds

    Concrete environments and worlds on which the statements below are
    exercised. The hash and the URL parser are stand-ins: the properties
    never depend on which functions they are. *)

Module Sample.

Definition toy_sha1 (buf : list Byte.byte) : string :=
  match buf with
  | [] => "da39a3ee5e6b4b0d3255bfef95601890afd80709"
  | _ => "4f9be057f0ea5d2ba72fd2c810e8d7b9aa98b469"
  end.

(** The path of an [https://host/path?query] URL; anything else throws. *)
Definition toy_pathname (u : string) : option string :=
  if String.prefix "https://" u then
    let rest := String.substring 8 (String.length u - 8) u in
    match String.index 0 "/" rest with
    | Some i =>
        let tail := String.substring i (String.length rest - i) rest in
        Some (Js.str (hd [] (Js.split_on "?" (Js.chars tail))))
    | None => Some "/"
    end
  else None.

Definition png : list Byte.byte := [Byte.x89; Byte.x50; Byte.x4e; Byte.x47].

Definition ok_response (buf : list Byte.byte) : HttpResponse :=
  {| resp_ok := true; resp_status := 200; resp_body := inr buf |}.

Definition forbidden : HttpResponse :=
  {| resp_ok := false; resp_status := 403;
     resp_body := inr [] |}.

Definition no_listing {A} : Listing A :=
  {| results := []; has_more := false; next_cursor := None |}.

(** An environment given by its remote answers; writes succeed, the clock
    shows one second per interaction. *)
Definition env_of
  (pages_api : nat -> string -> Err + PageMeta)
  (blocks_api : nat -> string -> option string -> Err + Listing Block)
  (db_api : nat -> string -> option string -> option Filter
            -> Err + Listing Row)
  (net : nat -> string -> Err + HttpResponse) : Env :=
  {| api_pages_retrieve := pages_api;
     api_blocks_list := blocks_api;
     api_db_query := db_api;
     net_fetch := net;
     fs_write_ok := fun _ _ => true;
     clock := fun t => (Z.of_nat t * 1000 + 1714644000000)%Z;
     sha1 := toy_sha1;
     url_pathname := toy_pathname |}.

Definition world_of (e : Env) (s : SyncState) (d : gmap string File)
  : World :=
  {| env := e; mem := s; disk := d; tick := 0; trace := [] |}.

(** *** Asset cache *)

(** A network that serves the same picture at every URL of [cdn.example],
    refuses [denied.example], and is unreachable otherwise. *)
Definition net_cdn (t : nat) (u : string) : Err + HttpResponse :=
  if String.prefix "https://cdn.example/" u then inr (ok_response png)
  else if String.prefix "https://denied.example/" u then inr forbidden
  else inl (ErrNet "fetch failed").

Definition env_cdn : Env :=
  env_of (fun _ _ => inl (ErrApi "unused"))
         (fun _ _ _ => inr no_listing)
         (fun _ _ _ _ => inr no_listing)
         net_cdn.

Definition cover_record : AssetRecord :=
  {| img_local := "./images/cover-4f9be057f0ea.png";
     img_hash := "sha1:4f9be057f0ea5d2ba72fd2c810e8d7b9aa98b469";
     img_size := 4; img_updated := 1690000000000;
     img_last_url := "https://cdn.example/a/cover.png?sig=1" |}.

Definition state_with_cover : SyncState :=
  {| lastSyncISO := Some 1690000000000%Z; pages := ∅; dbItems := ∅;
     images := {[ "page:p1:cover" := cover_record ]} |}.

(** The cover of page [p1] is recorded and its file is on disk. *)
Definition w_cached : World :=
  world_of env_cdn state_with_cover
    {[ "images/cover-4f9be057f0ea.png" := FBytes png ]}.

(** The cover of page [p1] is recorded but its file is gone. *)
Definition w_stale : World := world_of env_cdn state_with_cover ∅.

(** Nothing recorded, nothing on disk. *)
Definition w_empty : World := world_of env_cdn emptyState ∅.

(** *** Retry *)

(** A remote API that rejects every call, naming the attempt. *)
Definition env_down : Env :=
  env_of (fun t _ => inl (ErrApi ("rate limited, call " +:+ Js.of_nat t)))
         (fun _ _ _ => inl (ErrApi "rate limited"))
         (fun _ _ _ _ => inl (ErrApi "rate limited"))
         net_cdn.

Definition w_down : World := world_of env_down emptyState ∅.

(** *** A site with a home page and a members database *)

Definition home_id : string := "11111111111111111111111111111111".
Definition members_id : string := "22222222222222222222222222222222".

Definition no_ref : FileRef :=
  {| ref_file_url := None; ref_external_url := None |}.

Definition home_meta : PageMeta :=
  {| meta_id := "11111111-1111-1111-1111-111111111111";
     meta_last_edited_time := "2024-05-02T08:00:00.000Z";
     meta_cover := no_ref |}.

Definition plain_row (id : string) (stamp : Stamp) : Row :=
  {| row_id := id; row_last_edited_time := stamp; row_cover := no_ref;
     row_properties := []; row_cover_local := None; row_blocks := None |}.

Definition row_A : Row := plain_row "A" "2024-04-01T00:00:00.000Z".
Definition row_B : Row := plain_row "B" "2024-04-02T00:00:00.000Z".
Definition row_C : Row := plain_row "C" "2024-04-03T00:00:00.000Z".
(** Row [A] after an edit upstream. *)
Definition row_A' : Row := plain_row "A" "2024-05-02T09:00:00.000Z".

Definition listing_of {A} (l : list A) : Listing A :=
  {| results := l; has_more := false; next_cursor := None |}.

(** The remote site: the home page, edited on May 2nd; the members
    database, where [A] was edited, [B] was deleted and [C] is as it was.
    An unfiltered query lists the current rows, a filtered one the rows
    edited since. When [db_up] is false every database query fails. *)
Definition env_site (db_up : bool) : Env :=
  env_of
    (fun _ id => if String.eqb id home_id then inr home_meta
                 else inl (ErrApi "object_not_found"))
    (fun _ _ _ => inr no_listing)
    (fun _ db _ filter =>
       if negb db_up then inl (ErrApi "service_unavailable")
       else if String.eqb db members_id then
         match filter with
         | None => inr (listing_of [row_A'; row_C])
         | Some _ => inr (listing_of [row_A'])
         end
       else inl (ErrApi "object_not_found"))
    net_cdn.

Definition cfg_site : Config :=
  {| home_page_id :=
       "https://www.notion.so/Home-11111111111111111111111111111111";
     intro_page_id := "";
     culture_page_id := "";
     members_db_id := "22222222-2222-2222-2222-222222222222";
     blog_db_id := "" |}.

Definition incremental : Flags :=
  {| FULL_RECONCILE := false; FETCH_BLOCKS_FOR_DB := false |}.
Definition full_reconcile : Flags :=
  {| FULL_RECONCILE := true; FETCH_BLOCKS_FOR_DB := false |}.

(** The state the previous run saved, on May 1st. *)
Definition state_may1 : SyncState :=
  {| lastSyncISO := Some 1714550400000%Z;
     pages :=
       {[ home_id := {| ps_last_edited_time := "2024-05-01T08:00:00.000Z";
                        ps_cover_local := None |} ]};
     dbItems := ∅; images := ∅ |}.

Definition disk_may1 : gmap string File :=
  {[ STATE_F := FState state_may1;
     db_file "members" := FDb [row_A; row_B; row_C] ]}.

Definition w_site (db_up : bool) : World :=
  world_of (env_site db_up) emptyState disk_may1.

(** The same site once the run has loaded the state. *)
Definition w_loaded : World :=
  world_of (env_site true) state_may1 disk_may1.

Definition opts_full : Options :=
  {| sinceISO := None; fullMode := true; fetchBlocksForRows := false |}.
Definition opts_incremental : Options :=
  {| sinceISO := Some 1714550280000%Z; fullMode := false;
     fetchBlocksForRows := false |}.

(** Row [A] as the previous run stored it, when it still had a cover. *)
Definition row_A_covered : Row :=
  {| row_id := "A"; row_last_edited_time := "2024-04-01T00:00:00.000Z";
     row_cover :=
       {| ref_file_url := Some "https://cdn.example/a/cover.png?sig=1";
          ref_external_url := None |};
     row_properties := [];
     row_cover_local := Some (Some "./images/cover-4f9be057f0ea.png");
     row_blocks := None |}.

(** The site when the cover of row [A] is cached under [page:A:cover]. *)
Definition w_covered : World :=
  world_of (env_site true)
    {| lastSyncISO := Some 1714550400000%Z; pages := ∅; dbItems := ∅;
       images := {[ "page:A:cover" := cover_record ]} |}
    {[ "images/cover-4f9be057f0ea.png" := FBytes png;
       db_file "members" := FDb [row_A_covered; row_B; row_C] ]}.

Definition home_payload : Payload :=
  {| pl_page := home_meta; pl_blocks := []; pl_cover_local := None |}.

End Sample.

(** ** Further sample worlds *)

Module Scenario.

(** The home page of the sample site, now with a cover. *)
Definition covered_meta : PageMeta :=
  {| meta_id := "11111111-1111-1111-1111-111111111111";
     meta_last_edited_time := "2024-05-02T08:00:00.000Z";
     meta_cover :=
       {| ref_file_url := Some "https://cdn.example/home/cover.png?sig=9";
          ref_external_url := None |} |}.

(** The sample site on a disk where only the image directory can be
    written: every write of a snapshot or of the state file is refused. *)
Definition env_locked : Env :=
  {| api_pages_retrieve :=
       fun _ id => if String.eqb id Sample.home_id then inr covered_meta
                   else inl (ErrApi "object_not_found");
     api_blocks_list := fun _ _ _ => inr Sample.no_listing;
     api_db_query := api_db_query (Sample.env_site true);
     net_fetch := Sample.net_cdn;
     fs_write_ok := fun _ p => String.prefix "images/" p;
     clock := fun t => (Z.of_nat t * 1000 + 1714644000000)%Z;
     sha1 := Sample.toy_sha1;
     url_pathname := Sample.toy_pathname |}.

Definition w_locked : World :=
  Sample.world_of env_locked Sample.state_may1 Sample.disk_may1.



(** A configuration whose ids are missing or unusable. *)
Definition cfg_blank : Config :=
  {| home_page_id := "";
     intro_page_id := "not-an-id";
     culture_page_id := "1111-2222";
     members_db_id := "";
     blog_db_id := "https://www.notion.so/" |}.

(** The members database once a row [D] has been added upstream: the
    filtered query returns [D] before the edited [A]. *)
Definition row_D : Row := Sample.plain_row "D" "2024-05-02T10:00:00.000Z".

Definition env_grown : Env :=
  Sample.env_of
    (fun _ _ => inl (ErrApi "object_not_found"))
    (fun _ _ _ => inr Sample.no_listing)
    (fun _ db _ filter =>
       if String.eqb db Sample.members_id then
         match filter with
         | None =>
             inr (Sample.listing_of [Sample.row_A'; Sample.row_C; row_D])
         | Some _ => inr (Sample.listing_of [row_D; Sample.row_A'])
         end
       else inl (ErrApi "object_not_found"))
    Sample.net_cdn.

Definition w_grown : World :=
  Sample.world_of env_grown Sample.state_may1 Sample.disk_may1.

(** The home page lost its cover upstream; the state still has the cover
    cached and remembers the path the previous sync used. *)
Definition state_cover_cached : SyncState :=
  {| lastSyncISO := Some 1714550400000%Z;
     pages :=
       {[ Sample.home_id :=
            {| ps_last_edited_time := "2024-05-01T08:00:00.000Z";
               ps_cover_local := Some "./images/cover-old.png" |} ]};
     dbItems := ∅;
     images :=
       {[ "page:11111111-1111-1111-1111-111111111111:cover"
            := Sample.cover_record ]} |}.

Definition w_cover_removed : World :=
  Sample.world_of (Sample.env_site true) state_cover_cached
    Sample.disk_may1.

(** The members database served in two pages: [A] and [C], then [D]
    under the cursor [c1]. *)
Definition paged (c : option string) : Listing Row :=
  match c with
  | None =>
      {| results := [Sample.row_A'; Sample.row_C]; has_more := true;
         next_cursor := Some "c1" |}
  | Some _ =>
      {| results := [row_D]; has_more := false; next_cursor := None |}
  end.

Definition env_paged : Env :=
  Sample.env_of
    (fun _ _ => inl (ErrApi "object_not_found"))
    (fun _ _ _ => inr Sample.no_listing)
    (fun _ _ c _ => inr (paged c))
    Sample.net_cdn.

Definition w_paged : World :=
  Sample.world_of env_paged Sample.state_may1 Sample.disk_may1.

(** A page with a picture and a toggle that holds one paragraph. *)
Definition picture : Block :=
  {| blk_id := "b1"; blk_has_children := false;
     blk_body :=
       BImage {| media_ref :=
                   {| ref_file_url := Some "https://cdn.example/b1/pic.png";
                      ref_external_url := None |};
                 media_local := None |};
     blk_children := None |}.

Definition toggle : Block :=
  {| blk_id := "b2"; blk_has_children := true;
     blk_body := BOther "toggle"; blk_children := None |}.

Definition paragraph : Block :=
  {| blk_id := "b3"; blk_has_children := false;
     blk_body := BOther "paragraph"; blk_children := None |}.

Definition env_blocks : Env :=
  Sample.env_of
    (fun _ _ => inr Sample.home_meta)
    (fun _ id _ =>
       if String.eqb id Sample.home_id
       then inr (Sample.listing_of [picture; toggle])
       else if String.eqb id "b2" then inr (Sample.listing_of [paragraph])
       else inr Sample.no_listing)
    (fun _ _ _ _ => inr Sample.no_listing)
    Sample.net_cdn.

Definition w_blocks : World := Sample.world_of env_blocks emptyState ∅.

(** A row whose cover is on an unreachable host and whose attachment is
    refused. *)
Definition row_E : Row :=
  {| row_id := "E"; row_last_edited_time := "2024-05-02T11:00:00.000Z";
     row_cover :=
       {| ref_file_url := None;
          ref_external_url := Some "https://down.example/e.png" |};
     row_properties :=
       [("Files",
         PFiles [ {| fe_ref :=
                       {| ref_file_url :=
                            Some "https://denied.example/e.pdf";
                          ref_external_url := None |};
                     fe_local := None |} ])];
     row_cover_local := None; row_blocks := None |}.

Definition env_broken_assets : Env :=
  Sample.env_of
    (fun _ _ => inl (ErrApi "object_not_found"))
    (fun _ _ _ => inr Sample.no_listing)
    (fun _ _ _ _ => inr (Sample.listing_of [row_E]))
    Sample.net_cdn.

Definition w_broken_assets : World :=
  Sample.world_of env_broken_assets Sample.state_may1 Sample.disk_may1.

End Scenario.
(* ================================================================== *)
(** * Part II. Properties                                              *)
(* ================================================================== *)

(** ** Running monadic code *)

Section Run.

Context {A B : Type}.
Implicit Types (m : M A) (k : A -> M B) (w : World).

Lemma bind_run m k w r w' :
  m w = (r, w') ->
  bind m k w = match r with
               | Ok a => k a w'
               | Throw e => (Throw e, w')
               | OutOfFuel => (OutOfFuel, w')
               end.
Proof. intros H. unfold bind. now rewrite H. Qed.

Lemma bind_ok m k w a w' : m w = (Ok a, w') -> bind m k w = k a w'.
Proof. intros H. now rewrite (bind_run _ _ _ _ _ H). Qed.

Lemma bind_throw m k w e w' :
  m w = (Throw e, w') -> bind m k w = (Throw e, w').
Proof. intros H. now rewrite (bind_run _ _ _ _ _ H). Qed.

Lemma bind_ret_l (a : A) k w : bind (ret a) k w = k a w.
Proof. reflexivity. Qed.

Lemma bind_inv m k w r w2 :
  bind m k w = (r, w2) ->
  (exists a w1, m w = (Ok a, w1) /\ k a w1 = (r, w2)) \/
  (m w = (Throw_or_fuel r, w2) /\ is_ok r = false).
Proof.
  unfold bind. destruct (m w) as [[a|e|] w1]; intros H.
  - left. eauto.
  - right. injection H as <- <-. easy.
  - right. injection H as <- <-. easy.
Qed.

Lemma bind_ok_inv m k w b w2 :
  bind m k w = (Ok b, w2) ->
  exists a w1, m w = (Ok a, w1) /\ k a w1 = (Ok b, w2).
Proof.
  intros H. apply bind_inv in H as [H|[_ H]]; [exact H|discriminate].
Qed.

End Run.

Lemma try_catch_run {A} (m : M A) h w r w' :
  m w = (r, w') ->
  try_catch m h w = match r with
                    | Throw e => h e w'
                    | _ => (r, w')
                    end.
Proof. intros H. unfold try_catch. rewrite H. now destruct r. Qed.

Lemma try_catch_ok_inv {A} (m : M A) h w a w' :
  try_catch m h w = (Ok a, w') ->
  m w = (Ok a, w') \/
  exists e w1, m w = (Throw e, w1) /\ h e w1 = (Ok a, w').
Proof.
  unfold try_catch. destruct (m w) as [[a0|e|] w1]; intros H.
  - now left.
  - right. eauto.
  - discriminate.
Qed.

(** One step of evaluation: run the head of a [bind] with the given
    equation, or by computation when it is a primitive. *)
Ltac mrun H := rewrite (bind_run _ _ _ _ _ H); cbv beta iota.
Ltac mprim := erewrite bind_run by reflexivity; cbv beta iota.

(** ** The asset cache *)

Section AssetCache.

Implicit Types (w : World) (key hint : string) (url : option string).

Lemma cached_local_truthy state key rec :
  images state !! key = Some rec ->
  Js.truthy (img_local rec) = true ->
  cached_local state key = Some (img_local rec).
Proof. intros Hk Ht. unfold cached_local. now rewrite Hk, Ht. Qed.

Lemma exists_file_present w path :
  is_Some (disk w !! path) -> exists_file path w = (Ok true, w).
Proof.
  intros H. unfold exists_file. now rewrite bool_decide_eq_true_2.
Qed.

Lemma exists_file_absent w path :
  disk w !! path = None -> exists_file path w = (Ok false, w).
Proof.
  intros H. unfold exists_file. rewrite bool_decide_eq_false_2; [easy|].
  rewrite H. intros [x Hx]. discriminate.
Qed.

(** C1. When the state holds a record for the key and the file that the
    record's local path names still exists, [downloadFileCached] returns
    that path and leaves the world as it found it, so no fetch is made
    and nothing is written, whatever the URL passed: absent, equal to the
    recorded one, or different. *)
Theorem downloadFileCached_reuses_cached_file w key url hint rec :
  images (mem w) !! key = Some rec ->
  Js.truthy (img_local rec) = true ->
  is_Some (disk w !! strip_dot_slash (img_local rec)) ->
  downloadFileCached key url hint w = (Ok (Some (img_local rec)), w).
Proof.
  intros Hk Ht Hd.
  pose proof (cached_local_truthy _ _ _ Hk Ht) as Hc.
  unfold downloadFileCached, bind, get_mem, ret.
  destruct url as [u|]; [|now rewrite Hc].
  destruct (negb (Js.truthy u)); rewrite Hc; [reflexivity|].
  now rewrite (exists_file_present _ _ Hd).
Qed.

Lemma cached_local_none state key :
  images state !! key = None -> cached_local state key = None.
Proof. intros H. unfold cached_local. now rewrite H. Qed.

Lemma fetch_throw w u e :
  net_fetch (env w) (tick w) u = inl e ->
  fetch u w = (Throw e, logged (EvFetch u) (ticked w)).
Proof. intros H. unfold fetch. now rewrite H. Qed.

Lemma fetch_ok w u res :
  net_fetch (env w) (tick w) u = inr res ->
  fetch u w = (Ok res, logged (EvFetch u) (ticked w)).
Proof. intros H. unfold fetch. now rewrite H. Qed.

Lemma write_file_ok w path f :
  fs_write_ok (env w) (tick w) path = true ->
  write_file path f w
  = (Ok tt, with_disk (<[path := f]> (disk w)) (logged (EvWrite path) w)).
Proof. intros H. unfold write_file. now rewrite H. Qed.

(** C9. A record whose file has gone from the disk is still what the call
    answers with when no fresh file can be produced: with the URL absent,
    with a fetch that throws, and with a response whose status is not a
    success, [downloadFileCached] returns the recorded local path and
    leaves the sync state (so the stale record) and the disk untouched. *)
Theorem downloadFileCached_returns_stale_path w key url hint rec :
  images (mem w) !! key = Some rec ->
  Js.truthy (img_local rec) = true ->
  disk w !! strip_dot_slash (img_local rec) = None ->
  no_fresh_file w url ->
  exists w',
    downloadFileCached key url hint w = (Ok (Some (img_local rec)), w')
    /\ mem w' = mem w
    /\ images (mem w') !! key = Some rec
    /\ disk w' = disk w
    /\ disk w' !! strip_dot_slash (img_local rec) = None.
Proof.
  intros Hk Ht Hd Hnf.
  pose proof (cached_local_truthy _ _ _ Hk Ht) as Hc.
  unfold downloadFileCached. mprim.
  destruct Hnf as [Hu | (u & -> & Hu & Hf)].
  - exists w. destruct url as [u|]; simpl in Hu.
    + rewrite Hu, Hc. easy.
    + rewrite Hc. easy.
  - rewrite Hu, Hc. cbn [negb]. mrun (exists_file_absent _ _ Hd).
    exists (logged (EvFetch u) (ticked w)).
    destruct Hf as [[e He] | (res & He & Hok)].
    + erewrite try_catch_run
        by (apply bind_throw; apply fetch_throw; exact He).
      easy.
    + erewrite try_catch_run.
      2:{ mrun (fetch_ok _ _ _ He). rewrite Hok. reflexivity. }
      easy.
Qed.

(** A download that goes through: the key has no usable cached file, the
    fetch answers with a success and the bytes [buf], and the file system
    accepts the write if one is needed. The file is named after the hint,
    the first twelve digits of the hash and the extension; it is written
    only when no file of that name exists; the record of the key is
    replaced. *)
Lemma downloadFileCached_download w key u hint res buf :
  Js.truthy u = true ->
  cache_miss w key ->
  net_fetch (env w) (tick w) u = inr res ->
  resp_ok res = true ->
  resp_body res = inr buf ->
  let name := asset_name (env w) hint u buf in
  let dst := in_IMG_DIR name in
  (disk w !! dst = None -> fs_write_ok (env w) (S (tick w)) dst = true) ->
  exists w',
    downloadFileCached key (Some u) hint w
      = (Ok (Some ("./images/" +:+ name)), w')
    /\ env w' = env w
    /\ tick w' = S (tick w)
    /\ trace w' = trace w ++ EvFetch u ::
                     match disk w !! dst with
                     | Some _ => []
                     | None => [EvWrite dst]
                     end
    /\ disk w' = match disk w !! dst with
                 | Some _ => disk w
                 | None => <[dst := FBytes buf]> (disk w)
                 end
    /\ lastSyncISO (mem w') = lastSyncISO (mem w)
    /\ pages (mem w') = pages (mem w)
    /\ dbItems (mem w') = dbItems (mem w)
    /\ images (mem w') =
         <[key := {| img_local := "./images/" +:+ name;
                     img_hash := "sha1:" +:+ sha1 (env w) buf;
                     img_size := length buf;
                     img_updated := clock (env w) (S (tick w));
                     img_last_url := u |}]> (images (mem w)).
Proof.
  intros Hu Hmiss Hf Hok Hb name dst Hw.
  unfold downloadFileCached. mprim. rewrite Hu. cbn [negb].
  assert (Hhit :
    (match cached_local (mem w) key with
     | Some local => exists_file (strip_dot_slash local)
     | None => ret false
     end) w = (Ok false, w)).
  { destruct Hmiss as [-> | (l & -> & Hl)]; [reflexivity|].
    now apply exists_file_absent. }
  mrun Hhit.
  set (w1 := logged (EvFetch u) (ticked w)).
  destruct (disk w !! dst) as [f|] eqn:Hd.
  - eexists. split.
    + erewrite try_catch_run.
      2:{ mrun (fetch_ok _ _ _ Hf). rewrite Hok. cbn [negb].
          rewrite Hb. cbn [of_sum]. rewrite bind_ret_l. mprim.
          erewrite bind_run
            by (apply exists_file_present;
                change (is_Some (disk w !! dst)); rewrite Hd; eauto).
          cbv beta iota. rewrite bind_ret_l. mprim. mprim. reflexivity. }
      reflexivity.
    + cbn. repeat split; reflexivity.
  - eexists. split.
    + erewrite try_catch_run.
      2:{ mrun (fetch_ok _ _ _ Hf). rewrite Hok. cbn [negb].
          rewrite Hb. cbn [of_sum]. rewrite bind_ret_l. mprim.
          erewrite bind_run by (apply exists_file_absent; exact Hd).
          cbv beta iota.
          erewrite bind_run by (apply write_file_ok; apply (Hw eq_refl)).
          cbv beta iota. mprim. mprim. reflexivity. }
      reflexivity.
    + cbn. repeat split; try reflexivity. now rewrite <- app_assoc.
Qed.

End AssetCache.

Lemma downloadFileCached_reuses_cached_file_witness :
  downloadFileCached "page:p1:cover"
    (Some "https://cdn.example/b/rotated.png?sig=2") "cover" Sample.w_cached
  = (Ok (Some "./images/cover-4f9be057f0ea.png"), Sample.w_cached).
Proof.
  apply (downloadFileCached_reuses_cached_file Sample.w_cached
           "page:p1:cover" _ "cover" Sample.cover_record).
  - vm_compute. reflexivity.
  - reflexivity.
  - vm_compute. eexists. reflexivity.
Defined.

Lemma downloadFileCached_returns_stale_path_witness :
  exists w',
    downloadFileCached "page:p1:cover"
      (Some "https://denied.example/a/cover.png") "cover" Sample.w_stale
    = (Ok (Some "./images/cover-4f9be057f0ea.png"), w')
    /\ mem w' = mem Sample.w_stale
    /\ images (mem w') !! "page:p1:cover" = Some Sample.cover_record
    /\ disk w' = disk Sample.w_stale
    /\ disk w' !! "images/cover-4f9be057f0ea.png" = None.
Proof.
  apply (downloadFileCached_returns_stale_path Sample.w_stale
           "page:p1:cover" _ "cover" Sample.cover_record).
  - vm_compute. reflexivity.
  - reflexivity.
  - vm_compute. reflexivity.
  - right. eexists. split; [reflexivity|]. split; [reflexivity|].
    right. eexists. split; reflexivity.
Defined.

(** After a download the file of the returned name is on disk. *)
Lemma download_leaves_file (d : gmap string File) dst buf :
  is_Some (match d !! dst with
           | Some _ => d
           | None => <[dst := FBytes buf]> d
           end !! dst).
Proof.
  destruct (d !! dst) as [f|] eqn:E.
  - rewrite E. eauto.
  - rewrite lookup_insert_eq. eauto.
Qed.

(** C5 (amended). The file of a download is named
    [<hint>-<first 12 digits of the hash of the bytes>.<extension>] and is
    written only when no file of that name exists. Two downloads of the
    same bytes under two different keys leave two records whose file
    names carry the same hash segment and whose [hash] fields are equal;
    when the hint and the extension are the same too, the names coincide
    and the second download writes nothing and leaves the disk as it is. *)
Theorem same_bytes_share_hash_segment w k1 k2 u1 u2 h1 h2 r1 r2 buf :
  k1 <> k2 ->
  images (mem w) !! k1 = None ->
  images (mem w) !! k2 = None ->
  Js.truthy u1 = true ->
  Js.truthy u2 = true ->
  net_fetch (env w) (tick w) u1 = inr r1 ->
  resp_ok r1 = true -> resp_body r1 = inr buf ->
  net_fetch (env w) (S (tick w)) u2 = inr r2 ->
  resp_ok r2 = true -> resp_body r2 = inr buf ->
  (forall t p, fs_write_ok (env w) t p = true) ->
  let seg := String.substring 0 12 (sha1 (env w) buf) in
  let n1 := h1 +:+ "-" +:+ seg +:+ "." +:+ safeExtFromUrl (env w) u1 "bin" in
  let n2 := h2 +:+ "-" +:+ seg +:+ "." +:+ safeExtFromUrl (env w) u2 "bin" in
  exists w1 w2,
    downloadFileCached k1 (Some u1) h1 w
      = (Ok (Some ("./images/" +:+ n1)), w1)
    /\ downloadFileCached k2 (Some u2) h2 w1
      = (Ok (Some ("./images/" +:+ n2)), w2)
    /\ img_local <$> images (mem w2) !! k1 = Some ("./images/" +:+ n1)
    /\ img_local <$> images (mem w2) !! k2 = Some ("./images/" +:+ n2)
    /\ img_hash <$> images (mem w2) !! k1
       = Some ("sha1:" +:+ sha1 (env w) buf)
    /\ img_hash <$> images (mem w2) !! k2
       = Some ("sha1:" +:+ sha1 (env w) buf)
    /\ trace w1 = trace w ++ EvFetch u1 ::
                    match disk w !! in_IMG_DIR n1 with
                    | Some _ => []
                    | None => [EvWrite (in_IMG_DIR n1)]
                    end
    /\ trace w2 = trace w1 ++ EvFetch u2 ::
                    match disk w1 !! in_IMG_DIR n2 with
                    | Some _ => []
                    | None => [EvWrite (in_IMG_DIR n2)]
                    end
    /\ (h1 = h2 ->
        safeExtFromUrl (env w) u1 "bin" = safeExtFromUrl (env w) u2 "bin" ->
        trace w2 = trace w1 ++ [EvFetch u2] /\ disk w2 = disk w1).
Proof.
  intros Hk Hk1 Hk2 Hu1 Hu2 Hf1 Hok1 Hb1 Hf2 Hok2 Hb2 Hw seg n1 n2.
  destruct (downloadFileCached_download w k1 u1 h1 r1 buf Hu1
              (or_introl (cached_local_none _ _ Hk1)) Hf1 Hok1 Hb1
              (fun _ => Hw _ _))
    as (w1 & E1 & Henv1 & Htick1 & Htr1 & Hd1 & _ & _ & _ & Him1).
  change (asset_name (env w) h1 u1 buf) with n1 in *.
  assert (Hmiss2 : cache_miss w1 k2).
  { left. apply cached_local_none. rewrite Him1.
    now rewrite lookup_insert_ne. }
  destruct (downloadFileCached_download w1 k2 u2 h2 r2 buf Hu2 Hmiss2)
    as (w2 & E2 & Henv2 & Htick2 & Htr2 & Hd2 & _ & _ & _ & Him2).
  { now rewrite Henv1, Htick1. }
  { exact Hok2. }
  { exact Hb2. }
  { intros _. rewrite Henv1. apply Hw. }
  rewrite Henv1 in *.
  change (asset_name (env w) h2 u2 buf) with n2 in *.
  exists w1, w2. split; [exact E1|]. split; [exact E2|].
  rewrite Him2, Him1.
  rewrite lookup_insert_eq, lookup_insert_ne, lookup_insert_eq by congruence.
  do 6 (split; [first [reflexivity | assumption]|]).
  intros Hh He.
  assert (Hn : n2 = n1) by (subst n1 n2; congruence).
  rewrite Hn in Hd2, Htr2.
  pose proof (download_leaves_file (disk w) (in_IMG_DIR n1) buf) as Hs.
  rewrite <- Hd1 in Hs. destruct Hs as [f Hs].
  rewrite Hs in Hd2, Htr2. now split.
Qed.

Lemma same_bytes_share_hash_segment_witness :
  exists w1 w2,
    downloadFileCached "page:p1:cover"
      (Some "https://cdn.example/a/pic.png?sig=1") "cover" Sample.w_empty
    = (Ok (Some "./images/cover-4f9be057f0ea.png"), w1)
    /\ downloadFileCached "page:p2:cover"
         (Some "https://cdn.example/b/pic.png?sig=2") "cover" w1
       = (Ok (Some "./images/cover-4f9be057f0ea.png"), w2)
    /\ trace w2 = trace w1 ++ [EvFetch "https://cdn.example/b/pic.png?sig=2"]
    /\ disk w2 = disk w1.
Proof.
  destruct (same_bytes_share_hash_segment Sample.w_empty
              "page:p1:cover" "page:p2:cover"
              "https://cdn.example/a/pic.png?sig=1"
              "https://cdn.example/b/pic.png?sig=2"
              "cover" "cover"
              (Sample.ok_response Sample.png) (Sample.ok_response Sample.png)
              Sample.png)
    as (w1 & w2 & E1 & E2 & _ & _ & _ & _ & _ & _ & Hsame);
    try reflexivity.
  - discriminate.
  - exists w1, w2. split; [exact E1|]. split; [exact E2|].
    apply Hsame; reflexivity.
Defined.

(** C5 as stated fails: the same bytes downloaded for a cover and for an
    image block are written twice, under two names that differ by their
    hint: the second download finds no file of its own name. *)
Lemma same_bytes_written_twice :
  let u := "https://cdn.example/a/pic.png" in
  let r1 := downloadFileCached "page:p1:cover" (Some u) "cover"
              Sample.w_empty in
  let r2 := downloadFileCached "block:b1:image" (Some u) "image" (snd r1) in
  fst r1 = Ok (Some "./images/cover-4f9be057f0ea.png")
  /\ fst r2 = Ok (Some "./images/image-4f9be057f0ea.png")
  /\ trace (snd r2)
     = [EvFetch u; EvWrite "images/cover-4f9be057f0ea.png";
        EvFetch u; EvWrite "images/image-4f9be057f0ea.png"]
  /\ disk (snd r2) !! "images/cover-4f9be057f0ea.png"
     = Some (FBytes Sample.png)
  /\ disk (snd r2) !! "images/image-4f9be057f0ea.png"
     = Some (FBytes Sample.png).
Proof. vm_compute. repeat split. Qed.

(** ** The retry executor *)

Section Retry.

Context {A : Type}.
Implicit Types (fn : M A) (w : World) (tries n : Z).

(** One iteration of the loop, by the outcome of the call. *)
Lemma withRetry_loop_step fuel fn tries n w :
  withRetry_loop (S fuel) fn tries n w =
  match fn w with
  | (Ok a, w') => (Ok a, w')
  | (Throw e, w') =>
      if (n + 1 >=? tries)%Z then (Throw e, w')
      else withRetry_loop fuel fn tries (n + 1)
             (logged (EvSleep (retry_wait (n + 1))) w')
  | (OutOfFuel, w') => (OutOfFuel, w')
  end.
Proof.
  simpl. unfold try_catch. destruct (fn w) as [[a|e|] w']; try reflexivity.
  destruct (n + 1 >=? tries)%Z; reflexivity.
Qed.

(** The loop does not depend on its fuel once it has what it can need:
    the [while (true)] of [withRetry] always ends. *)
Lemma withRetry_loop_fuel fn tries f1 :
  forall f2 n w,
    retry_need tries n <= f1 -> retry_need tries n <= f2 ->
    withRetry_loop f1 fn tries n w = withRetry_loop f2 fn tries n w.
Proof.
  unfold retry_need.
  induction f1 as [|f1 IH]; intros f2 n w H1 H2; [lia|].
  destruct f2 as [|f2]; [lia|].
  rewrite !withRetry_loop_step.
  destruct (fn w) as [[a|e|] w']; try reflexivity.
  destruct (n + 1 >=? tries)%Z eqn:E; [reflexivity|].
  rewrite Z.geb_leb in E. apply Z.leb_gt in E.
  apply IH; lia.
Qed.

Lemma withRetry_unfold fn tries fuel w :
  retry_need tries 0 <= fuel ->
  withRetry fn tries w = withRetry_loop fuel fn tries 0 w.
Proof.
  intros H. unfold withRetry. apply withRetry_loop_fuel; [|exact H].
  unfold retry_need. lia.
Qed.

(** A call that succeeds at once is not retried. *)
Lemma withRetry_ok fn tries w a w' :
  fn w = (Ok a, w') -> withRetry fn tries w = (Ok a, w').
Proof.
  intros H. unfold withRetry. rewrite withRetry_loop_step. now rewrite H.
Qed.

(** [withRetry] runs out of fuel only if the call itself does. *)
Lemma withRetry_loop_total fn tries fuel :
  forall n w w',
    retry_need tries n <= fuel ->
    withRetry_loop fuel fn tries n w = (OutOfFuel, w') ->
    exists w0, fn w0 = (OutOfFuel, w').
Proof.
  unfold retry_need.
  induction fuel as [|fuel IH]; intros n w w' Hf; [lia|].
  rewrite withRetry_loop_step.
  destruct (fn w) as [[a|e|] w1] eqn:E; try discriminate.
  - destruct (n + 1 >=? tries)%Z eqn:G; [discriminate|].
    rewrite Z.geb_leb in G. apply Z.leb_gt in G.
    apply IH. lia.
  - intros [= <-]. now exists w.
Qed.

(** C7 (amended). After the [n]-th failure, when it is not the last
    allowed attempt, [withRetry] sleeps [min(2500, 250 * 2^(n-1))]
    milliseconds and calls again; for the attempts 1 to 5 that formula
    gives 250, 500, 1000, 2000, 2500. With the default five tries the
    sleeps made are 250, 500, 1000 and 2000, after the first four
    failures, and the fifth failure is thrown to the caller as it is,
    leaving the world as the failed call left it: no sleep, no sixth
    attempt. *)
Theorem withRetry_backoff fn :
  (forall fuel tries n w e w',
      (n + 1 < tries)%Z ->
      fn w = (Throw e, w') ->
      withRetry_loop (S fuel) fn tries n w
      = withRetry_loop fuel fn tries (n + 1)
          (logged (EvSleep (Z.min 2500 (250 * 2 ^ ((n + 1) - 1)))) w'))
  /\ map retry_wait [1; 2; 3; 4; 5]%Z = [250; 500; 1000; 2000; 2500]%Z
  /\ (forall w e1 w1 e2 w2 e3 w3 e4 w4 e5 w5,
        fn w = (Throw e1, w1) ->
        fn (logged (EvSleep 250) w1) = (Throw e2, w2) ->
        fn (logged (EvSleep 500) w2) = (Throw e3, w3) ->
        fn (logged (EvSleep 1000) w3) = (Throw e4, w4) ->
        fn (logged (EvSleep 2000) w4) = (Throw e5, w5) ->
        withRetry fn 5 w = (Throw e5, w5)).
Proof.
  split; [|split].
  - intros fuel tries n w e w' Hn Hf.
    rewrite withRetry_loop_step, Hf.
    replace (n + 1 >=? tries)%Z with false; [reflexivity|].
    symmetry. rewrite Z.geb_leb. apply Z.leb_gt. exact Hn.
  - reflexivity.
  - intros w e1 w1 e2 w2 e3 w3 e4 w4 e5 w5 H1 H2 H3 H4 H5.
    unfold withRetry. change (Z.to_nat 5) with 5%nat.
    rewrite withRetry_loop_step, H1.
    change (0 + 1 >=? 5)%Z with false. cbv iota.
    change (retry_wait (0 + 1)) with 250%Z. change (0 + 1)%Z with 1%Z.
    rewrite withRetry_loop_step, H2.
    change (1 + 1 >=? 5)%Z with false. cbv iota.
    change (retry_wait (1 + 1)) with 500%Z. change (1 + 1)%Z with 2%Z.
    rewrite withRetry_loop_step, H3.
    change (2 + 1 >=? 5)%Z with false. cbv iota.
    change (retry_wait (2 + 1)) with 1000%Z. change (2 + 1)%Z with 3%Z.
    rewrite withRetry_loop_step, H4.
    change (3 + 1 >=? 5)%Z with false. cbv iota.
    change (retry_wait (3 + 1)) with 2000%Z. change (3 + 1)%Z with 4%Z.
    rewrite withRetry_loop_step, H5. reflexivity.
Qed.

End Retry.

Lemma withRetry_backoff_witness :
  fst (withRetry (pages_retrieve "p") 5 Sample.w_down)
  = Throw (ErrApi "rate limited, call 4")
  /\ trace (snd (withRetry (pages_retrieve "p") 5 Sample.w_down))
     = [EvPagesRetrieve "p"; EvSleep 250;
        EvPagesRetrieve "p"; EvSleep 500;
        EvPagesRetrieve "p"; EvSleep 1000;
        EvPagesRetrieve "p"; EvSleep 2000;
        EvPagesRetrieve "p"].
Proof.
  pose (fn := pages_retrieve "p").
  pose (w1 := snd (fn Sample.w_down)).
  pose (w2 := snd (fn (logged (EvSleep 250) w1))).
  pose (w3 := snd (fn (logged (EvSleep 500) w2))).
  pose (w4 := snd (fn (logged (EvSleep 1000) w3))).
  pose (w5 := snd (fn (logged (EvSleep 2000) w4))).
  assert (H : withRetry fn 5 Sample.w_down
              = (Throw (ErrApi "rate limited, call 4"), w5)).
  { apply (proj2 (proj2 (withRetry_backoff fn)) Sample.w_down
             (ErrApi "rate limited, call 0") w1
             (ErrApi "rate limited, call 1") w2
             (ErrApi "rate limited, call 2") w3
             (ErrApi "rate limited, call 3") w4);
      vm_compute; reflexivity. }
  fold fn. rewrite H. split; [reflexivity|vm_compute; reflexivity].
Defined.

(** C7 as stated fails: the fifth value of the delay formula is 2500, not
    2000, since the cap is 2500; and a run of five failing attempts
    sleeps four times, not five. *)
Lemma withRetry_delays_not_as_stated :
  map retry_wait [1; 2; 3; 4; 5]%Z <> [250; 500; 1000; 2000; 2000]%Z
  /\ trace (snd (withRetry (pages_retrieve "p") 5 Sample.w_down))
     = [EvPagesRetrieve "p"; EvSleep 250;
        EvPagesRetrieve "p"; EvSleep 500;
        EvPagesRetrieve "p"; EvSleep 1000;
        EvPagesRetrieve "p"; EvSleep 2000;
        EvPagesRetrieve "p"].
Proof. split; [discriminate | vm_compute; reflexivity]. Qed.

(** In the earlier copy of the script the formula does give 2000 for the
    fifth attempt; there too the fifth failure is thrown before any
    sleep. *)
Lemma retry_wait_earlier_values :
  map retry_wait_earlier [1; 2; 3; 4; 5]%Z = [250; 500; 1000; 2000; 2000]%Z.
Proof. reflexivity. Qed.

(** ** The identifier normalizer *)

Section Normalizer.

Implicit Types (l m pre post : list ascii) (n : nat).

Lemma hex_run_at_true n l :
  Js.hex_run_at n l = true <-> hex_run n (firstn n l).
Proof.
  unfold Js.hex_run_at, hex_run.
  rewrite andb_true_iff, Nat.eqb_eq. reflexivity.
Qed.

Lemma firstn_occurrence n m post : length m = n -> firstn n (m ++ post) = m.
Proof.
  intros <-. rewrite firstn_app, Nat.sub_diag, firstn_all. simpl.
  apply app_nil_r.
Qed.

Lemma hex_run_at_head n m post :
  hex_run n m -> Js.hex_run_at n (m ++ post) = true.
Proof.
  intros [Hl Hh]. apply hex_run_at_true.
  rewrite (firstn_occurrence n m post Hl). now split.
Qed.

Lemma match_hex_leftmost n l m :
  Js.match_hex n l = Some m -> leftmost_hex_run n m l.
Proof.
  revert m. induction l as [|a t IH]; intros m; simpl.
  - destruct (Js.hex_run_at n []) eqn:E; [|discriminate].
    intros [= <-]. exists []. apply hex_run_at_true in E. split; [|split].
    + exists []. simpl. now rewrite app_nil_r, firstn_nil.
    + exact E.
    + intros. simpl. lia.
  - destruct (Js.hex_run_at n (a :: t)) eqn:E.
    + intros [= <-]. exists []. apply hex_run_at_true in E. split; [|split].
      * exists (skipn n (a :: t)). simpl. symmetry. apply firstn_skipn.
      * exact E.
      * intros. simpl. lia.
    + intros H. destruct (IH m H) as (pre & [post Ho] & Hr & Hmin).
      exists (a :: pre). split; [|split].
      * exists post. simpl. now rewrite Ho.
      * exact Hr.
      * intros pre' m' [post' Ho'] Hr'. destruct pre' as [|b p].
        -- simpl in Ho'. rewrite Ho', (hex_run_at_head n m' post' Hr') in E.
           discriminate.
        -- simpl in Ho'. injection Ho' as -> Ht. simpl.
           apply le_n_S. apply (Hmin p m'); [now exists post'|exact Hr'].
Qed.

Lemma match_hex_none n l :
  Js.match_hex n l = None -> ~ has_hex_run n l.
Proof.
  induction l as [|a t IH]; simpl.
  - destruct (Js.hex_run_at n []) eqn:E; [discriminate|].
    intros _ (pre & m & [post Ho] & Hr).
    destruct pre; [|discriminate]. simpl in Ho.
    rewrite Ho, (hex_run_at_head n m post Hr) in E. discriminate.
  - destruct (Js.hex_run_at n (a :: t)) eqn:E; [discriminate|].
    intros H (pre & m & [post Ho] & Hr). destruct pre as [|b p].
    + simpl in Ho. rewrite Ho, (hex_run_at_head n m post Hr) in E.
      discriminate.
    + simpl in Ho. injection Ho as -> Ht.
      apply (IH H). exists p, m. split; [now exists post|exact Hr].
Qed.

Lemma leftmost_hex_run_unique n l m m' :
  leftmost_hex_run n m l -> leftmost_hex_run n m' l -> m = m'.
Proof.
  intros (pre & [post Ho] & Hr & Hmin) (pre' & [post' Ho'] & Hr' & Hmin').
  assert (Hlen : length pre = length pre').
  { apply Nat.le_antisymm.
    - apply (Hmin pre' m'); [now exists post'|exact Hr'].
    - apply (Hmin' pre m); [now exists post|exact Hr]. }
  rewrite Ho in Ho'.
  apply app_inj_1 in Ho' as [_ Ho']; [|exact Hlen].
  apply app_inj_1 in Ho' as [Hm _]; [exact Hm|].
  destruct Hr as [-> _]. now destruct Hr' as [-> _].
Qed.

Lemma match_hex_of_leftmost n l m :
  leftmost_hex_run n m l -> Js.match_hex n l = Some m.
Proof.
  intros H. destruct (Js.match_hex n l) as [m0|] eqn:E.
  - f_equal. apply (leftmost_hex_run_unique n l); [|exact H].
    now apply match_hex_leftmost.
  - exfalso. apply (match_hex_none n l E).
    destruct H as (pre & Ho & Hr & _). now exists pre, m.
Qed.

(** White space is no hexadecimal digit. *)
Lemma ws_not_hex c : Js.is_ws c = true -> Js.is_hex c = false.
Proof.
  unfold Js.is_ws, Js.is_hex. intros H.
  apply orb_true_iff in H as [H|H]; [apply orb_true_iff in H as [H|H]|].
  - apply Nat.eqb_eq in H. now rewrite H.
  - apply Nat.eqb_eq in H. now rewrite H.
  - apply andb_true_iff in H as [H1 H2].
    apply Nat.leb_le in H1, H2.
    repeat match goal with
           | |- context [Nat.leb ?a ?b] =>
               let E := fresh in
               destruct (Nat.leb a b) eqn:E;
               [apply Nat.leb_le in E | apply Nat.leb_gt in E]
           end; simpl; try reflexivity; lia.
Qed.

Lemma hex_run_at_ws n c l :
  0 < n -> Js.is_ws c = true -> Js.hex_run_at n (c :: l) = false.
Proof.
  intros Hn Hc. destruct n as [|n]; [lia|].
  unfold Js.hex_run_at. simpl. rewrite (ws_not_hex c Hc). simpl.
  apply andb_false_r.
Qed.

Lemma match_hex_trim_left n l :
  0 < n -> Js.match_hex n (Js.trim_left l) = Js.match_hex n l.
Proof.
  intros Hn. induction l as [|a t IH]; [reflexivity|].
  simpl Js.trim_left. destruct (Js.is_ws a) eqn:E; [|reflexivity].
  rewrite IH. simpl. now rewrite (hex_run_at_ws n a t Hn E).
Qed.

(** What [trim_left] removes is white space. *)
Lemma trim_left_split l :
  exists ws, l = ws ++ Js.trim_left l /\ forallb Js.is_ws ws = true.
Proof.
  induction l as [|a t (ws & Ht & Hws)].
  - now exists [].
  - simpl. destruct (Js.is_ws a) eqn:E.
    + exists (a :: ws). simpl. rewrite E, Hws. split; [now f_equal|easy].
    + now exists [].
Qed.

Lemma hex_run_at_ws_suffix n l ws :
  forallb Js.is_ws ws = true ->
  Js.hex_run_at n (l ++ ws) = Js.hex_run_at n l.
Proof.
  intros Hws. unfold Js.hex_run_at.
  destruct (Nat.le_gt_cases n (length l)) as [Hle|Hgt].
  - rewrite firstn_app.
    replace (n - length l) with 0 by lia. simpl. now rewrite app_nil_r.
  - rewrite firstn_app, (firstn_all2 (n:=n) l) by lia.
    replace (Nat.eqb (length l) n) with false
      by (symmetry; apply Nat.eqb_neq; lia).
    simpl. destruct ws as [|c ws'].
    + rewrite firstn_nil, app_nil_r.
      apply andb_false_intro1. apply Nat.eqb_neq. lia.
    + destruct (n - length l) as [|k] eqn:Ek; [lia|]. simpl.
      simpl in Hws. apply andb_true_iff in Hws as [Hc _].
      rewrite forallb_app. simpl. rewrite (ws_not_hex c Hc). simpl.
      rewrite andb_false_r. apply andb_false_r.
Qed.

Lemma match_hex_ws_suffix n l ws :
  0 < n -> forallb Js.is_ws ws = true ->
  Js.match_hex n (l ++ ws) = Js.match_hex n l.
Proof.
  intros Hn Hws. induction l as [|a t IH].
  - simpl app. induction ws as [|c r IHr].
    + reflexivity.
    + simpl in Hws. apply andb_true_iff in Hws as [Hc Hr].
      simpl. rewrite (hex_run_at_ws n c r Hn Hc), (IHr Hr).
      unfold Js.match_hex. destruct n; [lia|]. reflexivity.
  - change ((a :: t) ++ ws) with (a :: (t ++ ws)). simpl.
    change (a :: (t ++ ws)) with ((a :: t) ++ ws).
    rewrite (hex_run_at_ws_suffix n (a :: t) ws Hws), IH.
    destruct (Js.hex_run_at n (a :: t)) eqn:E; [|reflexivity].
    f_equal. apply hex_run_at_true in E. destruct E as [E _].
    rewrite firstn_app.
    rewrite length_take in E.
    replace (n - length (a :: t)) with 0 by lia.
    simpl. now rewrite app_nil_r.
Qed.

(** Trimming does not change what the pattern finds. *)
Lemma match_hex_trim n l :
  0 < n -> Js.match_hex n (Js.trim l) = Js.match_hex n l.
Proof.
  intros Hn. rewrite <- (match_hex_trim_left n l Hn).
  set (l1 := Js.trim_left l). unfold Js.trim. fold l1.
  destruct (trim_left_split (rev l1)) as (ws & Hsplit & Hws).
  assert (Hl1 : l1 = rev (Js.trim_left (rev l1)) ++ rev ws).
  { rewrite <- rev_app_distr, <- Hsplit. symmetry. apply rev_involutive. }
  rewrite Hl1 at 2. symmetry. apply match_hex_ws_suffix; [exact Hn|].
  rewrite forallb_forall in *. intros c Hc. apply Hws.
  now apply in_rev.
Qed.

Lemma normalizeId_unfold input :
  normalizeId input =
  let s := Js.trim (Js.chars input) in
  let raw := match Js.match_hex 32 s with
             | Some m => m
             | None => Js.strip_hyphens s
             end in
  if Nat.eqb (length raw) 32 then Some (Js.str (Js.lower raw)) else None.
Proof.
  unfold normalizeId. destruct input as [|c r]; reflexivity.
Qed.

(** C8 (amended). [normalizeId] first trims the input. If the input has a
    run of 32 hexadecimal characters, the result is the leftmost such run
    in lower case. If it has none, the trimmed input without its hyphens
    is returned in lower case when it is exactly 32 hexadecimal
    characters, and the result is [null] when its length is not 32. *)
Theorem normalizeId_cases input :
  (forall m, leftmost_hex_run 32 m (Js.chars input) ->
             normalizeId input = Some (Js.str (Js.lower m)))
  /\ (~ has_hex_run 32 (Js.chars input) ->
      let r := Js.strip_hyphens (Js.trim (Js.chars input)) in
      (hex_run 32 r -> normalizeId input = Some (Js.str (Js.lower r)))
      /\ (length r <> 32 -> normalizeId input = None)).
Proof.
  rewrite normalizeId_unfold. cbv zeta.
  rewrite (match_hex_trim 32) by lia. split.
  - intros m Hm. rewrite (match_hex_of_leftmost 32 _ m Hm).
    destruct Hm as (_ & _ & [-> _] & _). reflexivity.
  - intros Hno.
    destruct (Js.match_hex 32 (Js.chars input)) as [m|] eqn:E.
    + exfalso. apply Hno. apply match_hex_leftmost in E.
      destruct E as (pre & Ho & Hr & _). now exists pre, m.
    + split.
      * intros [-> _]. reflexivity.
      * intros Hlen. apply Nat.eqb_neq in Hlen. now rewrite Hlen.
Qed.

Lemma normalizeId_cases_witness :
  normalizeId
    "https://www.notion.so/ws/Title-0123456789ABCDEF0123456789abcdef?v=1"
  = Some "0123456789abcdef0123456789abcdef"
  /\ normalizeId "01234567-89ab-cdef-0123-456789abcdef"
     = Some "0123456789abcdef0123456789abcdef"
  /\ normalizeId "not-an-id" = None.
Proof.
  split; [|split].
  - apply (proj1 (normalizeId_cases _)
             (Js.chars "0123456789ABCDEF0123456789abcdef")).
    apply match_hex_leftmost. vm_compute. reflexivity.
  - apply (proj2 (normalizeId_cases
                    "01234567-89ab-cdef-0123-456789abcdef")).
    + apply match_hex_none. vm_compute. reflexivity.
    + split; vm_compute; reflexivity.
  - apply (proj2 (normalizeId_cases "not-an-id")).
    + apply match_hex_none. vm_compute. reflexivity.
    + vm_compute. discriminate.
Defined.

(** C8 as stated fails on two inputs. A dashed id with a leading blank has
    no 32-hex substring and is not 32 hexadecimal characters once its
    hyphens are removed, yet it is accepted, because the code trims first.
    And 32 characters that are not hexadecimal are accepted, because the
    code only checks the length of what is left without the hyphens. *)
Lemma normalizeId_not_as_stated :
  (normalizeId " 01234567-89ab-cdef-0123-456789abcdef"
   = Some "0123456789abcdef0123456789abcdef"
   /\ normalizeId_spec " 01234567-89ab-cdef-0123-456789abcdef" = None)
  /\ (normalizeId "zzzzzzzz-zzzz-zzzz-zzzz-zzzzzzzzzzzz"
      = Some "zzzzzzzzzzzzzzzzzzzzzzzzzzzzzzzz"
      /\ normalizeId_spec "zzzzzzzz-zzzz-zzzz-zzzz-zzzzzzzzzzzz" = None).
Proof. vm_compute. repeat split. Qed.

End Normalizer.

(** ** Frame properties

    A relation between the world before and the world after that every
    primitive effect of a function respects is respected by the function.
    The lemmas are proved once, for any such preorder, and instantiated
    with what stays untouched on disk and with what may appear in the log
    of effects. *)

Section Combinators.

Variable R : World -> World -> Prop.
Context `{!PreOrder R}.

Lemma preserves_ret {A} (a : A) : preserves R (ret a).
Proof. intros w. reflexivity. Qed.

Lemma preserves_throw {A} e : preserves R (@throw A e).
Proof. intros w. reflexivity. Qed.

Lemma preserves_out_of_fuel {A} : preserves R (@out_of_fuel A).
Proof. intros w. reflexivity. Qed.

Lemma preserves_pure {A} (m : M A) :
  (forall w, snd (m w) = w) -> preserves R m.
Proof. intros H w. rewrite H. reflexivity. Qed.

Lemma preserves_bind {A B} (m : M A) (k : A -> M B) :
  preserves R m -> (forall a, preserves R (k a)) -> preserves R (bind m k).
Proof.
  intros Hm Hk w. unfold bind. specialize (Hm w).
  destruct (m w) as [[a|e|] w1]; simpl in *; try exact Hm.
  etransitivity; [exact Hm|apply Hk].
Qed.

Lemma preserves_try_catch {A} (m : M A) h :
  preserves R m -> (forall e, preserves R (h e)) ->
  preserves R (try_catch m h).
Proof.
  intros Hm Hh w. unfold try_catch. specialize (Hm w).
  destruct (m w) as [[a|e|] w1]; simpl in *; try exact Hm.
  etransitivity; [exact Hm|apply Hh].
Qed.

Lemma preserves_of_sum {A} (r : Err + A) : preserves R (of_sum r).
Proof. destruct r; [apply preserves_throw|apply preserves_ret]. Qed.

Lemma preserves_for_each {A B} (f : A -> M B) xs :
  (forall x, preserves R (f x)) -> preserves R (for_each f xs).
Proof.
  intros Hf. induction xs as [|x r IH]; simpl.
  - apply preserves_ret.
  - apply preserves_bind; [apply Hf|]. intros y.
    apply preserves_bind; [exact IH|]. intros ys. apply preserves_ret.
Qed.

Lemma preserves_for_each_i {A B} (f : nat -> A -> M B) xs :
  (forall i x, preserves R (f i x)) ->
  forall i, preserves R (for_each_i f i xs).
Proof.
  intros Hf. induction xs as [|x r IH]; intros i; simpl.
  - apply preserves_ret.
  - apply preserves_bind; [apply Hf|]. intros y.
    apply preserves_bind; [apply IH|]. intros ys. apply preserves_ret.
Qed.

Lemma preserves_get_mem : preserves R get_mem.
Proof. now apply preserves_pure. Qed.

Lemma preserves_get_env : preserves R get_env.
Proof. now apply preserves_pure. Qed.

Lemma preserves_get_now : preserves R get_now.
Proof. now apply preserves_pure. Qed.

Lemma preserves_exists_file path : preserves R (exists_file path).
Proof. now apply preserves_pure. Qed.

Lemma preserves_loadState : preserves R loadState.
Proof.
  apply preserves_pure. intros w. unfold loadState.
  destruct (disk w !! STATE_F) as [[]|]; reflexivity.
Qed.

Lemma preserves_loadSnapshot outFile : preserves R (loadSnapshot outFile).
Proof.
  apply preserves_pure. intros w. unfold loadSnapshot.
  destruct (disk w !! outFile) as [[]|]; reflexivity.
Qed.

Hypothesis R_sleep : forall ms, preserves R (sleep ms).

Lemma preserves_withRetry_loop {A} (fn : M A) tries fuel :
  preserves R fn -> forall n, preserves R (withRetry_loop fuel fn tries n).
Proof.
  intros Hfn. induction fuel as [|fuel IH]; intros n; simpl.
  - apply preserves_out_of_fuel.
  - apply preserves_try_catch; [exact Hfn|]. intros e.
    destruct (n + 1 >=? tries)%Z; [apply preserves_throw|].
    apply preserves_bind; [apply R_sleep|]. intros _. apply IH.
Qed.

Lemma preserves_withRetry {A} (fn : M A) tries :
  preserves R fn -> preserves R (withRetry fn tries).
Proof. intros H. now apply preserves_withRetry_loop. Qed.

Lemma preserves_paginate {A} (call : option string -> M (Listing A)) fuel :
  (forall c, preserves R (call c)) ->
  forall cursor all, preserves R (paginate fuel call cursor all).
Proof.
  intros Hc. induction fuel as [|fuel IH]; intros cursor all; simpl.
  - apply preserves_out_of_fuel.
  - apply preserves_bind; [apply preserves_withRetry, Hc|]. intros res.
    destruct (negb (has_more res)); [apply preserves_ret|apply IH].
Qed.

End Combinators.

(** Establishes [preserves] goals by following the structure of the
    code. *)
Ltac preserve :=
  repeat match goal with
    | |- preserves ?R (ret _) => apply (@preserves_ret R _)
    | |- preserves ?R (throw _) => apply (@preserves_throw R _)
    | |- preserves ?R out_of_fuel => apply (@preserves_out_of_fuel R _)
    | |- preserves ?R get_mem => apply (@preserves_get_mem R _)
    | |- preserves ?R get_env => apply (@preserves_get_env R _)
    | |- preserves ?R get_now => apply (@preserves_get_now R _)
    | |- preserves ?R (exists_file _) => apply (@preserves_exists_file R _)
    | |- preserves ?R loadState => apply (@preserves_loadState R _)
    | |- preserves ?R (loadSnapshot _) =>
        apply (@preserves_loadSnapshot R _)
    | |- preserves ?R (of_sum _) => apply (@preserves_of_sum R _)
    | |- preserves ?R (bind _ _) =>
        apply (@preserves_bind R _); [|intros ?]
    | |- preserves ?R (try_catch _ _) =>
        apply (@preserves_try_catch R _); [|intros ?]
    | |- preserves ?R (withRetry _ _) =>
        apply (@preserves_withRetry R _); [assumption|]
    | |- preserves ?R (paginate _ _ _ _) =>
        apply (@preserves_paginate R _); [assumption|intros ?]
    | |- preserves ?R (for_each _ _) =>
        apply (@preserves_for_each R _); intros ?
    | |- preserves ?R (for_each_i _ _ _) =>
        apply (@preserves_for_each_i R _); intros ? ?
    | |- preserves _ (if ?b then _ else _) => destruct b
    | |- preserves _ (match ?x with _ => _ end) => destruct x
    | H : _ |- preserves _ _ => solve [apply H]
    end.

Section Frame.

Variable R : World -> World -> Prop.
Context `{!PreOrder R}.

Hypothesis R_sleep : forall ms, preserves R (sleep ms).
Hypothesis R_fetch : forall u, preserves R (fetch u).
Hypothesis R_write_image :
  forall name f, preserves R (write_file (in_IMG_DIR name) f).
Hypothesis R_set_image : forall key rec, preserves R (set_image key rec).
Hypothesis R_blocks :
  forall id c, preserves R (blocks_children_list id c).

Lemma preserves_downloadFileCached key url hint :
  preserves R (downloadFileCached key url hint).
Proof. unfold downloadFileCached. preserve. Qed.

Lemma preserves_listBlocks fuel :
  forall blockId, preserves R (listBlocks fuel blockId).
Proof.
  induction fuel as [|fuel IH]; intros blockId; simpl; preserve;
    apply preserves_downloadFileCached.
Qed.

Hypothesis R_pages : forall id, preserves R (pages_retrieve id).
Hypothesis R_write_out :
  forall name f, preserves R (write_file (in_OUT_DIR name) f).
Hypothesis R_set_page : forall id ps, preserves R (set_page id ps).
Hypothesis R_set_dbItem : forall id t, preserves R (set_dbItem id t).

Lemma preserves_fetchChangedPage fuel pageId aliasOut prev meta :
  preserves R (fetchChangedPage fuel pageId aliasOut prev meta).
Proof.
  unfold fetchChangedPage. preserve;
    first [apply preserves_listBlocks | apply preserves_downloadFileCached].
Qed.

Lemma preserves_fetchPageIfChanged fuel pageId aliasOut :
  preserves R (fetchPageIfChanged fuel pageId aliasOut).
Proof.
  unfold fetchPageIfChanged. preserve. apply preserves_fetchChangedPage.
Qed.

(** The queries the relation tolerates, by database and filter. *)
Variable query_allowed : string -> option Filter -> Prop.
Hypothesis R_query :
  forall db c f, query_allowed db f -> preserves R (databases_query db c f).

Lemma preserves_queryDatabaseIncremental fuel db since :
  query_allowed db (since_filter since) ->
  preserves R (queryDatabaseIncremental fuel db since).
Proof.
  intros H. unfold queryDatabaseIncremental. preserve. now apply R_query.
Qed.

Lemma preserves_fullIdsInDatabase fuel db :
  query_allowed db None -> preserves R (fullIdsInDatabase fuel db).
Proof.
  intros H. unfold fullIdsInDatabase. preserve. now apply R_query.
Qed.

Lemma preserves_syncPropFiles rowId propName files :
  preserves R (syncPropFiles rowId propName files).
Proof.
  unfold syncPropFiles. preserve. apply preserves_downloadFileCached.
Qed.

Lemma preserves_syncRow fuel fb p : preserves R (syncRow fuel fb p).
Proof.
  unfold syncRow. preserve;
    first [ apply preserves_downloadFileCached
          | apply preserves_syncPropFiles
          | apply preserves_listBlocks ].
Qed.

Lemma preserves_upsertRows fuel fb rows :
  forall byId, preserves R (upsertRows fuel fb rows byId).
Proof.
  induction rows as [|p rest IH]; intros byId; simpl; preserve.
  apply preserves_syncRow.
Qed.

Lemma preserves_syncDatabase fuel db outName options :
  (if fullMode options
   then query_allowed db None
   else query_allowed db (since_filter (sinceISO options))) ->
  preserves R (syncDatabase fuel db outName options).
Proof.
  intros Hq. unfold syncDatabase.
  apply (@preserves_bind R _).
  { apply preserves_queryDatabaseIncremental.
    destruct (fullMode options); exact Hq. }
  intros changed.
  destruct (fullMode options); preserve;
    first [ apply preserves_upsertRows
          | now apply preserves_fullIdsInDatabase ].
Qed.

Hypothesis R_put_mem : forall s, preserves R (put_mem s).

Lemma preserves_page_step fuel id aliasOut :
  preserves R (page_step fuel id aliasOut).
Proof.
  unfold page_step. preserve. apply preserves_fetchPageIfChanged.
Qed.

Lemma preserves_db_step fuel id outName options :
  (forall db, if fullMode options
              then query_allowed db None
              else query_allowed db (since_filter (sinceISO options))) ->
  preserves R (db_step fuel id outName options).
Proof.
  intros Hq. unfold db_step. preserve. apply preserves_syncDatabase, Hq.
Qed.

End Frame.

(** ** Two frame relations: a file left alone, and the log of effects *)

#[local] Instance untouched_preorder path : PreOrder (untouched path).
Proof.
  split.
  - intros w. reflexivity.
  - intros w1 w2 w3 H12 H23. unfold untouched in *. congruence.
Qed.

#[local] Instance logs_preorder Q : PreOrder (logs Q).
Proof.
  split.
  - intros w. exists []. split; [now rewrite app_nil_r|constructor].
  - intros w1 w2 w3 (e1 & H1 & Q1) (e2 & H2 & Q2).
    exists (e1 ++ e2). split.
    + now rewrite H2, H1, app_assoc.
    + apply Forall_app. now split.
Qed.

#[local] Instance and_preorder (R1 R2 : World -> World -> Prop) :
  PreOrder R1 -> PreOrder R2 -> PreOrder (fun w w' => R1 w w' /\ R2 w w').
Proof.
  intros P1 P2. split.
  - intros w. split; reflexivity.
  - intros w1 w2 w3 [A1 A2] [B1 B2]. split; etransitivity; eassumption.
Qed.

Lemma logs_one Q e w : Q e -> logs Q w (logged e w).
Proof. intros H. exists [e]. split; [reflexivity|]. now constructor. Qed.

Lemma logs_none Q w w' : trace w' = trace w -> logs Q w w'.
Proof.
  intros H. exists []. split; [now rewrite app_nil_r|constructor].
Qed.

Section Untouched.

Variable path : string.
Hypothesis not_image : forall name, in_IMG_DIR name <> path.
Hypothesis not_out : forall name, in_OUT_DIR name <> path.

Lemma untouched_write p f :
  p <> path -> preserves (untouched path) (write_file p f).
Proof.
  intros Hp w. unfold write_file, untouched.
  destruct (fs_write_ok _ _ _); simpl; [|reflexivity].
  now apply lookup_insert_ne.
Qed.

(** A primitive other than a write to [path] leaves [path] alone. *)
Ltac untouched_prim :=
  intros;
  first
    [ now apply untouched_write
    | let w := fresh "w" in
      intro w;
      unfold untouched, fetch, pages_retrieve, blocks_children_list,
        databases_query;
      cbn;
      try match goal with |- context [of_sum ?r] => destruct r end;
      reflexivity ].

Lemma untouched_page_step fuel id aliasOut :
  preserves (untouched path) (page_step fuel id aliasOut).
Proof. apply (preserves_page_step (untouched path)); untouched_prim. Qed.

Lemma untouched_db_step fuel id outName options :
  preserves (untouched path) (db_step fuel id outName options).
Proof.
  apply (preserves_db_step (untouched path))
    with (query_allowed := fun _ _ => True);
    try untouched_prim.
  intros. now destruct (fullMode options).
Qed.

Lemma untouched_syncResources fuel cfg flags :
  preserves (untouched path) (syncResources fuel cfg flags).
Proof.
  unfold syncResources. preserve;
    first [ apply untouched_page_step | apply untouched_db_step
          | untouched_prim ].
Qed.

End Untouched.

Section Logs.

Variable Q : Event -> Prop.
Variable query_allowed : string -> option Filter -> Prop.
Hypothesis HQ : tolerant Q query_allowed.

Lemma logs_write p f : Q (EvWrite p) -> preserves (logs Q) (write_file p f).
Proof.
  intros Hp w. unfold write_file.
  destruct (fs_write_ok _ _ _); simpl; now apply logs_one.
Qed.

Lemma logs_api {A} (r : Err + A) e w :
  Q e -> logs Q w (snd (of_sum r (logged e (ticked w)))).
Proof. intros He. destruct r; simpl; now apply (logs_one Q e (ticked w)). Qed.

Lemma logs_page_step fuel id aliasOut :
  preserves (logs Q) (page_step fuel id aliasOut).
Proof.
  apply (preserves_page_step (logs Q)).
  - intros ms w. apply logs_one, HQ.
  - intros u w. apply logs_api, HQ.
  - intros. apply logs_write, HQ.
  - intros key rec w. now apply logs_none.
  - intros i c w. apply logs_api, HQ.
  - intros i w. apply logs_api, HQ.
  - intros. apply logs_write, HQ.
  - intros i ps w. now apply logs_none.
Qed.

Lemma logs_db_step fuel id outName options :
  (forall db, if fullMode options
              then query_allowed db None
              else query_allowed db (since_filter (sinceISO options))) ->
  preserves (logs Q) (db_step fuel id outName options).
Proof.
  apply (preserves_db_step (logs Q)).
  - intros ms w. apply logs_one, HQ.
  - intros u w. apply logs_api, HQ.
  - intros. apply logs_write, HQ.
  - intros key rec w. now apply logs_none.
  - intros i c w. apply logs_api, HQ.
  - intros. apply logs_write, HQ.
  - intros i t w. now apply logs_none.
  - intros db c f Hf w. apply logs_api. now apply HQ.
Qed.

End Logs.

(** ** The run as a whole *)

Lemma in_IMG_DIR_not_state name : in_IMG_DIR name <> STATE_F.
Proof. discriminate. Qed.

Lemma in_OUT_DIR_not_state name : in_OUT_DIR name <> STATE_F.
Proof. discriminate. Qed.

Lemma tolerant_not_state_write :
  tolerant not_state_write (fun _ _ => True).
Proof. split; intros; discriminate. Qed.

Lemma tolerant_queries_since since :
  tolerant (queries_since since)
           (fun _ f => f = Some (LastEditedOnOrAfter since)).
Proof. split; simpl; intros; auto. Qed.

Lemma loadState_run w : loadState w = (Ok (stored_state (disk w)), w).
Proof.
  unfold loadState, stored_state.
  destruct (disk w !! STATE_F) as [[]|]; reflexivity.
Qed.

(** The log of the syncs of a run, given the state the run loads. *)
Lemma logs_syncResources Q query_allowed fuel cfg flags w :
  tolerant Q query_allowed ->
  (let state := stored_state (disk w) in
   forall db,
     if (FULL_RECONCILE flags
         || negb (bool_decide (is_Some (lastSyncISO state))))%bool
     then query_allowed db None
     else query_allowed db
            (since_filter (isoMinusMinutes (lastSyncISO state) 2))) ->
  logs Q w (snd (syncResources fuel cfg flags w)).
Proof.
  intros HQ Hq. unfold syncResources.
  rewrite (bind_run _ _ _ _ _ (loadState_run w)). cbv beta iota.
  set (state := stored_state (disk w)) in *. cbv zeta in Hq.
  set (full := (FULL_RECONCILE flags || _)%bool) in *.
  match goal with
  | |- logs Q w (snd (?m w)) => enough (preserves (logs Q) m) by auto
  end.
  preserve.
  - intros w0. now apply logs_none.
  - now apply (logs_page_step Q query_allowed).
  - now apply (logs_page_step Q query_allowed).
  - now apply (logs_page_step Q query_allowed).
  - apply (logs_db_step Q query_allowed); [exact HQ|].
    intros db. specialize (Hq db). simpl. now destruct full.
  - apply (logs_db_step Q query_allowed); [exact HQ|].
    intros db. specialize (Hq db). simpl. now destruct full.
Qed.

Lemma Forall_not_in {A} (x : A) l : Forall (fun y => y <> x) l -> ~ In x l.
Proof. rewrite List.Forall_forall. intros H Hin. now apply (H x Hin). Qed.

Lemma saveState_run w :
  saveState w =
  if fs_write_ok (env w) (tick w) STATE_F
  then (Ok tt, with_disk (<[STATE_F := FState (mem w)]> (disk w))
                 (logged (EvWrite STATE_F) w))
  else (Throw (ErrFs STATE_F), logged (EvWrite STATE_F) w).
Proof. reflexivity. Qed.

(** C3. [saveState] is the last thing a run does: the syncs of the pages
    and of the databases never write the state file, and a run that
    completes writes it exactly once, after them. A run that does not
    complete leaves the state file on disk as it found it, so the next
    run loads the state the previous successful run saved, stamps and
    watermark included; when the failure comes from a sync, no write of
    the state file is even attempted. *)
Theorem main_saves_state_once_at_the_end fuel cfg flags w r w' :
  main fuel cfg flags w = (r, w') ->
  exists syncs saves,
    trace w' = trace w ++ syncs ++ saves
    /\ ~ In (EvWrite STATE_F) syncs
    /\ (saves = [] \/ saves = [EvWrite STATE_F])
    /\ (r = Ok tt ->
        saves = [EvWrite STATE_F]
        /\ disk w' !! STATE_F = Some (FState (mem w')))
    /\ (r <> Ok tt ->
        disk w' !! STATE_F = disk w !! STATE_F
        /\ stored_state (disk w') = stored_state (disk w))
    /\ (forall r1 w1,
          syncResources fuel cfg flags w = (r1, w1) ->
          trace w1 = trace w ++ syncs
          /\ (r1 <> Ok tt -> saves = [] /\ w' = w1)).
Proof.
  intros Hmain.
  pose proof (untouched_syncResources STATE_F in_IMG_DIR_not_state
                in_OUT_DIR_not_state fuel cfg flags w) as Hdisk.
  pose proof (logs_syncResources not_state_write (fun _ _ => True)
                fuel cfg flags w tolerant_not_state_write) as Hlog.
  destruct Hlog as (syncs & Htr & Hsyncs).
  { intros state db. now destruct (_ || _)%bool. }
  apply Forall_not_in in Hsyncs.
  unfold main in Hmain.
  destruct (syncResources fuel cfg flags w) as [r1 w1] eqn:Hsync.
  simpl in Hdisk, Htr. unfold untouched in Hdisk.
  rewrite (bind_run _ _ _ _ _ Hsync) in Hmain.
  assert (Hload : forall w2, disk w2 !! STATE_F = disk w !! STATE_F ->
                             stored_state (disk w2) = stored_state (disk w)).
  { intros w2 H2. unfold stored_state. now rewrite H2. }
  destruct r1 as [[]|e|].
  - (* the syncs completed: the state is stamped and saved *)
    rewrite (bind_run _ _ _ _ _ (eq_refl : get_now w1 = (Ok _, w1)))
      in Hmain.
    cbv beta iota in Hmain.
    erewrite bind_run in Hmain by reflexivity. cbv beta iota in Hmain.
    rewrite saveState_run in Hmain. cbn in Hmain.
    exists syncs, [EvWrite STATE_F].
    destruct (fs_write_ok (env w1) (tick w1) STATE_F);
      injection Hmain as <- <-; cbn.
    + split; [now rewrite Htr, app_assoc|].
      split; [exact Hsyncs|]. split; [now right|].
      split; [intros _; split; [reflexivity|apply lookup_insert_eq]|].
      split; [congruence|].
      intros r1 w0 [= <- <-]. split; [exact Htr|congruence].
    + split; [now rewrite Htr, app_assoc|].
      split; [exact Hsyncs|]. split; [now right|].
      split; [discriminate|].
      split; [intros _; split; [exact Hdisk|now apply Hload]|].
      intros r1 w0 [= <- <-]. split; [exact Htr|congruence].
  - injection Hmain as <- <-.
    exists syncs, []. rewrite app_nil_r.
    split; [exact Htr|]. split; [exact Hsyncs|]. split; [now left|].
    split; [discriminate|].
    split; [intros _; split; [exact Hdisk|now apply Hload]|].
    intros r1 w0 [= <- <-]. split; [exact Htr|now split].
  - injection Hmain as <- <-.
    exists syncs, []. rewrite app_nil_r.
    split; [exact Htr|]. split; [exact Hsyncs|]. split; [now left|].
    split; [discriminate|].
    split; [intros _; split; [exact Hdisk|now apply Hload]|].
    intros r1 w0 [= <- <-]. split; [exact Htr|now split].
Qed.

Lemma main_saves_state_once_at_the_end_witness :
  fst (main 3 Sample.cfg_site Sample.incremental (Sample.w_site false))
  = Throw (ErrApi "service_unavailable")
  /\ disk (snd (main 3 Sample.cfg_site Sample.incremental
                  (Sample.w_site false))) !! STATE_F
     = Some (FState Sample.state_may1)
  /\ stored_state (disk (snd (main 3 Sample.cfg_site Sample.incremental
                               (Sample.w_site false))))
     = Sample.state_may1.
Proof.
  destruct (main_saves_state_once_at_the_end 3 Sample.cfg_site
              Sample.incremental (Sample.w_site false) _ _
              (surjective_pairing _))
    as (syncs & saves & _ & _ & _ & _ & Hfail & _).
  destruct Hfail as [Hdisk Hstate]; [vm_compute; discriminate|].
  split; [vm_compute; reflexivity|].
  split; [rewrite Hdisk; vm_compute; reflexivity|].
  rewrite Hstate. vm_compute. reflexivity.
Defined.

(** The log of a whole run. *)
Lemma logs_main Q query_allowed fuel cfg flags w :
  tolerant Q query_allowed ->
  Q (EvWrite STATE_F) ->
  (let state := stored_state (disk w) in
   forall db,
     if (FULL_RECONCILE flags
         || negb (bool_decide (is_Some (lastSyncISO state))))%bool
     then query_allowed db None
     else query_allowed db
            (since_filter (isoMinusMinutes (lastSyncISO state) 2))) ->
  logs Q w (snd (main fuel cfg flags w)).
Proof.
  intros HQ Hs Hq.
  pose proof (logs_syncResources Q query_allowed fuel cfg flags w HQ Hq)
    as Hsync.
  unfold main, bind at 1.
  destruct (syncResources fuel cfg flags w) as [[[]|e|] w1];
    simpl in Hsync |- *; try exact Hsync.
  etransitivity; [exact Hsync|].
  match goal with
  | |- logs Q w1 (snd (?m w1)) => enough (preserves (logs Q) m) by auto
  end.
  preserve.
  - intros w0. now apply logs_none.
  - unfold saveState. preserve. now apply logs_write.
Qed.

(** C6. In an incremental run, one that finds the watermark [W] in the
    state file and is not forced to reconcile, every database query the
    run makes carries the filter [last_edited_time on_or_after W - 2min]:
    the bound is the watermark less exactly 120000 ms. The operator is the
    inclusive one, so a row last edited at exactly [W - 2min] is within
    the filter. *)
Theorem incremental_queries_since_watermark_less_margin
  fuel cfg flags w st W r w' :
  disk w !! STATE_F = Some (FState st) ->
  lastSyncISO st = Some W ->
  FULL_RECONCILE flags = false ->
  main fuel cfg flags w = (r, w') ->
  let since := (W - 2 * 60 * 1000)%Z in
  isoMinusMinutes (Some W) 2 = Some since
  /\ (exists evs,
        trace w' = trace w ++ evs
        /\ forall db c f,
             In (EvDbQuery db c f) evs ->
             f = Some (LastEditedOnOrAfter since))
  /\ (forall t, filter_admits (LastEditedOnOrAfter since) t = true
                <-> (since <= t)%Z)
  /\ filter_admits (LastEditedOnOrAfter since) since = true.
Proof.
  intros Hfile HW Hflag Hmain since.
  split; [reflexivity|]. split; [|split].
  - destruct (logs_main (queries_since since)
                (fun _ f => f = Some (LastEditedOnOrAfter since))
                fuel cfg flags w (tolerant_queries_since since) I)
      as (evs & Htr & Hall).
    { unfold stored_state. rewrite Hfile, Hflag, HW. simpl.
      intros _. reflexivity. }
    rewrite Hmain in Htr. exists evs. split; [exact Htr|].
    intros db c f Hin. rewrite List.Forall_forall in Hall.
    exact (Hall _ Hin).
  - intros t. simpl. apply Z.leb_le.
  - simpl. apply Z.leb_refl.
Qed.

Lemma incremental_queries_since_watermark_less_margin_witness :
  fst (main 3 Sample.cfg_site Sample.incremental (Sample.w_site true))
  = Ok tt
  /\ In (EvDbQuery Sample.members_id None
           (Some (LastEditedOnOrAfter 1714550280000)))
        (trace (snd (main 3 Sample.cfg_site Sample.incremental
                       (Sample.w_site true))))
  /\ exists evs,
       trace (snd (main 3 Sample.cfg_site Sample.incremental
                     (Sample.w_site true)))
       = trace (Sample.w_site true) ++ evs
       /\ forall db c f,
            In (EvDbQuery db c f) evs ->
            f = Some (LastEditedOnOrAfter (1714550400000 - 2 * 60 * 1000)).
Proof.
  split; [vm_compute; reflexivity|].
  split; [vm_compute; tauto|].
  apply (incremental_queries_since_watermark_less_margin 3
           Sample.cfg_site Sample.incremental (Sample.w_site true)
           Sample.state_may1 1714550400000
           (fst (main 3 Sample.cfg_site Sample.incremental
                   (Sample.w_site true)))).
  - vm_compute. reflexivity.
  - reflexivity.
  - reflexivity.
  - apply surjective_pairing.
Defined.

(** ** Page sync *)

#[local] Instance same_store_preorder : PreOrder same_store.
Proof.
  split.
  - intros w. now split.
  - intros w1 w2 w3 (A1 & A2 & A3) (B1 & B2 & B3).
    unfold same_store. repeat split; congruence.
Qed.

(** Retrieving the metadata, retries included, touches neither the sync
    state nor the disk, and logs nothing but the attempts and the sleeps
    between them. *)
Lemma retrieve_meta_frame pageId w :
  let w1 := snd (withRetry (pages_retrieve pageId) 5 w) in
  same_store w w1 /\ logs (retrieval_only pageId) w w1.
Proof.
  apply (preserves_withRetry
           (fun w w' => same_store w w' /\ logs (retrieval_only pageId) w w')).
  - intros ms w0. split; [now split|].
    apply logs_one. right. now exists ms.
  - intros w0. unfold pages_retrieve.
    destruct (api_pages_retrieve _ _ _); simpl.
    + split; [now split|]. apply (logs_one _ _ (ticked w0)). now left.
    + split; [now split|]. apply (logs_one _ _ (ticked w0)). now left.
Qed.

Lemma string_compare_refl s : String.compare s s = Eq.
Proof.
  induction s as [|a s IH]; simpl; [reflexivity|].
  unfold Ascii.compare. now rewrite N.compare_refl.
Qed.

(** No stamp is strictly greater than itself. *)
Lemma string_ltb_irrefl s : String.ltb s s = false.
Proof. unfold String.ltb. now rewrite string_compare_refl. Qed.

(** What a page sync that found the page changed has done by the time it
    returns. *)
Lemma fetchChangedPage_ok fuel pageId aliasOut prev meta w r w' :
  fetchChangedPage fuel pageId aliasOut prev meta w = (Ok r, w') ->
  exists payload,
    r = Some payload
    /\ pl_page payload = meta
    /\ pages (mem w') !! pageId
       = Some {| ps_last_edited_time := meta_last_edited_time meta;
                 ps_cover_local := Js.or_null (pl_cover_local payload) |}
    /\ disk w' !! page_file pageId aliasOut = Some (FPage payload)
    /\ In (EvWrite (page_file pageId aliasOut)) (trace w').
Proof.
  unfold fetchChangedPage. intros H.
  apply bind_ok_inv in H as (blocks & wa & _ & H).
  apply bind_ok_inv in H as (localCover & wb & _ & H).
  apply bind_ok_inv in H as ([] & wc & Hw & H).
  apply bind_ok_inv in H as ([] & wd & Hs & H).
  injection H as <- <-.
  eexists. split; [reflexivity|]. split; [reflexivity|].
  unfold write_file in Hw. fold (page_file pageId aliasOut) in Hw.
  destruct (fs_write_ok _ _ _); [|discriminate].
  injection Hw as <-. injection Hs as <-. cbn.
  split; [apply lookup_insert_eq|]. split; [apply lookup_insert_eq|].
  apply in_or_app. right. now left.
Qed.

(** C4. Once the metadata of the page is fetched: if the state holds a
    stamp for the page and the fetched stamp is not strictly greater, the
    call returns [null] having done nothing more, so with no fetch of the
    block tree, no write and the sync state as it was; if the state holds
    no stamp or the fetched one is strictly greater, the call goes on as
    for a changed page and, when it returns, has written the snapshot and
    recorded the fetched stamp. Hence a sync that follows a completed
    sync of the same page and fetches the same stamp returns [null] with
    no fetch of blocks and no write. *)
Theorem fetchPageIfChanged_skips_unchanged fuel pageId aliasOut w meta w1 :
  withRetry (pages_retrieve pageId) 5 w = (Ok meta, w1) ->
  (forall prev,
      pages (mem w) !! pageId = Some prev ->
      String.ltb (ps_last_edited_time prev) (meta_last_edited_time meta)
      = false ->
      fetchPageIfChanged fuel pageId aliasOut w = (Ok None, w1)
      /\ mem w1 = mem w
      /\ disk w1 = disk w
      /\ logs (retrieval_only pageId) w w1)
  /\ ((pages (mem w) !! pageId = None
       \/ exists prev,
            pages (mem w) !! pageId = Some prev
            /\ String.ltb (ps_last_edited_time prev)
                          (meta_last_edited_time meta) = true) ->
      fetchPageIfChanged fuel pageId aliasOut w
      = fetchChangedPage fuel pageId aliasOut (pages (mem w) !! pageId)
          meta w1
      /\ forall r w',
           fetchPageIfChanged fuel pageId aliasOut w = (Ok r, w') ->
           exists payload,
             r = Some payload
             /\ pl_page payload = meta
             /\ pages (mem w') !! pageId
                = Some {| ps_last_edited_time := meta_last_edited_time meta;
                          ps_cover_local :=
                            Js.or_null (pl_cover_local payload) |}
             /\ disk w' !! page_file pageId aliasOut
                = Some (FPage payload))
  /\ (forall r w',
        fetchPageIfChanged fuel pageId aliasOut w = (Ok r, w') ->
        forall fuel2 aliasOut2 meta2 w2,
          withRetry (pages_retrieve pageId) 5 w' = (Ok meta2, w2) ->
          meta_last_edited_time meta2 = meta_last_edited_time meta ->
          fetchPageIfChanged fuel2 pageId aliasOut2 w' = (Ok None, w2)
          /\ mem w2 = mem w'
          /\ disk w2 = disk w'
          /\ logs (retrieval_only pageId) w' w2).
Proof.
  intros Hmeta.
  assert (Hskip : forall fuel0 alias0 w0 meta0 w3 prev,
    withRetry (pages_retrieve pageId) 5 w0 = (Ok meta0, w3) ->
    pages (mem w0) !! pageId = Some prev ->
    String.ltb (ps_last_edited_time prev) (meta_last_edited_time meta0)
    = false ->
    fetchPageIfChanged fuel0 pageId alias0 w0 = (Ok None, w3)
    /\ mem w3 = mem w0 /\ disk w3 = disk w0
    /\ logs (retrieval_only pageId) w0 w3).
  { intros fuel0 alias0 w0 meta0 w3 prev H0 Hprev Hlt.
    destruct (retrieve_meta_frame pageId w0) as [(Hm & Hd & _) Hl].
    rewrite H0 in Hm, Hd, Hl. simpl in Hm, Hd, Hl.
    split; [|now repeat split].
    unfold fetchPageIfChanged. mrun H0. mprim.
    rewrite Hm, Hprev. simpl. now rewrite Hlt. }
  assert (Hgo : forall prev0,
    pages (mem w) !! pageId = prev0 ->
    page_changed prev0 meta = true ->
    fetchPageIfChanged fuel pageId aliasOut w
    = fetchChangedPage fuel pageId aliasOut prev0 meta w1).
  { intros prev0 Hprev Hch.
    destruct (retrieve_meta_frame pageId w) as [(Hm & _ & _) _].
    rewrite Hmeta in Hm. simpl in Hm.
    unfold fetchPageIfChanged. mrun Hmeta. mprim.
    rewrite Hm, Hprev, Hch. reflexivity. }
  split; [|split].
  - intros prev Hprev Hlt. now apply (Hskip fuel aliasOut w meta w1 prev).
  - intros Hch.
    assert (Hpc : page_changed (pages (mem w) !! pageId) meta = true).
    { destruct Hch as [->|(prev & -> & Hlt)]; [reflexivity|exact Hlt]. }
    pose proof (Hgo _ eq_refl Hpc) as Heq. split; [exact Heq|].
    intros r w' Hr. rewrite Heq in Hr.
    destruct (fetchChangedPage_ok _ _ _ _ _ _ _ _ Hr)
      as (payload & ? & ? & ? & ? & _).
    now exists payload.
  - intros r w' Hr fuel2 alias2 meta2 w2 H2 Hsame.
    destruct (page_changed (pages (mem w) !! pageId) meta) eqn:Hpc.
    + rewrite (Hgo _ eq_refl Hpc) in Hr.
      destruct (fetchChangedPage_ok _ _ _ _ _ _ _ _ Hr)
        as (payload & _ & _ & Hpage & _).
      apply (Hskip fuel2 alias2 w' meta2 w2 _ H2 Hpage).
      simpl. rewrite Hsame. apply string_ltb_irrefl.
    + destruct (pages (mem w) !! pageId) as [prev|] eqn:Hprev;
        [|discriminate].
      simpl in Hpc.
      destruct (Hskip fuel aliasOut w meta w1 prev Hmeta Hprev Hpc)
        as (Hret & Hm & _).
      rewrite Hret in Hr. injection Hr as <- <-.
      apply (Hskip fuel2 alias2 w1 meta2 w2 prev H2).
      * now rewrite Hm.
      * now rewrite Hsame.
Qed.

Lemma fetchPageIfChanged_skips_unchanged_witness :
  let w1 := snd (fetchPageIfChanged 3 Sample.home_id (Some "home")
                   Sample.w_loaded) in
  let w2 := snd (withRetry (pages_retrieve Sample.home_id) 5 w1) in
  fetchPageIfChanged 3 Sample.home_id (Some "home") Sample.w_loaded
  = (Ok (Some Sample.home_payload), w1)
  /\ fetchPageIfChanged 3 Sample.home_id (Some "home") w1 = (Ok None, w2)
  /\ mem w2 = mem w1
  /\ disk w2 = disk w1
  /\ logs (retrieval_only Sample.home_id) w1 w2.
Proof.
  intros w1 w2.
  assert (H1 : fetchPageIfChanged 3 Sample.home_id (Some "home")
                 Sample.w_loaded = (Ok (Some Sample.home_payload), w1))
    by (vm_compute; reflexivity).
  split; [exact H1|].
  apply (proj2 (proj2 (fetchPageIfChanged_skips_unchanged 3 Sample.home_id
                         (Some "home") Sample.w_loaded Sample.home_meta
                         (snd (withRetry (pages_retrieve Sample.home_id) 5
                                 Sample.w_loaded))
                         ltac:(vm_compute; reflexivity)))
           (Some Sample.home_payload) w1 H1 3 (Some "home")
           Sample.home_meta w2).
  - vm_compute. reflexivity.
  - reflexivity.
Defined.

(** ** The insertion-ordered map *)

Section JsMapFacts.

Context {V : Type}.
Implicit Types (m : JsMap.t V) (k : string) (v : V).

Lemma jsmap_get_set_eq k v m : JsMap.get k (JsMap.set k v m) = Some v.
Proof.
  induction m as [|[k' v'] r IH]; simpl.
  - now rewrite String.eqb_refl.
  - destruct (String.eqb k' k) eqn:E; simpl.
    + now rewrite String.eqb_refl.
    + now rewrite E.
Qed.

Lemma jsmap_get_set_ne k k' v m :
  k <> k' -> JsMap.get k' (JsMap.set k v m) = JsMap.get k' m.
Proof.
  intros Hne. induction m as [|[k0 v0] r IH]; simpl.
  - now rewrite (proj2 (String.eqb_neq k k') Hne).
  - destruct (String.eqb k0 k) eqn:E; simpl.
    + apply String.eqb_eq in E. subst k0.
      now rewrite (proj2 (String.eqb_neq k k') Hne).
    + now rewrite IH.
Qed.

Lemma jsmap_keys_set k v m :
  JsMap.keys (JsMap.set k v m)
  = match JsMap.get k m with
    | Some _ => JsMap.keys m
    | None => JsMap.keys m ++ [k]
    end.
Proof.
  unfold JsMap.keys.
  induction m as [|[k0 v0] r IH]; simpl; [reflexivity|].
  destruct (String.eqb k0 k) eqn:E; simpl.
  - apply String.eqb_eq in E. now subst.
  - rewrite IH. now destruct (JsMap.get k r).
Qed.

Lemma jsmap_get_in_keys k m :
  In k (JsMap.keys m) <-> exists v, JsMap.get k m = Some v.
Proof.
  induction m as [|[k0 v0] r IH]; simpl.
  - split; [easy|now intros [v ?]].
  - destruct (String.eqb k0 k) eqn:E.
    + apply String.eqb_eq in E. split; [eauto|now left].
    + apply String.eqb_neq in E. rewrite <- IH. tauto.
Qed.

Lemma jsmap_in_keys_set k k' v m :
  In k' (JsMap.keys (JsMap.set k v m)) <-> k' = k \/ In k' (JsMap.keys m).
Proof.
  rewrite jsmap_keys_set. destruct (JsMap.get k m) as [v0|] eqn:E.
  - split; [tauto|]. intros [->|H]; [|exact H].
    apply jsmap_get_in_keys. eauto.
  - rewrite in_app_iff. simpl. intuition.
Qed.

Lemma jsmap_nodup_set k v m :
  NoDup (JsMap.keys m) -> NoDup (JsMap.keys (JsMap.set k v m)).
Proof.
  intros Hnd. rewrite jsmap_keys_set.
  destruct (JsMap.get k m) as [v0|] eqn:E; [exact Hnd|].
  apply NoDup_app. split; [exact Hnd|]. split.
  - intros x Hx Hin. apply list_elem_of_In in Hx, Hin.
    destruct Hin as [<-|[]].
    apply jsmap_get_in_keys in Hx as [v1 Hv]. congruence.
  - apply NoDup_singleton.
Qed.

Lemma jsmap_get_in k v m : JsMap.get k m = Some v -> In (k, v) m.
Proof.
  induction m as [|[k0 v0] r IH]; simpl; [discriminate|].
  destruct (String.eqb k0 k) eqn:E.
  - apply String.eqb_eq in E. intros [= ->]. left. now subst.
  - intros H. right. now apply IH.
Qed.

Lemma jsmap_in_get k v m :
  NoDup (JsMap.keys m) -> In (k, v) m -> JsMap.get k m = Some v.
Proof.
  induction m as [|[k0 v0] r IH]; simpl; [easy|].
  intros Hnd [H|H].
  - injection H as -> ->. now rewrite String.eqb_refl.
  - apply NoDup_cons in Hnd as [Hnot Hnd].
    destruct (String.eqb k0 k) eqn:E; [|now apply IH].
    apply String.eqb_eq in E. subst k0. exfalso. apply Hnot.
    apply list_elem_of_In. apply (in_map fst) in H. exact H.
Qed.

Lemma jsmap_in_values k v m : JsMap.get k m = Some v -> In v (JsMap.values m).
Proof.
  intros H. apply jsmap_get_in in H. apply (in_map snd) in H. exact H.
Qed.

(** The keys and lookups after [new Map(entries)]-style insertions. *)
Lemma jsmap_fold_set (l : list (string * V)) :
  forall m,
    NoDup (JsMap.keys m) ->
    let m' := fold_left (fun m kv => JsMap.set (fst kv) (snd kv) m) l m in
    NoDup (JsMap.keys m')
    /\ forall k, In k (JsMap.keys m')
                 <-> In k (JsMap.keys m) \/ In k (map fst l).
Proof.
  induction l as [|[k0 v0] r IH]; intros m Hnd; simpl.
  - split; [exact Hnd|]. intros k. tauto.
  - destruct (IH (JsMap.set k0 v0 m) (jsmap_nodup_set k0 v0 m Hnd))
      as [Hnd' Hin].
    split; [exact Hnd'|]. intros k. rewrite Hin, jsmap_in_keys_set.
    intuition.
Qed.

Lemma jsmap_get_delete_filter (f : string -> bool) k m :
  JsMap.get k (List.filter (fun kv => f (fst kv)) m)
  = if f k then JsMap.get k m else None.
Proof.
  induction m as [|[k0 v0] r IH]; simpl.
  - now destruct (f k).
  - destruct (f k0) eqn:F; simpl.
    + destruct (String.eqb k0 k) eqn:E; [|exact IH].
      apply String.eqb_eq in E. subst. now rewrite F.
    + rewrite IH. destruct (String.eqb k0 k) eqn:E; [|reflexivity].
      apply String.eqb_eq in E. subst. now rewrite F.
Qed.

Lemma jsmap_keys_filter (f : string -> bool) m :
  JsMap.keys (List.filter (fun kv => f (fst kv)) m)
  = List.filter f (JsMap.keys m).
Proof.
  induction m as [|[k0 v0] r IH]; simpl; [reflexivity|].
  destruct (f k0); simpl; [f_equal|]; exact IH.
Qed.

Lemma nodup_filter {A} (f : A -> bool) (l : list A) :
  NoDup l -> NoDup (List.filter f l).
Proof.
  induction l as [|x r IH]; simpl; [easy|].
  intros Hnd. apply NoDup_cons in Hnd as [Hx Hr].
  destruct (f x); [|now apply IH].
  apply NoDup_cons. split; [|now apply IH].
  rewrite list_elem_of_In, List.filter_In. rewrite list_elem_of_In in Hx.
  tauto.
Qed.

Lemma filter_twice {A} (f g : A -> bool) (l : list A) :
  List.filter f (List.filter g l) = List.filter (fun x => g x && f x) l.
Proof.
  induction l as [|x r IH]; simpl; [reflexivity|].
  destruct (g x); simpl; [|exact IH].
  destruct (f x); [f_equal|]; exact IH.
Qed.

(** Deleting one by one the keys that fail [keep] is filtering. *)
Lemma jsmap_fold_delete (keep : string -> bool) (l : list string) :
  forall m,
    fold_left (fun m id => if keep id then m else JsMap.delete id m) l m
    = List.filter
        (fun kv =>
           forallb (fun id => keep id || negb (String.eqb (fst kv) id)) l)
        m.
Proof.
  induction l as [|id r IH]; intros m; simpl.
  - induction m as [|kv m' IHm]; simpl; [reflexivity|]. now f_equal.
  - rewrite IH. destruct (keep id) eqn:K; simpl.
    + reflexivity.
    + unfold JsMap.delete. rewrite filter_twice. reflexivity.
Qed.

End JsMapFacts.

Lemma reconcile_filter (currentIds : gset string) (byId : JsMap.t Row) :
  reconcile currentIds byId
  = List.filter (fun kv => bool_decide (fst kv ∈ currentIds)) byId.
Proof.
  unfold reconcile.
  rewrite (jsmap_fold_delete (fun id => bool_decide (id ∈ currentIds))).
  apply List.filter_ext_in. intros [k v] Hin. simpl.
  destruct (bool_decide (k ∈ currentIds)) eqn:K.
  - apply forallb_forall. intros id _.
    destruct (bool_decide (id ∈ currentIds)) eqn:I; [reflexivity|].
    simpl. apply negb_true_iff. apply String.eqb_neq. intros ->. congruence.
  - apply not_true_is_false. intros Hall.
    rewrite forallb_forall in Hall.
    assert (Hk : In k (JsMap.keys byId)).
    { apply (in_map fst) in Hin. exact Hin. }
    specialize (Hall k Hk). rewrite K, String.eqb_refl in Hall.
    discriminate.
Qed.

Lemma keyed_values (m : JsMap.t Row) :
  keyed m -> map row_id (JsMap.values m) = JsMap.keys m.
Proof.
  unfold keyed, JsMap.values, JsMap.keys. intros H.
  induction H as [|[k v] r Hkv _ IH]; simpl; [reflexivity|].
  simpl in Hkv. now rewrite IH, Hkv.
Qed.

Lemma keyed_set (p : Row) (m : JsMap.t Row) :
  keyed m -> keyed (JsMap.set (row_id p) p m).
Proof.
  unfold keyed. intros H.
  induction H as [|[k v] r Hkv Hr IH]; simpl.
  - now repeat constructor.
  - destruct (String.eqb k (row_id p)); constructor; auto.
Qed.

Lemma keyed_filter f (m : JsMap.t Row) : keyed m -> keyed (List.filter f m).
Proof.
  unfold keyed. intros H.
  induction H as [|kv r Hkv Hr IH]; simpl; [constructor|].
  destruct (f kv); [constructor|]; auto.
Qed.

Lemma index_of_facts (rows : list Row) :
  keyed (index_of rows)
  /\ NoDup (JsMap.keys (index_of rows))
  /\ forall id, In id (JsMap.keys (index_of rows)) <-> In id (map row_id rows).
Proof.
  unfold index_of, JsMap.of_entries.
  split; [|split].
  - assert (G : forall l (m : JsMap.t Row),
               keyed m ->
               keyed (fold_left
                        (fun m kv => JsMap.set (fst kv) (snd kv) m)
                        (map (fun x => (row_id x, x)) l) m)).
    { induction l as [|x r IH]; intros m Hm; simpl; [exact Hm|].
      apply IH. now apply keyed_set. }
    apply G. constructor.
  - apply (jsmap_fold_set (map (fun x => (row_id x, x)) rows) []).
    constructor.
  - intros id.
    destruct (jsmap_fold_set (map (fun x => (row_id x, x)) rows) []
                (NoDup_nil_2)) as [_ H].
    rewrite H, map_map. simpl. tauto.
Qed.

(** With distinct ids, the index holds each stored row under its id. *)
Lemma index_of_get (rows : list Row) r :
  NoDup (map row_id rows) -> In r rows ->
  JsMap.get (row_id r) (index_of rows) = Some r.
Proof.
  unfold index_of, JsMap.of_entries.
  assert (G : forall l (m : JsMap.t Row),
    NoDup (map row_id l) ->
    (forall x, In x l -> ~ In (row_id x) (JsMap.keys m)) ->
    forall x,
      (In x l \/ JsMap.get (row_id x) m = Some x) ->
      (forall y, In y l -> row_id y = row_id x -> In x l) ->
      JsMap.get (row_id x)
        (fold_left (fun m kv => JsMap.set (fst kv) (snd kv) m)
           (map (fun x => (row_id x, x)) l) m) = Some x).
  { induction l as [|a l IH]; intros m Hnd Hfresh x Hx Hsame; simpl.
    - destruct Hx as [[]|Hx]. exact Hx.
    - simpl in Hnd. apply NoDup_cons in Hnd as [Ha Hnd].
      rewrite list_elem_of_In in Ha.
      apply IH.
      + exact Hnd.
      + intros y Hy Hk. apply jsmap_in_keys_set in Hk as [Hk|Hk].
        * apply Ha. rewrite <- Hk. now apply in_map.
        * apply (Hfresh y); [now right|exact Hk].
      + destruct Hx as [[<-|Hx]|Hx].
        * right. apply jsmap_get_set_eq.
        * now left.
        * right. rewrite jsmap_get_set_ne; [exact Hx|].
          intros E. apply (Hfresh a); [now left|].
          rewrite E. apply jsmap_get_in_keys. eauto.
      + intros y Hy E.
        destruct (Hsame y (or_intror Hy) E) as [<-|H]; [|exact H].
        exfalso. apply Ha. rewrite <- E. now apply in_map. }
  intros Hnd Hin. apply G; auto.
Qed.

(** ** Database sync *)

(** What the sync of a row keeps of the fetched row, and when it attaches
    [cover_local]. *)
Lemma syncRow_ok fuel fb p w r w' :
  syncRow fuel fb p w = (Ok r, w') ->
  row_id r = row_id p
  /\ row_last_edited_time r = row_last_edited_time p
  /\ row_cover r = row_cover p
  /\ (Js.otruthy (ref_url (row_cover p)) = false ->
      row_cover_local r = row_cover_local p)
  /\ (Js.otruthy (ref_url (row_cover p)) = true ->
      exists l, row_cover_local r = Some l).
Proof.
  unfold syncRow. intros H.
  apply bind_ok_inv in H as (p1 & wa & Hcover & H).
  apply bind_ok_inv in H as (props & wb & _ & H).
  assert (Hp1 : row_id p1 = row_id p
                /\ row_last_edited_time p1 = row_last_edited_time p
                /\ row_cover p1 = row_cover p
                /\ (Js.otruthy (ref_url (row_cover p)) = false ->
                    row_cover_local p1 = row_cover_local p)
                /\ (Js.otruthy (ref_url (row_cover p)) = true ->
                    exists l, row_cover_local p1 = Some l)).
  { destruct (Js.otruthy (ref_url (row_cover p))).
    - apply bind_ok_inv in Hcover as (local & wc & _ & Hret).
      injection Hret as <- _. simpl.
      repeat split; try reflexivity; [discriminate|eauto].
    - injection Hcover as <- _.
      repeat split; try reflexivity; [discriminate]. }
  assert (Hr : r = set_properties p1 props
               \/ exists blocks,
                    r = set_blocks (set_properties p1 props) blocks).
  { destruct fb.
    - apply try_catch_ok_inv in H as [H|(e & wc & _ & H)].
      + apply bind_ok_inv in H as (blocks & wc & _ & H).
        injection H as <- _. right. now exists blocks.
      + injection H as <- _. now left.
    - injection H as <- _. now left. }
  destruct Hr as [->|[blocks ->]]; exact Hp1.
Qed.

(** The index after the loop over the changed rows. *)
Lemma upsertRows_ok fuel fb rows :
  forall byId w byId' w',
    upsertRows fuel fb rows byId w = (Ok byId', w') ->
    keyed byId -> NoDup (JsMap.keys byId) ->
    keyed byId'
    /\ NoDup (JsMap.keys byId')
    /\ (forall id, In id (JsMap.keys byId')
                   <-> In id (JsMap.keys byId) \/ In id (map row_id rows))
    /\ (forall id, ~ In id (map row_id rows) ->
                   JsMap.get id byId' = JsMap.get id byId)
    /\ (forall id r, In id (map row_id rows) ->
                     JsMap.get id byId' = Some r ->
                     exists p, In p rows /\ row_id p = id
                               /\ synced_from fuel fb p r).
Proof.
  induction rows as [|p rest IH]; intros byId w byId' w' H Hk Hnd.
  - injection H as <- _.
    split; [exact Hk|]. split; [exact Hnd|]. split; [|split].
    + intros id. simpl. tauto.
    + reflexivity.
    + intros id r [].
  - simpl in H.
    apply bind_ok_inv in H as (p' & wa & Hrow & H).
    apply bind_ok_inv in H as ([] & wb & _ & H).
    destruct (syncRow_ok _ _ _ _ _ _ Hrow) as (Hid & _).
    destruct (IH _ _ _ _ H (keyed_set p' byId Hk)
                (jsmap_nodup_set (row_id p') p' byId Hnd))
      as (Hk' & Hnd' & Hin & Hother & Hchanged).
    split; [exact Hk'|]. split; [exact Hnd'|]. split; [|split].
    + intros id. rewrite Hin, jsmap_in_keys_set, Hid. simpl. intuition.
    + intros id Hnot. simpl in Hnot.
      rewrite Hother by tauto.
      apply jsmap_get_set_ne. rewrite Hid. tauto.
    + intros id r Hid_in Hget.
      destruct (in_dec string_dec id (map row_id rest)) as [Hrest|Hrest].
      * destruct (Hchanged id r Hrest Hget) as (p0 & Hp0 & Hid0 & Hs).
        exists p0. split; [now right|]. now split.
      * rewrite (Hother id Hrest) in Hget.
        destruct Hid_in as [Hhere|Hin_rest]; [|contradiction].
        rewrite <- Hhere, <- Hid, jsmap_get_set_eq in Hget.
        injection Hget as <-.
        exists p. split; [now left|]. split; [exact Hhere|].
        now exists w, wa.
Qed.

Lemma loadSnapshot_ok outFile w stored w1 :
  loadSnapshot outFile w = (Ok stored, w1) ->
  w1 = w /\
  (disk w !! outFile = Some (FDb stored)
   \/ (disk w !! outFile = None /\ stored = [])).
Proof.
  unfold loadSnapshot. destruct (disk w !! outFile) as [[]|]; intros H;
    try discriminate; injection H as <- <-; auto.
Qed.

(** Querying a database writes nothing. *)
Lemma query_leaves_disk fuel db since w :
  disk (snd (queryDatabaseIncremental fuel db since w)) = disk w.
Proof.
  assert (H : preserves (fun w w' => disk w' = disk w)
                 (queryDatabaseIncremental fuel db since)).
  { apply preserves_queryDatabaseIncremental
      with (query_allowed := fun _ _ => True).
    - split; [now intros ?|]. intros w1 w2 w3 H1 H2. congruence.
    - now intros ms w0.
    - intros d c f _ w0. unfold databases_query.
      now destruct (api_db_query _ _ _ _ _).
    - exact I. }
  exact (H w).
Qed.

(** The steps of a database sync that returns. *)
Lemma syncDatabase_ok fuel db outName options w w' :
  syncDatabase fuel db outName options w = (Ok tt, w') ->
  exists changed w1 stored byId w2 byId',
    queryDatabaseIncremental fuel db
      (if fullMode options then None else sinceISO options) w
    = (Ok changed, w1)
    /\ (disk w !! db_file outName = Some (FDb stored)
        \/ (disk w !! db_file outName = None /\ stored = []))
    /\ upsertRows fuel (fetchBlocksForRows options) changed
         (index_of stored) w1 = (Ok byId, w2)
    /\ (if fullMode options
        then exists ids w3,
               fullIdsInDatabase fuel db w2 = (Ok ids, w3)
               /\ byId' = List.filter
                            (fun kv =>
                               bool_decide
                                 (fst kv ∈ (list_to_set ids : gset string)))
                            byId
        else byId' = byId)
    /\ disk w' !! db_file outName = Some (FDb (JsMap.values byId')).
Proof.
  unfold syncDatabase. intros H.
  apply bind_ok_inv in H as (changed & w1 & Hq & H).
  apply bind_ok_inv in H as (stored & w1' & Hload & H).
  apply loadSnapshot_ok in Hload as [-> Hstored].
  apply bind_ok_inv in H as (byId & w2 & Hup & H).
  apply bind_ok_inv in H as (byId' & w3 & Hrec & Hw).
  exists changed, w1, stored, byId, w2, byId'.
  split; [exact Hq|]. split.
  { pose proof (query_leaves_disk fuel db
                  (if fullMode options then None else sinceISO options) w)
      as Hd.
    rewrite Hq in Hd. simpl in Hd. now rewrite <- Hd. }
  split; [exact Hup|]. split.
  - destruct (fullMode options).
    + apply bind_ok_inv in Hrec as (ids & w4 & Hids & Hret).
      injection Hret as <- <-. exists ids, w4. split; [exact Hids|].
      apply reconcile_filter.
    + now injection Hrec as <- _.
  - unfold write_file in Hw. destruct (fs_write_ok _ _ _); [|discriminate].
    injection Hw as <-. cbn. apply lookup_insert_eq.
Qed.

Lemma in_values_get (m : JsMap.t Row) r :
  keyed m -> NoDup (JsMap.keys m) -> In r (JsMap.values m) ->
  JsMap.get (row_id r) m = Some r.
Proof.
  intros Hk Hnd Hin. unfold JsMap.values in Hin.
  apply in_map_iff in Hin as ([k v] & <- & Hkv). simpl.
  unfold keyed in Hk. rewrite List.Forall_forall in Hk.
  pose proof (Hk _ Hkv) as E. simpl in E. rewrite <- E.
  now apply jsmap_in_get.
Qed.

Lemma elem_of_id_set (ids : list string) id :
  bool_decide (id ∈ (list_to_set ids : gset string)) = true <-> In id ids.
Proof.
  rewrite bool_decide_eq_true, elem_of_list_to_set. apply list_elem_of_In.
Qed.

Lemma stored_rows_of (d : gmap string File) outName stored :
  (d !! db_file outName = Some (FDb stored)
   \/ (d !! db_file outName = None /\ stored = [])) ->
  stored_rows d outName = Some stored.
Proof.
  unfold stored_rows. intros [->|[-> ->]]; reflexivity.
Qed.

(** C2. A database sync that returns has persisted a snapshot with one
    row per id, taken from the index [merged] that the loop over the rows
    the query returned made of the stored snapshot: the ids of [merged]
    are the stored ids and the returned ids, a returned id holds the row
    synced from a returned row, and every persisted row is the row
    [merged] holds under its id. In full mode the enumeration of the
    current ids is the one run in the world the loop left; the ids of the
    persisted rows are exactly the ids of [merged] that it lists: every
    other row has been dropped, so stored rows [A, B, C] with an
    enumeration [A, C] leave exactly [A, C]. In incremental mode nothing
    is removed: the persisted ids are exactly the ids of [merged], so
    every stored id is still there, and the row indexed under an id that
    the query did not return is persisted as it was. *)
Theorem syncDatabase_drops_rows_only_in_full_mode
  fuel db outName options w w' :
  syncDatabase fuel db outName options w = (Ok tt, w') ->
  exists changed w1 stored merged w2 rows',
    queryDatabaseIncremental fuel db
      (if fullMode options then None else sinceISO options) w
    = (Ok changed, w1)
    /\ stored_rows (disk w) outName = Some stored
    /\ upsertRows fuel (fetchBlocksForRows options) changed
         (index_of stored) w1 = (Ok merged, w2)
    /\ (forall id,
          In id (JsMap.keys merged)
          <-> In id (map row_id stored) \/ In id (map row_id changed))
    /\ (forall id r,
          In id (map row_id changed) -> JsMap.get id merged = Some r ->
          exists p, In p changed /\ row_id p = id
                    /\ synced_from fuel (fetchBlocksForRows options) p r)
    /\ disk w' !! db_file outName = Some (FDb rows')
    /\ NoDup (map row_id rows')
    /\ (forall r, In r rows' -> JsMap.get (row_id r) merged = Some r)
    /\ (fullMode options = true ->
        exists ids w3,
          fullIdsInDatabase fuel db w2 = (Ok ids, w3)
          /\ (forall id,
                In id (map row_id rows')
                <-> In id ids
                    /\ (In id (map row_id stored)
                        \/ In id (map row_id changed)))
          /\ ((forall id, In id ids -> In id (map row_id stored)) ->
              forall id, In id (map row_id rows') <-> In id ids))
    /\ (fullMode options = false ->
        (forall id,
            In id (map row_id rows')
            <-> In id (map row_id stored) \/ In id (map row_id changed))
        /\ (forall id, In id (map row_id stored) -> In id (map row_id rows'))
        /\ (forall id r,
              JsMap.get id (index_of stored) = Some r ->
              ~ In id (map row_id changed) ->
              In r rows'
              /\ forall r', In r' rows' -> row_id r' = id -> r' = r)
        /\ (NoDup (map row_id stored) ->
            forall r, In r stored ->
                      ~ In (row_id r) (map row_id changed) ->
                      In r rows')).
Proof.
  intros H.
  destruct (syncDatabase_ok _ _ _ _ _ _ H)
    as (changed & w1 & stored & byId & w2 & byId' & Hq & Hst & Hup & Hrec
        & Hdisk).
  destruct (index_of_facts stored) as (Hk0 & Hnd0 & Hin0).
  destruct (upsertRows_ok _ _ _ _ _ _ _ Hup Hk0 Hnd0)
    as (Hk & Hnd & Hin & Hother & Hchanged).
  exists changed, w1, stored, byId, w2, (JsMap.values byId').
  split; [exact Hq|]. split; [now apply stored_rows_of|].
  split; [exact Hup|].
  split; [intros id; now rewrite Hin, Hin0|].
  split; [exact Hchanged|].
  split; [exact Hdisk|].
  destruct (fullMode options) eqn:Hfull.
  - destruct Hrec as (ids & w3 & Hids & ->).
    set (keep := fun k : string =>
                   bool_decide (k ∈ (list_to_set ids : gset string))).
    assert (Hkeys : map row_id (JsMap.values
                      (List.filter (fun kv => keep (fst kv)) byId))
                    = List.filter keep (JsMap.keys byId)).
    { rewrite keyed_values by now apply keyed_filter.
      apply jsmap_keys_filter. }
    change (fun kv : string * Row =>
              bool_decide (fst kv ∈ (list_to_set ids : gset string)))
      with (fun kv : string * Row => keep (fst kv)).
    rewrite Hkeys.
    split; [now apply nodup_filter|]. split.
    { intros r Hr.
      assert (Hnd' : NoDup (JsMap.keys
                              (List.filter (fun kv => keep (fst kv)) byId))).
      { rewrite jsmap_keys_filter. now apply nodup_filter. }
      apply (in_values_get _ r (keyed_filter _ byId Hk) Hnd') in Hr.
      rewrite jsmap_get_delete_filter in Hr.
      now destruct (keep (row_id r)). }
    split; [|discriminate].
    intros _. exists ids, w3. split; [exact Hids|].
    assert (Hiff : forall id,
              In id (List.filter keep (JsMap.keys byId))
              <-> In id ids
                  /\ (In id (map row_id stored)
                      \/ In id (map row_id changed))).
    { intros id. rewrite List.filter_In, Hin, Hin0.
      unfold keep. rewrite elem_of_id_set. tauto. }
    split; [exact Hiff|].
    intros Hsub id. rewrite Hiff. specialize (Hsub id). tauto.
  - subst byId'. rewrite (keyed_values byId Hk).
    split; [exact Hnd|].
    split; [intros r Hr; now apply in_values_get|].
    split; [discriminate|]. intros _.
    assert (Hkeep : forall id r,
              JsMap.get id (index_of stored) = Some r ->
              ~ In id (map row_id changed) ->
              In r (JsMap.values byId)
              /\ forall r', In r' (JsMap.values byId) ->
                            row_id r' = id -> r' = r).
    { intros id r Hget Hnot. rewrite <- (Hother id Hnot) in Hget.
      split; [now apply (jsmap_in_values id)|].
      intros r' Hr' Hid'. apply (in_values_get byId r' Hk Hnd) in Hr'.
      rewrite Hid' in Hr'. congruence. }
    split; [intros id; now rewrite Hin, Hin0|]. split; [|split].
    + intros id Hid. apply Hin. left. now apply Hin0.
    + exact Hkeep.
    + intros Hnd_stored r Hr Hnot.
      apply (Hkeep (row_id r) r); [|exact Hnot].
      now apply index_of_get.
Qed.

(** C10. A changed row is put in the index as the sync made it from the
    row just fetched, in place of whatever the index held under its id.
    Its [cover_local] is set when the fetched row has a cover URL and is
    otherwise the one of the fetched row: a row fetched without
    [cover_local] and without cover URL is persisted without
    [cover_local], whatever the state records under
    [page:<rowId>:cover]. *)
Theorem syncDatabase_keeps_no_cached_cover fuel db outName options w w' :
  syncDatabase fuel db outName options w = (Ok tt, w') ->
  exists changed w1 rows',
    queryDatabaseIncremental fuel db
      (if fullMode options then None else sinceISO options) w
    = (Ok changed, w1)
    /\ disk w' !! db_file outName = Some (FDb rows')
    /\ forall r,
         In r rows' -> In (row_id r) (map row_id changed) ->
         exists p,
           In p changed
           /\ row_id p = row_id r
           /\ synced_from fuel (fetchBlocksForRows options) p r
           /\ row_cover r = row_cover p
           /\ (Js.otruthy (ref_url (row_cover p)) = true ->
               exists l, row_cover_local r = Some l)
           /\ (Js.otruthy (ref_url (row_cover p)) = false ->
               row_cover_local r = row_cover_local p)
           /\ (Js.otruthy (ref_url (row_cover p)) = false ->
               row_cover_local p = None ->
               row_cover_local r = None).
Proof.
  intros H.
  destruct (syncDatabase_ok _ _ _ _ _ _ H)
    as (changed & w1 & stored & byId & w2 & byId' & Hq & _ & Hup & Hrec
        & Hdisk).
  destruct (index_of_facts stored) as (Hk0 & Hnd0 & _).
  destruct (upsertRows_ok _ _ _ _ _ _ _ Hup Hk0 Hnd0)
    as (Hk & Hnd & _ & _ & Hchanged).
  exists changed, w1, (JsMap.values byId').
  split; [exact Hq|]. split; [exact Hdisk|].
  intros r Hr Hid.
  assert (Hin : In r (JsMap.values byId)).
  { destruct (fullMode options); [|now subst].
    destruct Hrec as (ids & w3 & _ & ->).
    unfold JsMap.values in *. apply in_map_iff in Hr as (kv & <- & Hkv).
    apply List.filter_In in Hkv as [Hkv _]. now apply in_map. }
  apply (in_values_get byId r Hk Hnd) in Hin.
  destruct (Hchanged _ _ Hid Hin) as (p & Hp & Hpid & Hs).
  exists p. split; [exact Hp|]. split; [exact Hpid|]. split; [exact Hs|].
  destruct Hs as (wa & wb & Hs).
  destruct (syncRow_ok _ _ _ _ _ _ Hs) as (_ & _ & Hc & Hno & Hyes).
  split; [exact Hc|]. split; [exact Hyes|]. split; [exact Hno|].
  intros Hf Hnone. rewrite (Hno Hf). exact Hnone.
Qed.

(** Unlike a row, a page synced without a cover URL falls back on the
    cover cached under its key, then on the one of its previous state. *)
Lemma fetchChangedPage_cover_fallback
  fuel pageId aliasOut prev meta w payload w' :
  fetchChangedPage fuel pageId aliasOut prev meta w
  = (Ok (Some payload), w') ->
  Js.otruthy (ref_url (meta_cover meta)) = false ->
  exists wb,
    pl_cover_local payload
    = Js.or_null
        (Js.or_else
           (cached_local (mem wb) ("page:" +:+ meta_id meta +:+ ":cover"))
           (prev ≫= ps_cover_local)).
Proof.
  unfold fetchChangedPage. intros H Hno.
  apply bind_ok_inv in H as (blocks & wa & _ & H).
  apply bind_ok_inv in H as (localCover & wb & Hc & H).
  apply bind_ok_inv in H as ([] & wc & _ & H).
  apply bind_ok_inv in H as ([] & wd & _ & H).
  injection H as <- _. simpl.
  rewrite Hno in Hc. injection Hc as <- _. now exists wa.
Qed.

Lemma syncDatabase_drops_rows_only_in_full_mode_witness :
  let full := snd (syncDatabase 3 Sample.members_id "members"
                     Sample.opts_full Sample.w_loaded) in
  let incr := snd (syncDatabase 3 Sample.members_id "members"
                     Sample.opts_incremental Sample.w_loaded) in
  (exists rows,
      disk full !! db_file "members" = Some (FDb rows)
      /\ NoDup (map row_id rows)
      /\ (forall id, In id (map row_id rows) <-> In id ["A"; "C"])
      /\ ~ In "B" (map row_id rows))
  /\ (exists rows,
        disk incr !! db_file "members" = Some (FDb rows)
        /\ NoDup (map row_id rows)
        /\ (forall id, In id (map row_id rows) <-> In id ["A"; "B"; "C"])
        /\ In Sample.row_B rows).
Proof.
  intros full incr. split.
  - destruct (syncDatabase_drops_rows_only_in_full_mode 3
                Sample.members_id "members" Sample.opts_full
                Sample.w_loaded full ltac:(vm_compute; reflexivity))
      as (changed & w1 & stored & merged & w2 & rows & Hq & Hst & Hup & _ & _
          & Hdisk & Hnd & _ & Hfull & _).
    destruct (Hfull eq_refl) as (ids & w3 & Hids & _ & Hexact).
    clear Hfull.
    pose proof (f_equal fst Hq) as Hc. cbn [fst] in Hc.
    vm_compute in Hc. injection Hc as <-.
    apply (f_equal snd) in Hq. cbn [snd] in Hq. subst w1.
    vm_compute in Hst. injection Hst as <-.
    apply (f_equal snd) in Hup. cbn [snd] in Hup. subst w2.
    apply (f_equal fst) in Hids. cbn [fst] in Hids.
    vm_compute in Hids. injection Hids as <-.
    assert (Hall : forall id, In id (map row_id rows) <-> In id ["A"; "C"]).
    { apply Hexact. intros id [<-|[<-|[]]]; simpl; tauto. }
    exists rows. split; [exact Hdisk|]. split; [exact Hnd|].
    split; [exact Hall|].
    intros HB. apply Hall in HB. destruct HB as [HB|[HB|[]]]; discriminate.
  - destruct (syncDatabase_drops_rows_only_in_full_mode 3
                Sample.members_id "members" Sample.opts_incremental
                Sample.w_loaded incr ltac:(vm_compute; reflexivity))
      as (changed & w1 & stored & merged & w2 & rows & Hq & Hst & _ & _ & _
          & Hdisk & Hnd & _ & _ & Hincr).
    destruct (Hincr eq_refl) as (Hiff & _ & _ & Hkept). clear Hincr.
    pose proof (f_equal fst Hq) as Hc. cbn [fst] in Hc.
    vm_compute in Hc. injection Hc as <-.
    vm_compute in Hst. injection Hst as <-.
    exists rows. split; [exact Hdisk|]. split; [exact Hnd|]. split.
    + intros id. rewrite Hiff. simpl. tauto.
    + apply Hkept.
      * apply (bool_decide_unpack _). vm_compute. exact I.
      * right. left. reflexivity.
      * simpl. intros [HB|[]]. discriminate.
Defined.

Lemma syncDatabase_keeps_no_cached_cover_witness :
  let w' := snd (syncDatabase 3 Sample.members_id "members"
                   Sample.opts_incremental Sample.w_covered) in
  cached_local (mem w') "page:A:cover"
  = Some "./images/cover-4f9be057f0ea.png"
  /\ exists r rest,
       disk w' !! db_file "members" = Some (FDb (r :: rest))
       /\ row_id r = "A"
       /\ row_cover_local r = None.
Proof.
  intros w'.
  split; [vm_compute; reflexivity|].
  destruct (syncDatabase_keeps_no_cached_cover 3
              Sample.members_id "members" Sample.opts_incremental
              Sample.w_covered w' ltac:(vm_compute; reflexivity))
    as (changed & w1 & rows & Hq & Hdisk & Hall).
  vm_compute in Hq. injection Hq as <- _.
  assert (Hd : disk w' !! db_file "members"
               = Some (FDb [Sample.row_A'; Sample.row_B; Sample.row_C]))
    by (vm_compute; reflexivity).
  rewrite Hdisk in Hd. injection Hd as ->.
  exists Sample.row_A', [Sample.row_B; Sample.row_C].
  split; [exact Hdisk|]. split; [reflexivity|].
  destruct (Hall Sample.row_A') as (p & Hp & _ & _ & _ & _ & _ & Hnone).
  - now left.
  - now left.
  - destruct Hp as [<-|[]]. now apply Hnone.
Defined.

(** ** Progress of a database sync *)

Lemma returns_ret {A} (a : A) : returns (ret a).
Proof. intros w. now exists a, w. Qed.

Lemma returns_bind {A B} (m : M A) (k : A -> M B) :
  returns m -> (forall a, returns (k a)) -> returns (bind m k).
Proof.
  intros Hm Hk w. destruct (Hm w) as (a & w1 & E).
  destruct (Hk a w1) as (b & w2 & E2).
  exists b, w2. now rewrite (bind_ok _ _ _ _ _ E).
Qed.

Lemma returns_terminates {A} (m : M A) : returns m -> terminates m.
Proof. intros H w. destruct (H w) as (a & w' & ->). discriminate. Qed.

Lemma terminates_bind {A B} (m : M A) (k : A -> M B) :
  terminates m -> (forall a, terminates (k a)) -> terminates (bind m k).
Proof.
  intros Hm Hk w. unfold bind. specialize (Hm w).
  destruct (m w) as [[a|e|] w1]; simpl in *; [apply Hk|discriminate|easy].
Qed.

Lemma terminates_of_sum {A} (r : World -> Err + A) (f : World -> World) :
  terminates (fun w => of_sum (r w) (f w)).
Proof. intros w. destruct (r w); discriminate. Qed.

Lemma terminates_write_file path f : terminates (write_file path f).
Proof.
  intros w. unfold write_file. destruct (fs_write_ok _ _ _); discriminate.
Qed.

(** A caught computation that cannot run out of fuel returns whenever its
    handler does. *)
Lemma returns_try_catch {A} (m : M A) h :
  terminates m -> (forall e, returns (h e)) -> returns (try_catch m h).
Proof.
  intros Hm Hh w. unfold try_catch. specialize (Hm w).
  destruct (m w) as [[a|e|] w1]; simpl in *.
  - now exists a, w1.
  - apply Hh.
  - easy.
Qed.

Lemma returns_for_each_i {A B} (f : nat -> A -> M B) xs :
  (forall i x, returns (f i x)) -> forall i, returns (for_each_i f i xs).
Proof.
  intros Hf. induction xs as [|x r IH]; intros i; simpl.
  - apply returns_ret.
  - apply returns_bind; [apply Hf|]. intros y.
    apply returns_bind; [apply IH|]. intros ys. apply returns_ret.
Qed.

Lemma returns_for_each {A B} (f : A -> M B) xs :
  (forall x, returns (f x)) -> returns (for_each f xs).
Proof.
  intros Hf. induction xs as [|x r IH]; simpl.
  - apply returns_ret.
  - apply returns_bind; [apply Hf|]. intros y.
    apply returns_bind; [apply IH|]. intros ys. apply returns_ret.
Qed.

(** An asset failure is never rethrown: [downloadFileCached] always
    returns. *)
Lemma downloadFileCached_returns key url hint :
  returns (downloadFileCached key url hint).
Proof.
  unfold downloadFileCached.
  apply returns_bind; [intros w; now exists (mem w), w|]. intros state.
  destruct url as [u|]; [|apply returns_ret].
  destruct (negb (Js.truthy u)); [apply returns_ret|].
  apply returns_bind.
  { destruct (cached_local state key); [|apply returns_ret].
    intros w. eexists. eexists. reflexivity. }
  intros [|]; [apply returns_ret|].
  apply returns_try_catch; [|intros; apply returns_ret].
  apply terminates_bind.
  { apply (terminates_of_sum (fun w => net_fetch (env w) (tick w) u)). }
  intros res. destruct (negb (resp_ok res)).
  { apply returns_terminates, returns_ret. }
  apply terminates_bind.
  { intros w. destruct (resp_body res); discriminate. }
  intros buf. apply terminates_bind; [now intros w|]. intros e.
  apply terminates_bind; [now intros w|]. intros present.
  apply terminates_bind.
  { destruct present; [now intros w|apply terminates_write_file]. }
  intros _. apply terminates_bind; [now intros w|]. intros now.
  apply terminates_bind; [now intros w|]. intros _.
  apply returns_terminates, returns_ret.
Qed.

(** Without the blocks of the rows, the sync of a row always returns. *)
Lemma syncRow_returns fuel p : returns (syncRow fuel false p).
Proof.
  unfold syncRow. apply returns_bind.
  { destruct (Js.otruthy _); [|apply returns_ret].
    apply returns_bind; [apply downloadFileCached_returns|].
    intros. apply returns_ret. }
  intros p1. apply returns_bind; [|intros; apply returns_ret].
  apply returns_for_each. intros [name prop]. simpl.
  destruct prop; [|apply returns_ret].
  apply returns_bind; [|intros; apply returns_ret].
  apply returns_for_each_i. intros i f.
  apply returns_bind; [apply downloadFileCached_returns|].
  intros. apply returns_ret.
Qed.

Lemma upsertRows_returns fuel rows :
  forall byId, returns (upsertRows fuel false rows byId).
Proof.
  induction rows as [|p rest IH]; intros byId; simpl.
  - apply returns_ret.
  - apply returns_bind; [apply syncRow_returns|]. intros p'.
    apply returns_bind; [|intros; apply IH].
    intros w. eexists. eexists. reflexivity.
Qed.

#[local] Instance same_env_preorder : PreOrder same_env.
Proof.
  split; [now intros w|]. intros w1 w2 w3 H1 H2. unfold same_env in *.
  congruence.
Qed.

(** A primitive never changes the environment. *)
Ltac same_env_prim :=
  intros;
  let w := fresh "w" in
  intro w;
  unfold same_env, fetch, pages_retrieve, blocks_children_list,
    databases_query, write_file;
  cbn;
  try match goal with |- context [of_sum ?r] => destruct r end;
  try match goal with |- context [fs_write_ok ?a ?b ?c] =>
        destruct (fs_write_ok a b c) end;
  reflexivity.

Lemma upsertRows_same_env fuel fb rows byId :
  preserves same_env (upsertRows fuel fb rows byId).
Proof. apply (preserves_upsertRows same_env); same_env_prim. Qed.

(** A database that answers every query at once with a last page. *)
Lemma paginate_single_page fuel db filter w :
  (forall t c f, exists l,
      api_db_query (env w) t db c f = inr l /\ has_more l = false) ->
  exists l,
    api_db_query (env w) (tick w) db None filter = inr l
    /\ paginate (S fuel) (fun c => databases_query db c filter) None [] w
       = (Ok (results l),
          logged (EvDbQuery db None filter) (ticked w)).
Proof.
  intros Hall. destruct (Hall (tick w) None filter) as (l & Hl & Hmore).
  exists l. split; [exact Hl|]. simpl paginate.
  erewrite bind_run.
  2:{ apply withRetry_ok. unfold databases_query. rewrite Hl. reflexivity. }
  cbv beta iota. now rewrite Hmore.
Qed.

(** When the database answers every query at once with a last page, the
    snapshot file, if there is one, is a database snapshot, the file
    system accepts the write of the snapshot, and the blocks of the rows
    are not asked for, the sync returns. *)
Lemma syncDatabase_returns fuel db outName options w stored :
  (forall t c f, exists l,
      api_db_query (env w) t db c f = inr l /\ has_more l = false) ->
  fetchBlocksForRows options = false ->
  stored_rows (disk w) outName = Some stored ->
  (forall t, fs_write_ok (env w) t (db_file outName) = true) ->
  exists w', syncDatabase (S fuel) db outName options w = (Ok tt, w').
Proof.
  intros Hapi Hfb Hst Hwrite. unfold syncDatabase, queryDatabaseIncremental.
  destruct (paginate_single_page fuel db
              (since_filter (if fullMode options then None
                             else sinceISO options)) w Hapi)
    as (l & _ & Hq).
  set (w1 := logged _ (ticked w)) in Hq.
  rewrite (bind_ok _ _ _ _ _ Hq).
  assert (Hload : loadSnapshot (db_file outName) w1 = (Ok stored, w1)).
  { unfold loadSnapshot. change (disk w1) with (disk w).
    unfold stored_rows in Hst.
    destruct (disk w !! db_file outName) as [[]|]; congruence. }
  rewrite (bind_ok _ _ _ _ _ Hload). rewrite Hfb.
  destruct (upsertRows_returns (S fuel) (results l)
              (JsMap.of_entries (map (fun x => (row_id x, x)) stored)) w1)
    as (byId & w2 & Hup).
  rewrite (bind_ok _ _ _ _ _ Hup).
  assert (Henv2 : env w2 = env w).
  { pose proof (upsertRows_same_env (S fuel) false (results l)
                  (JsMap.of_entries (map (fun x => (row_id x, x)) stored))
                  w1) as H.
    rewrite Hup in H. exact H. }
  assert (Hfinal : forall byId' w3,
            env w3 = env w ->
            exists w', write_file (db_file outName)
                         (FDb (JsMap.values byId')) w3 = (Ok tt, w')).
  { intros byId' w3 Henv. unfold write_file. rewrite Henv, Hwrite.
    eexists. reflexivity. }
  destruct (fullMode options).
  - destruct (paginate_single_page fuel db None w2) as (l2 & _ & Hq2).
    { intros t c f. rewrite Henv2. apply Hapi. }
    assert (Hids : fullIdsInDatabase (S fuel) db w2
                   = (Ok (map row_id (results l2)),
                      logged (EvDbQuery db None None) (ticked w2))).
    { unfold fullIdsInDatabase. now rewrite (bind_ok _ _ _ _ _ Hq2). }
    rewrite (bind_ok _ _ _ _ _
               (bind_ok _ (fun ids => ret _) _ _ _ Hids)).
    apply Hfinal. exact Henv2.
  - rewrite bind_ret_l. apply Hfinal. exact Henv2.
Qed.

(* ================================================================== *)
(** * Part III. Further properties of the code                         *)
(* ================================================================== *)

(** ** Reasoning forward along a run *)

Section Wp.

Context {A B : Type}.

Lemma wp_run (m : M A) Q w : wp m Q w -> forall r w', m w = (r, w') -> Q r w'.
Proof. unfold wp. intros H r w' E. now rewrite E in H. Qed.

Lemma wp_ret (a : A) (Q : Res A -> World -> Prop) w :
  Q (Ok a) w -> wp (ret a) Q w.
Proof. exact (fun H => H). Qed.

Lemma wp_throw e (Q : Res A -> World -> Prop) w :
  Q (Throw e) w -> wp (throw e) Q w.
Proof. exact (fun H => H). Qed.

Lemma wp_mono (m : M A) (Q Q' : Res A -> World -> Prop) w :
  wp m Q w -> (forall r w', Q r w' -> Q' r w') -> wp m Q' w.
Proof. unfold wp. auto. Qed.

Lemma wp_bind (m : M A) (k : A -> M B) (Q : Res B -> World -> Prop) w :
  wp m (fun r w1 =>
          match r with
          | Ok a => wp (k a) Q w1
          | Throw e => Q (Throw e) w1
          | OutOfFuel => Q OutOfFuel w1
          end) w ->
  wp (bind m k) Q w.
Proof. unfold wp, bind. now destruct (m w) as [[a|e|] w1]. Qed.

Lemma wp_try_catch (m : M A) h (Q : Res A -> World -> Prop) w :
  wp m (fun r w1 =>
          match r with
          | Throw e => wp (h e) Q w1
          | _ => Q r w1
          end) w ->
  wp (try_catch m h) Q w.
Proof. unfold wp, try_catch. now destruct (m w) as [[a|e|] w1]. Qed.

Lemma wp_of_sum (r : Err + A) (Q : Res A -> World -> Prop) w :
  (forall e, r = inl e -> Q (Throw e) w) ->
  (forall a, r = inr a -> Q (Ok a) w) ->
  wp (of_sum r) Q w.
Proof. destruct r; unfold wp; simpl; auto. Qed.

End Wp.

Lemma wp_fetch u (Q : Res HttpResponse -> World -> Prop) w :
  (forall e, net_fetch (env w) (tick w) u = inl e ->
             Q (Throw e) (logged (EvFetch u) (ticked w))) ->
  (forall res, net_fetch (env w) (tick w) u = inr res ->
               Q (Ok res) (logged (EvFetch u) (ticked w))) ->
  wp (fetch u) Q w.
Proof. intros. unfold fetch. now apply wp_of_sum. Qed.

Lemma wp_write_file path f (Q : Res unit -> World -> Prop) w :
  (fs_write_ok (env w) (tick w) path = true ->
   Q (Ok tt) (with_disk (<[path := f]> (disk w)) (logged (EvWrite path) w))) ->
  (fs_write_ok (env w) (tick w) path = false ->
   Q (Throw (ErrFs path)) (logged (EvWrite path) w)) ->
  wp (write_file path f) Q w.
Proof.
  intros H1 H2. unfold wp, write_file.
  destruct (fs_write_ok _ _ _); simpl; auto.
Qed.

Lemma wp_exists_file path (Q : Res bool -> World -> Prop) w :
  (forall f, disk w !! path = Some f -> Q (Ok true) w) ->
  (disk w !! path = None -> Q (Ok false) w) ->
  wp (exists_file path) Q w.
Proof.
  intros H1 H2. unfold wp, exists_file. simpl.
  destruct (disk w !! path) as [f|] eqn:E.
  - rewrite bool_decide_eq_true_2 by eauto. eauto.
  - rewrite bool_decide_eq_false_2 by (intros [? ?]; discriminate). auto.
Qed.

Lemma wp_get_mem (Q : Res SyncState -> World -> Prop) w :
  Q (Ok (mem w)) w -> wp get_mem Q w.
Proof. exact (fun H => H). Qed.

Lemma wp_get_env (Q : Res Env -> World -> Prop) w :
  Q (Ok (env w)) w -> wp get_env Q w.
Proof. exact (fun H => H). Qed.

Lemma wp_get_now (Q : Res Z -> World -> Prop) w :
  Q (Ok (clock (env w) (tick w))) w -> wp get_now Q w.
Proof. exact (fun H => H). Qed.

Lemma wp_set_image key rec (Q : Res unit -> World -> Prop) w :
  Q (Ok tt) (snd (set_image key rec w)) -> wp (set_image key rec) Q w.
Proof. exact (fun H => H). Qed.

(** Follows straight-line code to each of its exits. *)
Ltac wp_steps :=
  repeat match goal with
    | |- wp (ret _) _ _ => apply wp_ret
    | |- wp (throw _) _ _ => apply wp_throw
    | |- wp (bind _ _) _ _ => apply wp_bind
    | |- wp (try_catch _ _) _ _ => apply wp_try_catch
    | |- wp (fetch _) _ _ => apply wp_fetch; intros ? ?
    | |- wp (write_file _ _) _ _ => apply wp_write_file; intros ?
    | |- wp (exists_file _) _ _ =>
        apply wp_exists_file; [intros ? ?|intros ?]
    | |- wp (of_sum _) _ _ => apply wp_of_sum; intros ? ?
    | |- wp get_mem _ _ => apply wp_get_mem
    | |- wp get_env _ _ => apply wp_get_env
    | |- wp get_now _ _ => apply wp_get_now
    | |- wp (set_image _ _) _ _ => apply wp_set_image
    | |- wp (if ?b then _ else _) _ _ => destruct b eqn:?
    | |- wp (match ?x with _ => _ end) _ _ => destruct x eqn:?
    end.

(** ** The asset cache, whatever the path taken *)

(** Every exit of [downloadFileCached] at once: the value returned, what
    became of the disk and of the state, and the effects logged. *)
Lemma asset_outcome key url hint w :
  wp (downloadFileCached key url hint)
     (fun r w' =>
        r = Ok (cached_local (mem w') key)
        /\ files_kept w w' /\ only_images_written w w'
        /\ only_images_recorded w w' /\ records_kept w w'
        /\ (forall k, k <> key -> record_untouched k w w')
        /\ env w' = env w
        /\ (trace w' = trace w
            \/ exists u,
                 url = Some u /\
                 (trace w' = trace w ++ [EvFetch u]
                  \/ exists name,
                       trace w'
                       = trace w ++ [EvFetch u; EvWrite (in_IMG_DIR name)])))
     w.
Proof.
  unfold downloadFileCached. wp_steps.
  all: unfold files_kept, only_images_written, only_images_recorded,
         records_kept, record_untouched.
  all: cbn.
  all: repeat match goal with |- _ /\ _ => split end.
  all: try reflexivity; try (intros; assumption); try congruence.
  all: try (now left).
  all: try (right; eexists; split; [reflexivity|]; now left).
  all: try (right; eexists; split; [reflexivity|]; right; eexists;
            rewrite <- app_assoc; reflexivity).
  all: try (unfold cached_local; cbn; rewrite lookup_insert_eq; reflexivity).
  all: try (intros k Hk; now rewrite lookup_insert_ne by congruence).
  all: try (intros k Hk; destruct (decide (k = key)) as [->|];
            [rewrite lookup_insert_eq; eauto
            |now rewrite lookup_insert_ne by congruence]).
  all: try (intros p f Hp; rewrite lookup_insert_ne; [exact Hp|];
            intros <-; cbn in *; congruence).
  all: try (intros p Hp; apply lookup_insert_ne; intros <-; now apply (Hp _)).
Qed.

(** X1. [downloadFileCached] never throws, and what it returns is what
    the state records for the key once the call is over: the local path
    of the record of the key when that record has one, [null] when it
    has none. *)
Theorem downloadFileCached_returns_what_is_recorded key url hint w :
  fst (downloadFileCached key url hint w)
  = Ok (cached_local (mem (snd (downloadFileCached key url hint w))) key).
Proof. apply (asset_outcome key url hint w). Qed.

(** X2. [downloadFileCached] never deletes a file and never changes the
    content of a file that exists, not even the file whose name the
    download computes; and outside the image directory the disk after
    the call is the disk before it. *)
Theorem downloadFileCached_never_overwrites key url hint w :
  let w' := snd (downloadFileCached key url hint w) in
  files_kept w w' /\ only_images_written w w'.
Proof.
  pose proof (asset_outcome key url hint w) as H. unfold wp in H.
  cbv zeta. tauto.
Qed.

(** X3. Of the sync state, [downloadFileCached] changes at most the
    record of its own key: the watermark, the page stamps and the row
    stamps are as before, the record of every other key is as before,
    and no record is ever removed. *)
Theorem downloadFileCached_touches_one_record key url hint w :
  let w' := snd (downloadFileCached key url hint w) in
  only_images_recorded w w'
  /\ records_kept w w'
  /\ forall k, k <> key -> record_untouched k w w'.
Proof.
  pose proof (asset_outcome key url hint w) as H. unfold wp in H.
  cbv zeta. tauto.
Qed.

(** X4. One call of [downloadFileCached] makes at most one request, to
    the URL it was given, followed by at most one write, into the image
    directory: a failed download is not retried, and the call neither
    sleeps nor calls the remote API. *)
Theorem downloadFileCached_fetches_at_most_once key url hint w :
  let w' := snd (downloadFileCached key url hint w) in
  trace w' = trace w
  \/ exists u,
       url = Some u /\
       (trace w' = trace w ++ [EvFetch u]
        \/ exists name,
             trace w' = trace w ++ [EvFetch u; EvWrite (in_IMG_DIR name)]).
Proof.
  pose proof (asset_outcome key url hint w) as H. unfold wp in H.
  cbv zeta. tauto.
Qed.

(** ** Footprints *)

#[local] Instance within_preorder K P D F : PreOrder (within K P D F).
Proof.
  split.
  - intros w. split; unfold records_kept, image_files_kept; auto.
  - intros w1 w2 w3 [e1 m1 r1 k1 p1 d1 f1 i1] [e2 m2 r2 k2 p2 d2 f2 i2].
    split; try congruence.
    + intros k Hk. rewrite r2, r1; auto.
    + intros k Hk. auto.
    + intros k Hk. rewrite p2, p1; auto.
    + intros k Hk. rewrite d2, d1; auto.
    + intros p Hp Hn. rewrite f2, f1; auto.
    + intros n f Hf. auto.
Qed.

(** An effect that only logs and advances the tick is within any
    footprint. *)
Lemma within_log K P D F w w' :
  env w' = env w -> mem w' = mem w -> disk w' = disk w ->
  within K P D F w w'.
Proof.
  intros He Hm Hd. split; unfold records_kept, image_files_kept;
    rewrite ?He, ?Hm, ?Hd; auto.
Qed.

Lemma within_api K P D F {A} (r : Err + A) e w :
  within K P D F w (snd (of_sum r (logged e (ticked w)))).
Proof. destruct r; now apply within_log. Qed.

Lemma in_IMG_DIR_not_out a b : in_IMG_DIR a <> in_OUT_DIR b.
Proof. discriminate. Qed.

Section Footprint.

Variables K P D F : string -> Prop.

Lemma within_sleep ms : preserves (within K P D F) (sleep ms).
Proof. intros w. now apply within_log. Qed.

Lemma within_blocks id c :
  preserves (within K P D F) (blocks_children_list id c).
Proof. intros w. apply within_api. Qed.

Lemma within_pages id : preserves (within K P D F) (pages_retrieve id).
Proof. intros w. apply within_api. Qed.

Lemma within_query db c f :
  preserves (within K P D F) (databases_query db c f).
Proof. intros w. apply within_api. Qed.

Lemma within_asset key url hint :
  K key -> preserves (within K P D F) (downloadFileCached key url hint).
Proof.
  intros HK w.
  destruct (asset_outcome key url hint w)
    as (_ & Hkept & Hdisk & (Hwm & Hpg & Hrows) & Hrec & Hother & Henv & _).
  split; auto.
  - intros k Hk. apply Hother. intros ->. now apply Hk.
  - intros id _. now rewrite Hpg.
  - intros id _. now rewrite Hrows.
  - intros n f. apply Hkept.
Qed.

Lemma within_write_out name f :
  F (in_OUT_DIR name) ->
  preserves (within K P D F) (write_file (in_OUT_DIR name) f).
Proof.
  intros HF w. unfold write_file.
  destruct (fs_write_ok _ _ _); [|now apply within_log].
  split; unfold records_kept, image_files_kept; cbn; auto.
  - intros p Hp _. apply lookup_insert_ne. intros <-. now apply Hp.
  - intros n g Hg. rewrite lookup_insert_ne; [exact Hg|].
    intros E. now apply (in_IMG_DIR_not_out n name).
Qed.

Lemma within_set_page id ps :
  P id -> preserves (within K P D F) (set_page id ps).
Proof.
  intros HP w. split; unfold records_kept, image_files_kept; cbn; auto.
  - intros i Hi. apply lookup_insert_ne. intros <-. now apply Hi.
Qed.

Lemma within_set_dbItem id t :
  D id -> preserves (within K P D F) (set_dbItem id t).
Proof.
  intros HD w. split; unfold records_kept, image_files_kept; cbn; auto.
  - intros i Hi. apply lookup_insert_ne. intros <-. now apply Hi.
Qed.

Hypothesis K_image : forall id, K ("block:" +:+ id +:+ ":image").
Hypothesis K_file : forall id, K ("block:" +:+ id +:+ ":file").

Lemma within_listBlocks fuel :
  forall blockId, preserves (within K P D F) (listBlocks fuel blockId).
Proof.
  pose proof within_sleep. pose proof within_blocks.
  induction fuel as [|fuel IH]; intros blockId; simpl; preserve;
    apply within_asset; auto.
Qed.


Hypothesis K_cover : forall id, K ("page:" +:+ id +:+ ":cover").

Lemma within_fetchChangedPage fuel pageId aliasOut prev meta :
  P pageId -> F (page_file pageId aliasOut) ->
  preserves (within K P D F)
    (fetchChangedPage fuel pageId aliasOut prev meta).
Proof.
  intros HP HF. unfold fetchChangedPage. unfold page_file in HF.
  preserve;
    first [ apply within_listBlocks | now apply within_asset
          | now apply within_write_out | now apply within_set_page ].
Qed.

Lemma within_fetchPageIfChanged fuel pageId aliasOut :
  P pageId -> F (page_file pageId aliasOut) ->
  preserves (within K P D F) (fetchPageIfChanged fuel pageId aliasOut).
Proof.
  intros HP HF. pose proof within_sleep. pose proof within_pages.
  unfold fetchPageIfChanged. preserve.
  now apply within_fetchChangedPage.
Qed.

Hypothesis K_prop :
  forall id name i,
    K ("page:" +:+ id +:+ ":prop:" +:+ name +:+ ":" +:+ Js.of_nat i).

Lemma within_syncPropFiles rowId propName files :
  preserves (within K P D F) (syncPropFiles rowId propName files).
Proof. unfold syncPropFiles. preserve. now apply within_asset. Qed.

Lemma within_syncRow fuel fb p :
  preserves (within K P D F) (syncRow fuel fb p).
Proof.
  unfold syncRow. preserve;
    first [ now apply within_asset | apply within_syncPropFiles
          | apply within_listBlocks ].
Qed.

Hypothesis D_any : forall id, D id.

Lemma within_upsertRows fuel fb rows :
  forall byId, preserves (within K P D F) (upsertRows fuel fb rows byId).
Proof.
  induction rows as [|p rest IH]; intros byId; simpl; preserve;
    first [ apply within_syncRow | now apply within_set_dbItem ].
Qed.

Lemma within_queryDatabaseIncremental fuel db since :
  preserves (within K P D F) (queryDatabaseIncremental fuel db since).
Proof.
  pose proof within_sleep. pose proof within_query.
  unfold queryDatabaseIncremental. preserve.
Qed.

Lemma within_fullIdsInDatabase fuel db :
  preserves (within K P D F) (fullIdsInDatabase fuel db).
Proof.
  pose proof within_sleep. pose proof within_query.
  unfold fullIdsInDatabase. preserve.
Qed.

Lemma within_syncDatabase fuel db outName options :
  F (db_file outName) ->
  preserves (within K P D F) (syncDatabase fuel db outName options).
Proof.
  intros HF. unfold syncDatabase. unfold db_file in HF.
  preserve;
    first [ apply within_queryDatabaseIncremental | apply within_upsertRows
          | apply within_fullIdsInDatabase | now apply within_write_out ].
Qed.

End Footprint.

Lemma prefix_append p s : String.prefix p (p +:+ s) = true.
Proof.
  induction p as [|c p IH]; [now destruct s|].
  change (String c p +:+ s) with (String c (p +:+ s)). simpl.
  destruct (ascii_dec c c); [exact IH|congruence].
Qed.

Lemma block_key_image id : block_key ("block:" +:+ id +:+ ":image").
Proof. apply prefix_append. Qed.

Lemma block_key_file id : block_key ("block:" +:+ id +:+ ":file").
Proof. apply prefix_append. Qed.

(** X5. [listBlocks] changes nothing of the sync state but asset
    records under keys that start with [block:], removes no record, and
    writes no file outside the image directory, where it leaves every
    existing file as it is: no page stamp, no row stamp and no snapshot
    is touched by fetching a tree of blocks. *)
Theorem listBlocks_footprint fuel blockId w :
  within block_key nowhere nowhere nowhere
         w (snd (listBlocks fuel blockId w)).
Proof.
  apply within_listBlocks; [apply block_key_image|apply block_key_file].
Qed.

(** X6. Whatever its outcome, the sync of the page [pageId] changes at
    most: the stamp of [pageId] among the page stamps, no row stamp, the
    asset records of blocks and of covers, its own snapshot file, and the
    image directory, to which it only adds files. The stamps of the other
    pages, the other snapshots, the state file and the watermark are as
    before. *)
Theorem fetchPageIfChanged_footprint fuel pageId aliasOut w :
  within (fun k => block_key k \/ cover_key k)
         (fun id => id = pageId)
         nowhere
         (fun p => p = page_file pageId aliasOut)
         w (snd (fetchPageIfChanged fuel pageId aliasOut w)).
Proof.
  apply within_fetchPageIfChanged; try reflexivity.
  - intros id. left. apply block_key_image.
  - intros id. left. apply block_key_file.
  - intros id. right. now exists id.
Qed.

(** X7. Whatever its outcome, the sync of a database changes no page
    stamp and not the watermark; of the files outside the image
    directory it changes at most its own snapshot [db-<outName>.json],
    so neither the snapshot of another database nor that of a page nor
    the state file; the asset records it changes have keys that start
    with [page:] or [block:]; and it only adds files to the image
    directory. *)
Theorem syncDatabase_footprint fuel db outName options w :
  within (fun k => block_key k \/ page_key k)
         nowhere
         anywhere
         (fun p => p = db_file outName)
         w (snd (syncDatabase fuel db outName options w)).
Proof.
  apply within_syncDatabase; try reflexivity; intros.
  - left. apply block_key_image.
  - left. apply block_key_file.
  - right. apply prefix_append.
  - right. apply prefix_append.
Qed.
#[local] Instance image_files_kept_preorder : PreOrder image_files_kept.
Proof.
  split.
  - intros w n f H. exact H.
  - intros w1 w2 w3 H12 H23 n f H. eauto.
Qed.

Lemma preserves_weaken (R R' : World -> World -> Prop) {A} (m : M A) :
  (forall w w', R w w' -> R' w w') -> preserves R m -> preserves R' m.
Proof. intros H Hm w. apply H, Hm. Qed.

Lemma image_files_kept_same_disk w w' :
  disk w' = disk w -> image_files_kept w w'.
Proof. intros E n f. now rewrite E. Qed.

Lemma image_files_kept_page_step fuel id aliasOut :
  preserves image_files_kept (page_step fuel id aliasOut).
Proof.
  destruct id as [pageId|]; simpl; preserve.
  apply (preserves_weaken (within anywhere anywhere anywhere anywhere));
    [intros w w'; apply wi_images|].
  now apply within_fetchPageIfChanged.
Qed.

Lemma image_files_kept_db_step fuel id outName options :
  preserves image_files_kept (db_step fuel id outName options).
Proof.
  destruct id as [db|]; simpl; preserve.
  apply (preserves_weaken (within anywhere anywhere anywhere anywhere));
    [intros w w'; apply wi_images|].
  now apply within_syncDatabase.
Qed.

Lemma image_files_kept_write p f :
  (forall name, in_IMG_DIR name <> p) ->
  preserves image_files_kept (write_file p f).
Proof.
  intros Hp w n g Hg. unfold write_file.
  destruct (fs_write_ok _ _ _); cbn; [|exact Hg].
  rewrite lookup_insert_ne; [exact Hg|]. intros E. now apply (Hp n).
Qed.

(** X8. A run never deletes a file of the image directory and never
    changes the content of one: whatever the run does and however it
    ends, every file found there at the start is there at the end, as it
    was. *)
Theorem main_keeps_image_files fuel cfg flags w :
  image_files_kept w (snd (main fuel cfg flags w)).
Proof.
  enough (preserves image_files_kept (main fuel cfg flags)) as H by apply H.
  unfold main, syncResources, saveState. preserve;
    first [ apply image_files_kept_page_step
          | apply image_files_kept_db_step
          | apply image_files_kept_write, in_IMG_DIR_not_state
          | intros w0; now apply image_files_kept_same_disk ].
Qed.

(** ** What a failed sync leaves behind *)

Section Failure.

Context {A B : Type}.
Variable R : World -> World -> Prop.
Context `{!PreOrder R}.

Lemma fails_within_bind (m : M A) (k : A -> M B) w0 w :
  R w0 w -> preserves R m ->
  (forall a w1, R w0 w1 -> wp (k a) (fails_within R w0) w1) ->
  wp (bind m k) (fails_within R w0) w.
Proof.
  intros H0 Hm Hk. apply wp_bind. unfold wp. specialize (Hm w).
  destruct (m w) as [[a|e|] w1]; simpl in *.
  - apply Hk. now transitivity w.
  - intros _. now transitivity w.
  - intros _. now transitivity w.
Qed.

Lemma fails_within_ok (a : A) w0 w : wp (ret a) (fails_within R w0) w.
Proof. apply wp_ret. discriminate. Qed.

End Failure.
Lemma within_retrieve K P D F pageId :
  preserves (within K P D F) (withRetry (pages_retrieve pageId) 5).
Proof.
  pose proof (within_sleep K P D F). pose proof (within_pages K P D F).
  preserve.
Qed.

(** X9. A sync of a page that fails, at whichever step (retrieving the
    metadata, fetching the blocks, writing the snapshot), has recorded no
    stamp and written no snapshot: the page stamps, the row stamps, the
    watermark and every file outside the image directory are as before,
    so the next run finds the page still to be synced. Only asset records
    of blocks and covers, and new image files, may remain. *)
Theorem fetchPageIfChanged_failure_records_nothing fuel pageId aliasOut w :
  let r := fst (fetchPageIfChanged fuel pageId aliasOut w) in
  let w' := snd (fetchPageIfChanged fuel pageId aliasOut w) in
  is_ok r = false ->
  within (fun k => block_key k \/ cover_key k) nowhere nowhere nowhere w w'.
Proof.
  set (K := fun k => block_key k \/ cover_key k).
  assert (HKi : forall id, K ("block:" +:+ id +:+ ":image"))
    by (intros; left; apply block_key_image).
  assert (HKf : forall id, K ("block:" +:+ id +:+ ":file"))
    by (intros; left; apply block_key_file).
  assert (HKc : forall id, K ("page:" +:+ id +:+ ":cover"))
    by (intros id; right; now exists id).
  set (R := within K nowhere nowhere nowhere).
  change (wp (fetchPageIfChanged fuel pageId aliasOut) (fails_within R w) w).
  unfold fetchPageIfChanged.
  apply fails_within_bind; [apply _|reflexivity|apply within_retrieve|].
  intros meta w1 H1. apply wp_bind, wp_get_mem.
  destruct (negb _); [apply fails_within_ok|].
  unfold fetchChangedPage.
  apply fails_within_bind; [apply _|exact H1|now apply within_listBlocks|].
  intros blocks w2 H2.
  apply fails_within_bind; [apply _|exact H2| |].
  { preserve. now apply within_asset. }
  intros localCover w3 H3.
  apply wp_bind, wp_write_file; intros Hw.
  - apply wp_bind. unfold wp at 1. cbn [fst snd set_page].
    apply fails_within_ok.
  - intros _. transitivity w3; [exact H3|]. now apply within_log.
Qed.

Lemma fetchPageIfChanged_failure_records_nothing_witness :
  let run := fetchPageIfChanged 3 Sample.home_id (Some "home")
               Scenario.w_locked in
  fst run = Throw (ErrFs "notion-data/page-home.json")
  /\ is_Some (images (mem (snd run)) !! "page:11111111-1111-1111-1111-111111111111:cover")
  /\ within (fun k => block_key k \/ cover_key k) nowhere nowhere nowhere
            Scenario.w_locked (snd run).
Proof.
  cbv zeta. split; [vm_compute; reflexivity|].
  split; [vm_compute; eauto|].
  apply (fetchPageIfChanged_failure_records_nothing 3 Sample.home_id
           (Some "home") Scenario.w_locked).
  vm_compute. reflexivity.
Defined.

(** X10. A sync of a database that fails, at whichever step, has written
    no snapshot: every file outside the image directory, the stored
    snapshot of the database included, is as before, and so are the page
    stamps and the watermark. Row stamps and asset records of the rows
    handled before the failure may remain. *)
Theorem syncDatabase_failure_writes_no_snapshot fuel db outName options w :
  let r := fst (syncDatabase fuel db outName options w) in
  let w' := snd (syncDatabase fuel db outName options w) in
  is_ok r = false ->
  within (fun k => block_key k \/ page_key k) nowhere anywhere nowhere w w'.
Proof.
  set (K := fun k => block_key k \/ page_key k).
  assert (HKi : forall id, K ("block:" +:+ id +:+ ":image"))
    by (intros; left; apply block_key_image).
  assert (HKf : forall id, K ("block:" +:+ id +:+ ":file"))
    by (intros; left; apply block_key_file).
  assert (HKc : forall id, K ("page:" +:+ id +:+ ":cover"))
    by (intros id; right; apply prefix_append).
  assert (HKp : forall id name i,
             K ("page:" +:+ id +:+ ":prop:" +:+ name +:+ ":" +:+ Js.of_nat i))
    by (intros; right; apply prefix_append).
  set (R := within K nowhere anywhere nowhere).
  change (wp (syncDatabase fuel db outName options) (fails_within R w) w).
  unfold syncDatabase.
  apply fails_within_bind;
    [apply _|reflexivity|apply within_queryDatabaseIncremental|].
  intros changed w1 H1.
  apply fails_within_bind; [apply _|exact H1|preserve|].
  intros stored w2 H2.
  apply fails_within_bind;
    [apply _|exact H2|now apply within_upsertRows|].
  intros byId w3 H3.
  apply fails_within_bind; [apply _|exact H3| |].
  { preserve. apply within_fullIdsInDatabase. }
  intros byId' w4 H4.
  apply wp_write_file; intros Hw; [discriminate|].
  intros _. transitivity w4; [exact H4|]. now apply within_log.
Qed.

Lemma syncDatabase_failure_writes_no_snapshot_witness :
  let run := syncDatabase 3 Sample.members_id "members" Sample.opts_full
               Scenario.w_locked in
  fst run = Throw (ErrFs "notion-data/db-members.json")
  /\ dbItems (mem (snd run)) !! "A" = Some "2024-05-02T09:00:00.000Z"
  /\ within (fun k => block_key k \/ page_key k) nowhere anywhere nowhere
            Scenario.w_locked (snd run).
Proof.
  cbv zeta. split; [vm_compute; reflexivity|].
  split; [vm_compute; reflexivity|].
  apply (syncDatabase_failure_writes_no_snapshot 3 Sample.members_id
           "members" Sample.opts_full Scenario.w_locked).
  vm_compute. reflexivity.
Defined.



(** ** More on the run as a whole *)



(** X13. When the state file is absent or holds a state, the
    watermark a completed run saves is the clock read once the syncs are
    over, not when they started; and the state file then holds the state
    of the run as the syncs left it, with that watermark. *)
Theorem main_stamps_watermark_after_syncs fuel cfg flags w :
  state_file_sound (disk w) ->
  fst (main fuel cfg flags w) = Ok tt ->
  let w1 := snd (syncResources fuel cfg flags w) in
  let w' := snd (main fuel cfg flags w) in
  fst (syncResources fuel cfg flags w) = Ok tt
  /\ disk w' !! STATE_F = Some (FState (mem w'))
  /\ lastSyncISO (mem w') = Some (clock (env w1) (tick w1))
  /\ pages (mem w') = pages (mem w1)
  /\ dbItems (mem w') = dbItems (mem w1)
  /\ images (mem w') = images (mem w1).
Proof.
  intros _. cbv zeta. unfold main.
  destruct (syncResources fuel cfg flags w) as [r1 w1] eqn:Hsync.
  rewrite (bind_run _ _ _ _ _ Hsync).
  destruct r1 as [[]|e|]; [|discriminate|discriminate].
  rewrite (bind_run _ _ _ _ _ (eq_refl : get_now w1 = (Ok _, w1))).
  cbv beta iota.
  erewrite bind_run by reflexivity. cbv beta iota.
  rewrite saveState_run. cbn.
  destruct (fs_write_ok (env w1) (tick w1) STATE_F); [|discriminate].
  cbn. intros _. split; [reflexivity|].
  split; [apply lookup_insert_eq|]. now repeat split.
Qed.

Lemma main_stamps_watermark_after_syncs_witness :
  let w' := snd (main 3 Sample.cfg_site Sample.incremental
                   (Sample.w_site true)) in
  let w1 := snd (syncResources 3 Sample.cfg_site Sample.incremental
                   (Sample.w_site true)) in
  state_file_sound (disk (Sample.w_site true))
  /\ lastSyncISO (mem w') = Some 1714644003000%Z
  /\ fst (syncResources 3 Sample.cfg_site Sample.incremental
            (Sample.w_site true)) = Ok tt
  /\ disk w' !! STATE_F = Some (FState (mem w'))
  /\ lastSyncISO (mem w') = Some (clock (env w1) (tick w1))
  /\ pages (mem w') = pages (mem w1)
  /\ dbItems (mem w') = dbItems (mem w1)
  /\ images (mem w') = images (mem w1).
Proof.
  cbv zeta.
  assert (Hsound : state_file_sound (disk (Sample.w_site true))).
  { right. exists Sample.state_may1. split; [vm_compute; reflexivity|].
    intros t [= <-]. unfold watermark_in_range. lia. }
  split; [exact Hsound|]. split; [vm_compute; reflexivity|].
  apply (main_stamps_watermark_after_syncs 3 Sample.cfg_site
           Sample.incremental (Sample.w_site true) Hsound).
  vm_compute. reflexivity.
Defined.

(** X14. Ids that are missing or do not normalize are skipped, they do
    not fail the run. When the state file is absent or holds a state,
    a run with no usable id at all calls nothing remote and writes a
    single file, the state file, holding the state it loaded with the
    watermark set to the time of the run; it fails only if that write
    does. *)
Theorem main_skips_unusable_ids fuel cfg flags w :
  state_file_sound (disk w) ->
  no_usable_id cfg ->
  let w' := snd (main fuel cfg flags w) in
  trace w' = trace w ++ [EvWrite STATE_F]
  /\ (fs_write_ok (env w) (tick w) STATE_F = true ->
      fst (main fuel cfg flags w) = Ok tt
      /\ disk w' !! STATE_F = Some (FState (mem w'))
      /\ lastSyncISO (mem w') = Some (clock (env w) (tick w))
      /\ pages (mem w') = pages (stored_state (disk w))
      /\ dbItems (mem w') = dbItems (stored_state (disk w))
      /\ images (mem w') = images (stored_state (disk w))).
Proof.
  intros _ (H1 & H2 & H3 & H4 & H5). cbv zeta.
  unfold main, syncResources. rewrite H1, H2, H3, H4, H5.
  rewrite (bind_run _ _ _ _ _
             (bind_run _ _ _ _ _ (loadState_run w))).
  cbn. unfold saveState, bind, get_mem, write_file. cbn.
  destruct (fs_write_ok (env w) (tick w) STATE_F); cbn.
  - split; [reflexivity|]. intros _.
    split; [reflexivity|]. split; [apply lookup_insert_eq|].
    now repeat split.
  - split; [reflexivity|discriminate].
Qed.

Lemma main_skips_unusable_ids_witness :
  let w' := snd (main 3 Scenario.cfg_blank Sample.incremental
                   (Sample.w_site true)) in
  state_file_sound (disk (Sample.w_site true))
  /\ trace w' = [EvWrite STATE_F]
  /\ lastSyncISO (mem w') = Some 1714644000000%Z
  /\ trace w' = trace (Sample.w_site true) ++ [EvWrite STATE_F]
  /\ fst (main 3 Scenario.cfg_blank Sample.incremental (Sample.w_site true))
     = Ok tt
  /\ lastSyncISO (mem w')
     = Some (clock (env (Sample.w_site true)) (tick (Sample.w_site true))).
Proof.
  cbv zeta.
  assert (Hsound : state_file_sound (disk (Sample.w_site true))).
  { right. exists Sample.state_may1. split; [vm_compute; reflexivity|].
    intros t [= <-]. unfold watermark_in_range. lia. }
  split; [exact Hsound|].
  split; [vm_compute; reflexivity|]. split; [vm_compute; reflexivity|].
  destruct (main_skips_unusable_ids 3 Scenario.cfg_blank Sample.incremental
              (Sample.w_site true) Hsound) as [Htr Hok].
  - vm_compute. tauto.
  - destruct Hok as (Hr & _ & Hwm & _); [vm_compute; reflexivity|].
    split; [exact Htr|]. split; [exact Hr|exact Hwm].
Defined.

(** ** More on [normalizeId] *)

(** Settles a fact about one character by trying the 256 of them. *)
Ltac by_all_chars c :=
  destruct c as [[] [] [] [] [] [] [] []]; vm_compute;
  try reflexivity; try discriminate; try tauto.

Lemma lower_char_idem c : Js.lower_char (Js.lower_char c) = Js.lower_char c.
Proof. by_all_chars c. Qed.

Lemma lower_char_hex c :
  Js.is_hex c = true -> Js.is_hex (Js.lower_char c) = true.
Proof. by_all_chars c. Qed.

Lemma lower_char_not_hyphen c :
  Ascii.eqb c Js.hyphen = false ->
  Ascii.eqb (Js.lower_char c) Js.hyphen = false.
Proof. by_all_chars c. Qed.

Lemma hex_not_hyphen c : Js.is_hex c = true -> Ascii.eqb c Js.hyphen = false.
Proof. by_all_chars c. Qed.

Lemma chars_str l : Js.chars (Js.str l) = l.
Proof. apply list_ascii_of_string_of_list_ascii. Qed.

Lemma str_chars s : Js.str (Js.chars s) = s.
Proof. apply string_of_list_ascii_of_string. Qed.

Lemma length_chars s : length (Js.chars s) = String.length s.
Proof. induction s as [|c s IH]; simpl; [reflexivity|now rewrite IH]. Qed.

(** What [normalizeId] takes for the id before the length test and the
    lowering. *)
Lemma normalizeId_raw input r :
  normalizeId input = Some r ->
  exists raw,
    r = Js.str (Js.lower raw) /\ length raw = 32
    /\ (Js.match_hex 32 (Js.chars input) = Some raw
        \/ (Js.match_hex 32 (Js.chars input) = None
            /\ raw = Js.strip_hyphens (Js.trim (Js.chars input)))).
Proof.
  rewrite normalizeId_unfold. cbv zeta.
  rewrite match_hex_trim by lia.
  destruct (Js.match_hex 32 (Js.chars input)) as [m|] eqn:E.
  - destruct (Nat.eqb (length m) 32) eqn:L; [|discriminate].
    intros [= <-]. exists m. apply Nat.eqb_eq in L. auto.
  - destruct (Nat.eqb _ 32) eqn:L; [|discriminate].
    intros [= <-]. eexists. apply Nat.eqb_eq in L. eauto.
Qed.

Lemma normalizeId_raw_no_hyphen input raw :
  Js.match_hex 32 (Js.chars input) = Some raw
  \/ (Js.match_hex 32 (Js.chars input) = None
      /\ raw = Js.strip_hyphens (Js.trim (Js.chars input))) ->
  Forall (fun c => Ascii.eqb c Js.hyphen = false) raw.
Proof.
  intros [Hm|[_ ->]].
  - apply match_hex_leftmost in Hm as (pre & _ & [_ Hhex] & _).
    rewrite forallb_forall in Hhex. apply List.Forall_forall.
    intros c Hc. apply hex_not_hyphen, Hhex, Hc.
  - apply List.Forall_forall. intros c Hc.
    apply filter_In in Hc as [_ Hc]. now apply negb_true_iff in Hc.
Qed.

Lemma normalizeId_shape input r :
  normalizeId input = Some r ->
  String.length r = 32
  /\ Forall (fun c => c <> Js.hyphen /\ Js.lower_char c = c) (Js.chars r).
Proof.
  intros H. apply normalizeId_raw in H as (raw & -> & Hlen & Hraw).
  split.
  - rewrite <- length_chars, chars_str. unfold Js.lower.
    now rewrite length_map.
  - rewrite chars_str. unfold Js.lower. apply Forall_map.
    eapply Forall_impl; [exact (normalizeId_raw_no_hyphen input raw Hraw)|]. cbn.
    intros c Hc. split.
    + apply lower_char_not_hyphen in Hc. intros E. rewrite E in Hc.
      discriminate.
    + apply lower_char_idem.
Qed.

(** X15. Every id [normalizeId] returns is the lower-cased form of a
    string of exactly 32 code units with no hyphen in it: the length is
    tested before the lowering. When the input holds only ASCII
    characters, the lowering keeps the length, so the id itself has
    exactly 32 characters, none of them a hyphen, and is in lower case:
    lowering it again changes nothing. *)
Theorem normalizeId_result_shape input r :
  normalizeId input = Some r ->
  (exists raw,
      length raw = 32
      /\ Forall (fun c => c <> Js.hyphen) raw
      /\ r = Js.str (Js.lower raw))
  /\ (Forall (fun c => nat_of_ascii c < 128) (Js.chars input) ->
      String.length r = 32
      /\ Forall (fun c => c <> Js.hyphen /\ Js.lower_char c = c)
                (Js.chars r)).
Proof.
  intros H. split.
  - apply normalizeId_raw in H as (raw & -> & Hlen & Hraw).
    exists raw. split; [exact Hlen|]. split; [|reflexivity].
    eapply Forall_impl; [exact (normalizeId_raw_no_hyphen input raw Hraw)|].
    cbn. intros c Hc ->. discriminate.
  - intros _. now apply (normalizeId_shape input).
Qed.

Lemma normalizeId_result_shape_witness :
  normalizeId "01234567-89AB-CDEF-0123-456789abcdef"
  = Some "0123456789abcdef0123456789abcdef"
  /\ Forall (fun c => nat_of_ascii c < 128)
       (Js.chars "01234567-89AB-CDEF-0123-456789abcdef")
  /\ String.length "0123456789abcdef0123456789abcdef" = 32
  /\ Forall (fun c => c <> Js.hyphen /\ Js.lower_char c = c)
       (Js.chars "0123456789abcdef0123456789abcdef").
Proof.
  assert (Hascii : Forall (fun c => nat_of_ascii c < 128)
                     (Js.chars "01234567-89AB-CDEF-0123-456789abcdef")).
  { apply (bool_decide_unpack _). vm_compute. exact I. }
  split; [vm_compute; reflexivity|]. split; [exact Hascii|].
  refine (proj2 (normalizeId_result_shape
                   "01234567-89AB-CDEF-0123-456789abcdef" _ _) Hascii).
  vm_compute. reflexivity.
Defined.

Lemma length_trim_left l : length (Js.trim_left l) <= length l.
Proof.
  induction l as [|c l IH]; simpl; [lia|].
  destruct (Js.is_ws c); simpl; lia.
Qed.

Lemma length_trim l : length (Js.trim l) <= length l.
Proof.
  unfold Js.trim. rewrite length_rev.
  etransitivity; [apply length_trim_left|].
  rewrite length_rev. apply length_trim_left.
Qed.

Lemma length_strip_hyphens l : length (Js.strip_hyphens l) <= length l.
Proof.
  unfold Js.strip_hyphens. induction l as [|c l IH]; simpl; [lia|].
  destruct (negb _); simpl; lia.
Qed.

Lemma match_hex_length n l m :
  Js.match_hex n l = Some m -> length m = n /\ n <= length l.
Proof.
  intros H. apply match_hex_leftmost in H as (pre & [post ->] & [Hn _] & _).
  split; [exact Hn|]. rewrite !length_app. lia.
Qed.

(** X16. An input of fewer than 32 characters, the empty one included,
    is never an id: [normalizeId] returns [null] for it. *)
Theorem normalizeId_short_input input :
  String.length input < 32 -> normalizeId input = None.
Proof.
  intros Hshort.
  destruct (normalizeId input) as [r|] eqn:E; [|reflexivity].
  apply normalizeId_raw in E as (raw & _ & Hlen & Hraw). exfalso.
  rewrite <- length_chars in Hshort.
  destruct Hraw as [Hm|[_ ->]].
  - apply match_hex_length in Hm. lia.
  - pose proof (length_strip_hyphens (Js.trim (Js.chars input))).
    pose proof (length_trim (Js.chars input)). lia.
Qed.

Lemma normalizeId_short_input_witness :
  normalizeId "" = None
  /\ normalizeId "0123456789abcdef0123456789abcde" = None.
Proof.
  split.
  - apply (normalizeId_short_input ""). simpl. lia.
  - apply (normalizeId_short_input "0123456789abcdef0123456789abcde").
    vm_compute. lia.
Defined.

Lemma lower_fixed l :
  Forall (fun c => Js.lower_char c = c) l -> Js.lower l = l.
Proof.
  unfold Js.lower. induction 1 as [|c l Hc _ IH]; simpl; [reflexivity|].
  now rewrite Hc, IH.
Qed.

(** X17. An id that [normalizeId] took from a run of 32 hexadecimal
    characters of its input consists of hexadecimal characters; and an
    id it returned that consists of hexadecimal characters normalizes
    to itself, so normalizing twice is normalizing once. *)
Theorem normalizeId_idempotent_on_hex input r :
  normalizeId input = Some r ->
  (has_hex_run 32 (Js.chars input) ->
   forallb Js.is_hex (Js.chars r) = true)
  /\ (forallb Js.is_hex (Js.chars r) = true -> normalizeId r = Some r).
Proof.
  intros H. pose proof (normalizeId_shape input r H) as [Hlen Hlow].
  split.
  - intros Hrun. apply normalizeId_raw in H as (raw & -> & _ & Hraw).
    destruct Hraw as [Hm|[Hnone _]].
    + apply match_hex_leftmost in Hm as (pre & _ & [_ Hhex] & _).
      rewrite chars_str. unfold Js.lower. rewrite forallb_forall in *.
      intros c Hc. apply in_map_iff in Hc as (c0 & <- & Hc0).
      apply lower_char_hex, Hhex, Hc0.
    + now apply match_hex_none in Hnone.
  - intros Hhex.
    rewrite normalizeId_unfold. cbv zeta. rewrite match_hex_trim by lia.
    rewrite (match_hex_of_leftmost 32 (Js.chars r) (Js.chars r)).
    + rewrite length_chars, Hlen. simpl.
      f_equal. rewrite lower_fixed, str_chars; [reflexivity|].
      eapply Forall_impl; [exact Hlow|]. now intros c [_ Hc].
    + exists []. split; [exists []; now rewrite app_nil_r|].
      split; [split; [now rewrite length_chars|exact Hhex]|].
      intros; simpl; lia.
Qed.

Lemma normalizeId_idempotent_on_hex_witness :
  normalizeId "https://www.notion.so/Home-0123456789ABCDEF0123456789abcdef"
  = Some "0123456789abcdef0123456789abcdef"
  /\ normalizeId "0123456789abcdef0123456789abcdef"
     = Some "0123456789abcdef0123456789abcdef".
Proof.
  split; [vm_compute; reflexivity|].
  apply (normalizeId_idempotent_on_hex
           "https://www.notion.so/Home-0123456789ABCDEF0123456789abcdef").
  - vm_compute. reflexivity.
  - vm_compute. reflexivity.
Defined.

(** ** More on [withRetry] *)

Lemma retry_need_next tries n fuel :
  (n + 1 < tries)%Z -> retry_need tries n <= S fuel ->
  retry_need tries (n + 1) <= fuel.
Proof. unfold retry_need. lia. Qed.

Lemma withRetry_loop_outcome {A} (fn : M A) tries r w' fuel :
  forall n w,
    retry_need tries n <= fuel ->
    withRetry_loop fuel fn tries n w = (r, w') ->
    exists w0, fn w0 = (r, w').
Proof.
  induction fuel as [|fuel IH]; intros n w Hfuel H.
  - unfold retry_need in Hfuel. lia.
  - rewrite withRetry_loop_step in H.
    destruct (fn w) as [[a|e|] w1] eqn:E.
    + exists w. now rewrite E, H.
    + destruct (n + 1 >=? tries)%Z eqn:Hn.
      * exists w. now rewrite E, H.
      * rewrite Z.geb_leb in Hn. apply Z.leb_gt in Hn.
        apply (IH _ _ (retry_need_next _ _ _ Hn Hfuel) H).
    + exists w. now rewrite E, H.
Qed.

(** X18. Whatever [withRetry] ends with, a value or an error, is what
    one call of the function ended with, in the world that call left:
    the value is returned and the error rethrown as they are, and
    [withRetry] does nothing after the call that decides. *)
Theorem withRetry_passes_outcome_through {A} (fn : M A) tries w r w' :
  withRetry fn tries w = (r, w') -> exists w0, fn w0 = (r, w').
Proof.
  unfold withRetry. apply withRetry_loop_outcome.
  unfold retry_need. lia.
Qed.

Lemma withRetry_passes_outcome_through_witness :
  exists w0,
    pages_retrieve "p" w0
    = (fst (withRetry (pages_retrieve "p") 5 Sample.w_down),
       snd (withRetry (pages_retrieve "p") 5 Sample.w_down)).
Proof.
  apply (withRetry_passes_outcome_through (pages_retrieve "p") 5
           Sample.w_down).
  apply surjective_pairing.
Defined.

Lemma withRetry_loop_attempts {A} (fn : M A) tries ev fuel :
  (forall w, trace (snd (fn w)) = trace w ++ [ev]) ->
  forall n w,
    retry_need tries n <= fuel ->
    let r := fst (withRetry_loop fuel fn tries n w) in
    let w' := snd (withRetry_loop fuel fn tries n w) in
    exists k,
      (Z.of_nat k < Z.max 1 (tries - n))%Z
      /\ trace w' = trace w ++ attempts_log ev n k
      /\ ((exists e, r = Throw e) ->
          (Z.of_nat k + 1 = Z.max 1 (tries - n))%Z).
Proof.
  intros Hfn. induction fuel as [|fuel IH]; intros n w Hfuel.
  - unfold retry_need in Hfuel. lia.
  - cbv zeta. rewrite withRetry_loop_step.
    pose proof (Hfn w) as Hw.
    destruct (fn w) as [[a|e|] w1] eqn:E; simpl in Hw.
    + exists 0. simpl. split; [lia|]. split; [exact Hw|].
      intros [e [=]].
    + destruct (n + 1 >=? tries)%Z eqn:Hn.
      * rewrite Z.geb_leb in Hn. apply Z.leb_le in Hn.
        exists 0. simpl. split; [lia|]. split; [exact Hw|]. intros _. lia.
      * rewrite Z.geb_leb in Hn. apply Z.leb_gt in Hn.
        destruct (IH (n + 1)%Z (logged (EvSleep (retry_wait (n + 1))) w1)
                    (retry_need_next _ _ _ Hn Hfuel))
          as (k & Hk & Htr & Hthrow).
        exists (S k). split; [lia|]. split.
        -- rewrite Htr. cbn [trace logged]. rewrite Hw.
           rewrite <- !app_assoc. reflexivity.
        -- intros He. specialize (Hthrow He). lia.
    + exists 0. simpl. split; [lia|]. split; [exact Hw|].
      intros [e [=]].
Qed.

(** X19. When every call of the function logs exactly the event [ev],
    the log of [withRetry] is [ev], a wait, [ev], a wait, ..., [ev]: the
    waits are those of the backoff, in order, and there are at most
    [tries] attempts, one if [tries] is 1 or less. [withRetry] throws
    only after exactly that many attempts: it never gives up early and
    never sleeps after the last attempt. *)
Theorem withRetry_attempts {A} (fn : M A) tries ev w :
  (forall w0, trace (snd (fn w0)) = trace w0 ++ [ev]) ->
  let r := fst (withRetry fn tries w) in
  let w' := snd (withRetry fn tries w) in
  exists k,
    (Z.of_nat k < Z.max 1 tries)%Z
    /\ trace w' = trace w ++ attempts_log ev 0 k
    /\ ((exists e, r = Throw e) -> (Z.of_nat k + 1 = Z.max 1 tries)%Z).
Proof.
  intros Hfn. cbv zeta. unfold withRetry.
  destruct (withRetry_loop_attempts fn tries ev (S (Z.to_nat tries)) Hfn
              0%Z w) as (k & Hk & Htr & Hthrow).
  { unfold retry_need. lia. }
  exists k. rewrite Z.sub_0_r in *. auto.
Qed.

Lemma withRetry_attempts_witness :
  let w' := snd (withRetry (pages_retrieve "p") 2 Sample.w_down) in
  exists k,
    (Z.of_nat k < Z.max 1 2)%Z
    /\ trace w'
       = trace Sample.w_down ++ attempts_log (EvPagesRetrieve "p") 0 k
    /\ ((exists e,
           fst (withRetry (pages_retrieve "p") 2 Sample.w_down) = Throw e) ->
        (Z.of_nat k + 1 = Z.max 1 2)%Z).
Proof.
  apply (withRetry_attempts (pages_retrieve "p") 2 (EvPagesRetrieve "p")
           Sample.w_down).
  intros w0. unfold pages_retrieve.
  destruct (api_pages_retrieve (env w0) (tick w0) "p"); reflexivity.
Defined.

(** ** [safeExtFromUrl] *)

Lemma split_on_segments sep l :
  Forall (fun seg => ~ In sep seg /\ forall c, In c seg -> In c l)
         (Js.split_on sep l).
Proof.
  induction l as [|c l IH]; simpl.
  - constructor; [|constructor]. split; auto.
  - destruct (Ascii.eqb c sep) eqn:E.
    + constructor; [split; [auto|intros ? []]|].
      eapply Forall_impl; [exact IH|]. cbn. intros seg [H1 H2].
      split; [exact H1|]. intros x Hx. right. auto.
    + apply Ascii.eqb_neq in E.
      destruct (Js.split_on sep l) as [|h r].
      * constructor; [|constructor]. split.
        -- intros [H|[]]. congruence.
        -- intros x [<-|[]]. now left.
      * apply Forall_cons in IH as [[H1 H2] Hr]. constructor.
        -- split.
           ++ intros [H|H]; [congruence|auto].
           ++ intros x [<-|Hx]; [now left|right; auto].
        -- eapply Forall_impl; [exact Hr|]. cbn. intros seg [A1 A2].
           split; [exact A1|]. intros x Hx. right. auto.
Qed.

Lemma split_on_nonempty sep l : Js.split_on sep l <> [].
Proof.
  destruct l as [|c l]; simpl; [discriminate|].
  destruct (Ascii.eqb c sep); [discriminate|].
  destruct (Js.split_on sep l); discriminate.
Qed.

Lemma last_In {A} (l : list A) d : l <> [] -> In (List.last l d) l.
Proof.
  induction l as [|x l IH]; [congruence|]. intros _.
  destruct l as [|y l]; [now left|].
  right. apply IH. discriminate.
Qed.

Lemma hd_In {A} (l : list A) d : l <> [] -> In (hd d l) l.
Proof. destruct l; [congruence|]. intros _. now left. Qed.

Lemma length_str l : String.length (Js.str l) = length l.
Proof. now rewrite <- length_chars, chars_str. Qed.

Lemma truthy_str l : Js.truthy (Js.str l) = true -> l <> [].
Proof. intros H ->. discriminate. Qed.

(** X20. What [safeExtFromUrl] returns is either the fallback or an
    extension of one to six characters holding neither a dot nor a
    question mark; and the fallback it is whenever the URL does not
    parse. So the name of a cache file ends with a dot and such an
    extension, or with [.bin]. *)
Theorem safeExtFromUrl_bounds e u fallback :
  let ext := safeExtFromUrl e u fallback in
  (url_pathname e u = None -> ext = fallback)
  /\ (ext = fallback
      \/ (1 <= String.length ext <= 6
          /\ ~ In "."%char (Js.chars ext)
          /\ ~ In "?"%char (Js.chars ext))).
Proof.
  cbv zeta. unfold safeExtFromUrl.
  destruct (url_pathname e u) as [p|]; [|now split; [|left]].
  split; [discriminate|].
  set (tail := List.last (Js.split_on "." (Js.chars p)) []).
  set (ext := hd [] (Js.split_on "?" tail)).
  destruct (negb (Js.truthy (Js.str ext))) eqn:Ht; [now left|].
  destruct (Nat.ltb 6 (length ext)) eqn:Hl; [now left|]. right. simpl.
  apply negb_false_iff, truthy_str in Ht. apply Nat.ltb_ge in Hl.
  rewrite length_str, chars_str.
  pose proof (split_on_segments "." (Js.chars p)) as Hdot.
  pose proof (split_on_segments "?" tail) as Hq.
  rewrite List.Forall_forall in Hdot, Hq.
  destruct (Hdot tail (last_In _ _ (split_on_nonempty _ _))) as [Hnodot _].
  destruct (Hq ext (hd_In _ _ (split_on_nonempty _ _))) as [Hnoq Hsub].
  split; [|split].
  - clearbody ext. destruct ext; [congruence|simpl in *; lia].
  - intros H. apply Hnodot, Hsub, H.
  - exact Hnoq.
Qed.

Lemma safeExtFromUrl_bounds_witness :
  safeExtFromUrl Sample.env_cdn "not a url" "bin" = "bin"
  /\ safeExtFromUrl Sample.env_cdn "https://cdn.example/a/cover.png?sig=1"
       "bin" = "png"
  /\ safeExtFromUrl Sample.env_cdn "https://cdn.example/a/archive.tar.backup"
       "bin" = "backup"
  /\ safeExtFromUrl Sample.env_cdn "https://cdn.example/a/file.download"
       "bin" = "bin".
Proof.
  split.
  - apply (safeExtFromUrl_bounds Sample.env_cdn "not a url" "bin").
    vm_compute. reflexivity.
  - vm_compute. tauto.
Defined.

(** ** The cover of a page *)

Lemma cached_local_lookup s s' key :
  images s' !! key = images s !! key -> cached_local s' key = cached_local s key.
Proof. unfold cached_local. now intros ->. Qed.

Lemma page_key_not_block_key s : ~ block_key ("page:" +:+ s).
Proof. unfold block_key. destruct s; discriminate. Qed.

(** X22. The [cover_local] of the payload of a page sync. When the
    metadata has a cover URL it is what the state records under
    [page:<id>:cover] once the sync is over, so a freshly downloaded or
    previously cached path, or [null]. When the metadata has no cover URL
    it is the path cached under that key before the sync or else the
    [cover_local] of the previous sync of the page, or else [null]: a
    cover removed upstream keeps being served from the cache. *)
Theorem fetchPageIfChanged_cover_local fuel pageId aliasOut w :
  forall payload,
    fst (fetchPageIfChanged fuel pageId aliasOut w) = Ok (Some payload) ->
    let w' := snd (fetchPageIfChanged fuel pageId aliasOut w) in
    let coverKey := "page:" +:+ meta_id (pl_page payload) +:+ ":cover" in
    let cov := ref_url (meta_cover (pl_page payload)) in
    (Js.otruthy cov = true ->
     pl_cover_local payload = cached_local (mem w') coverKey)
    /\ (Js.otruthy cov = false ->
        pl_cover_local payload
        = Js.or_null
            (Js.or_else (cached_local (mem w) coverKey)
                        (pages (mem w) !! pageId ≫= ps_cover_local))).
Proof.
  intros payload Hok. cbv zeta.
  destruct (fetchPageIfChanged fuel pageId aliasOut w) as [r w'] eqn:H.
  simpl in Hok. subst r. simpl.
  unfold fetchPageIfChanged in H.
  apply bind_ok_inv in H as (meta & w1 & Hmeta & H).
  destruct (retrieve_meta_frame pageId w) as [(Hmem & _ & _) _].
  rewrite Hmeta in Hmem. simpl in Hmem.
  apply bind_ok_inv in H as (state & w1' & [= <- <-] & H).
  rewrite Hmem in H.
  destruct (negb _); [discriminate|].
  unfold fetchChangedPage in H.
  apply bind_ok_inv in H as (blocks & wa & Hb & H).
  apply bind_ok_inv in H as (localCover & wb & Hc & H).
  apply bind_ok_inv in H as ([] & wc & Hw & H).
  apply bind_ok_inv in H as ([] & wd & Hs & H).
  injection H as <- <-. cbn [pl_page pl_cover_local].
  set (coverKey := "page:" +:+ meta_id meta +:+ ":cover") in *.
  pose proof (within_listBlocks block_key nowhere nowhere nowhere
                block_key_image block_key_file fuel pageId w1) as Hfp.
  rewrite Hb in Hfp. simpl in Hfp.
  split; intros Hcov; rewrite Hcov in Hc.
  - pose proof (asset_outcome coverKey (ref_url (meta_cover meta)) "cover" wa)
      as Hasset.
    unfold wp in Hasset. rewrite Hc in Hasset.
    destruct Hasset as ([= ->] & _). simpl.
    apply cached_local_lookup.
    unfold write_file in Hw. destruct (fs_write_ok _ _ _); [|discriminate].
    injection Hw as <-. injection Hs as <-. reflexivity.
  - apply bind_ok_inv in Hc as (state & wa' & [= <- <-] & [= <- <-]).
    rewrite (cached_local_lookup (mem w1) (mem wa)), Hmem; [reflexivity|].
    apply (wi_records _ _ _ _ _ _ Hfp). apply page_key_not_block_key.
Qed.
Lemma fetchPageIfChanged_cover_local_witness :
  let run := fetchPageIfChanged 3 Sample.home_id (Some "home")
               Scenario.w_cover_removed in
  let payload :=
    {| pl_page := Sample.home_meta; pl_blocks := [];
       pl_cover_local := Some "./images/cover-4f9be057f0ea.png" |} in
  fst run = Ok (Some payload)
  /\ pl_cover_local payload
     = Js.or_null
         (Js.or_else
            (cached_local (mem Scenario.w_cover_removed)
               ("page:" +:+ meta_id (pl_page payload) +:+ ":cover"))
            (pages (mem Scenario.w_cover_removed) !! Sample.home_id
               ≫= ps_cover_local)).
Proof.
  cbv zeta. split; [vm_compute; reflexivity|].
  apply (fetchPageIfChanged_cover_local 3 Sample.home_id (Some "home")
           Scenario.w_cover_removed).
  - vm_compute. reflexivity.
  - vm_compute. reflexivity.
Defined.

(** ** The order of the rows of a snapshot *)

Lemma jsmap_fold_set_keys {V} (l : list (string * V)) :
  forall m : JsMap.t V,
    NoDup (JsMap.keys m ++ map fst l) ->
    JsMap.keys (fold_left (fun m kv => JsMap.set (fst kv) (snd kv) m) l m)
    = JsMap.keys m ++ map fst l.
Proof.
  induction l as [|[k v] l IH]; intros m Hnd; simpl.
  - now rewrite app_nil_r.
  - simpl in Hnd.
    assert (Hk : JsMap.get k m = None).
    { destruct (JsMap.get k m) as [v0|] eqn:E; [|reflexivity].
      exfalso. apply NoDup_app in Hnd as (_ & Hdisj & _).
      apply (Hdisj k).
      - apply list_elem_of_In, jsmap_get_in_keys. eauto.
      - left. }
    rewrite IH.
    + rewrite jsmap_keys_set, Hk, <- app_assoc. reflexivity.
    + rewrite jsmap_keys_set, Hk, <- app_assoc. exact Hnd.
Qed.

Lemma index_of_keys (rows : list Row) :
  NoDup (map row_id rows) -> JsMap.keys (index_of rows) = map row_id rows.
Proof.
  intros Hnd. unfold index_of, JsMap.of_entries.
  rewrite jsmap_fold_set_keys; simpl; rewrite map_map; simpl.
  - reflexivity.
  - exact Hnd.
Qed.

Lemma jsmap_keys_filter_fst {V} (g : string * V -> bool) (f : string -> bool)
  (m : JsMap.t V) :
  (forall kv, g kv = f (fst kv)) ->
  JsMap.keys (List.filter g m) = List.filter f (JsMap.keys m).
Proof.
  intros H. induction m as [|kv m IH]; simpl; [reflexivity|].
  rewrite H. destruct (f (fst kv)); simpl; now rewrite IH.
Qed.

(** The keys of the index after the loop over the changed rows: those it
    had, in their order, then the new ones. *)
Lemma upsertRows_keys fuel fb rows :
  forall byId w byId' w',
    upsertRows fuel fb rows byId w = (Ok byId', w') ->
    exists news,
      JsMap.keys byId' = JsMap.keys byId ++ news
      /\ forall id, In id news -> In id (map row_id rows).
Proof.
  induction rows as [|p rest IH]; intros byId w byId' w' H; simpl in H.
  - injection H as <- <-. exists []. now rewrite app_nil_r.
  - apply bind_ok_inv in H as (r & w1 & Hr & H).
    apply bind_ok_inv in H as ([] & w2 & _ & H).
    apply syncRow_ok in Hr as (Hid & _).
    apply IH in H as (news & Hkeys & Hin).
    rewrite jsmap_keys_set in Hkeys.
    destruct (JsMap.get (row_id r) byId).
    + exists news. split; [exact Hkeys|]. intros id Hi. right. auto.
    + exists (row_id r :: news). split.
      * now rewrite Hkeys, <- app_assoc.
      * intros id [<-|Hi]; [left; now rewrite Hid|right; auto].
Qed.

(** X23. A database sync keeps the order of the snapshot. With a stored
    snapshot that has one row per id, the rows persisted by an
    incremental sync are, by id, the stored rows in their stored order,
    followed by the rows that are new, which all come from the query; a
    full sync persists the same sequence less the rows it drops, without
    reordering. *)
Theorem syncDatabase_keeps_order fuel db outName options w stored :
  fst (syncDatabase fuel db outName options w) = Ok tt ->
  disk w !! db_file outName = Some (FDb stored) ->
  NoDup (map row_id stored) ->
  let w' := snd (syncDatabase fuel db outName options w) in
  exists changed rows' news,
    fst (queryDatabaseIncremental fuel db
           (if fullMode options then None else sinceISO options) w)
    = Ok changed
    /\ disk w' !! db_file outName = Some (FDb rows')
    /\ NoDup (map row_id stored ++ news)
    /\ (forall id, In id news -> In id (map row_id changed))
    /\ if fullMode options
       then exists keep,
              map row_id rows'
              = List.filter keep (map row_id stored ++ news)
       else map row_id rows' = map row_id stored ++ news.
Proof.
  intros Hok Hstored Hnd. cbv zeta.
  destruct (syncDatabase fuel db outName options w) as [r w'] eqn:Hrun.
  simpl in Hok. subst r. simpl.
  apply syncDatabase_ok in Hrun
    as (changed & w1 & stored0 & byId & w2 & byId' & Hq & Hst & Hup & Hrec
        & Hdisk).
  assert (stored0 = stored) as ->.
  { destruct Hst as [Hst|[Hst _]]; rewrite Hstored in Hst; congruence. }
  destruct (index_of_facts stored) as (Hkeyed & Hnd0 & _).
  destruct (upsertRows_ok _ _ _ _ _ _ _ Hup Hkeyed Hnd0)
    as (Hkeyed' & Hnd' & _).
  destruct (upsertRows_keys _ _ _ _ _ _ _ Hup) as (news & Hkeys & Hnews).
  rewrite index_of_keys in Hkeys by exact Hnd.
  exists changed, (JsMap.values byId'), news.
  split; [now rewrite Hq|]. split; [exact Hdisk|].
  split; [now rewrite <- Hkeys|]. split; [exact Hnews|].
  destruct (fullMode options).
  - destruct Hrec as (ids & w3 & _ & ->).
    exists (fun id => bool_decide (id ∈ (list_to_set ids : gset string))).
    rewrite keyed_values by now apply keyed_filter.
    rewrite <- Hkeys. now apply jsmap_keys_filter_fst.
  - subst byId'. now rewrite keyed_values, Hkeys.
Qed.

Lemma syncDatabase_keeps_order_witness :
  let w' := snd (syncDatabase 3 Sample.members_id "members"
                   Sample.opts_incremental Scenario.w_grown) in
  exists rows,
    disk w' !! db_file "members" = Some (FDb rows)
    /\ map row_id rows = ["A"; "B"; "C"; "D"]
    /\ exists news,
         map row_id rows
         = map row_id [Sample.row_A; Sample.row_B; Sample.row_C] ++ news.
Proof.
  cbv zeta.
  destruct (syncDatabase_keeps_order 3 Sample.members_id "members"
              Sample.opts_incremental Scenario.w_grown
              [Sample.row_A; Sample.row_B; Sample.row_C])
    as (changed & rows & news & _ & Hdisk & _ & _ & Hids).
  - vm_compute. reflexivity.
  - vm_compute. reflexivity.
  - apply (bool_decide_unpack _). vm_compute. exact I.
  - exists rows. split; [exact Hdisk|]. split; [|exists news; exact Hids].
    assert (Hd : disk (snd (syncDatabase 3 Sample.members_id "members"
                              Sample.opts_incremental Scenario.w_grown))
                 !! db_file "members"
                 = Some (FDb [Sample.row_A'; Sample.row_B; Sample.row_C;
                              Scenario.row_D]))
      by (vm_compute; reflexivity).
    rewrite Hdisk in Hd. injection Hd as ->. reflexivity.
Defined.

(** ** The files of a row *)

Lemma of_nat_inj i j : Js.of_nat i = Js.of_nat j -> i = j.
Proof.
  unfold Js.of_nat. intros H.
  apply DecimalNat.Unsigned.to_uint_inj.
  apply (f_equal NilEmpty.uint_of_string) in H.
  rewrite !NilEmpty.usu in H. congruence.
Qed.

Lemma prop_key_inj rowId propName i j :
  prop_key rowId propName i = prop_key rowId propName j -> i = j.
Proof.
  unfold prop_key. intros H.
  repeat apply String.app_inj in H. now apply of_nat_inj.
Qed.

Lemma within_mono (K K' P D F : string -> Prop) w w' :
  (forall k, K k -> K' k) -> within K P D F w w' -> within K' P D F w w'.
Proof.
  intros HK [e m r k p d f i]. split; auto.
Qed.

Lemma syncPropFiles_from rowId propName files :
  forall i0 w,
    let run :=
      for_each_i (fun i f =>
        local <- downloadFileCached (prop_key rowId propName i)
                   (ref_url (fe_ref f)) "file" ;;
        ret (graft_entry f local)) i0 files w in
    exists files',
      fst run = Ok files'
      /\ within (fun k => exists j, i0 <= j /\ k = prop_key rowId propName j)
                nowhere nowhere nowhere w (snd run)
      /\ length files' = length files
      /\ forall j f,
           files !! j = Some f ->
           files' !! j
           = Some (graft_entry f
                     (cached_local (mem (snd run))
                        (prop_key rowId propName (i0 + j)))).
Proof.
  induction files as [|x r IH]; intros i0 w; cbv zeta.
  - exists []. split; [reflexivity|]. split; [reflexivity|].
    split; [reflexivity|]. intros j f Hj. discriminate.
  - cbn [for_each_i].
    pose proof (asset_outcome (prop_key rowId propName i0)
                  (ref_url (fe_ref x)) "file" w) as Ha.
    pose proof (within_asset
                  (fun k => exists j, i0 <= j /\ k = prop_key rowId propName j)
                  nowhere nowhere nowhere (prop_key rowId propName i0)
                  (ref_url (fe_ref x)) "file"
                  ltac:(exists i0; split; [lia|reflexivity]) w) as Hw.
    unfold wp in Ha.
    destruct (downloadFileCached _ _ _ w) as [r1 w1] eqn:E.
    simpl in Ha, Hw. destruct Ha as (-> & _).
    destruct (IH (S i0) w1) as (ys & Hys & Hin & Hlen & Hall).
    destruct (for_each_i _ (S i0) r w1) as [r2 w2] eqn:E2.
    simpl in Hys, Hin, Hall. subst r2.
    rewrite (bind_run _ _ _ _ _
               (eq_trans (bind_run _ _ _ _ _ E) eq_refl)).
    cbv beta iota. rewrite (bind_run _ _ _ _ _ E2). cbv beta iota. simpl.
    eexists. split; [reflexivity|]. split; [|split].
    + etransitivity; [exact Hw|].
      eapply within_mono; [|exact Hin].
      intros k (j & Hj & ->). exists j. split; [lia|reflexivity].
    + simpl. now rewrite Hlen.
    + intros [|j] f Hj; simpl in Hj |- *.
      * injection Hj as <-. rewrite Nat.add_0_r. do 2 f_equal.
        apply cached_local_lookup. symmetry.
        apply (wi_records _ _ _ _ _ _ Hin).
        intros (j & Hj & Hk). apply prop_key_inj in Hk. lia.
      * rewrite (Hall j f Hj).
        now replace (i0 + S j) with (S (i0 + j)) by lia.
Qed.

(** X24. [syncPropFiles] never throws and returns as many entries as it
    was given, in the same order; the entry at index [i] is the entry
    given, carrying as [local] the path that the state records under
    [page:<rowId>:prop:<propName>:<i>] once the call is over, and left as
    it was when the state records none: distinct indices have distinct
    keys, so no download of one entry changes the path of another. *)
Theorem syncPropFiles_entries rowId propName files w :
  let run := syncPropFiles rowId propName files w in
  exists files',
    fst run = Ok files'
    /\ length files' = length files
    /\ forall i f,
         files !! i = Some f ->
         files' !! i
         = Some (graft_entry f
                   (cached_local (mem (snd run))
                      (prop_key rowId propName i))).
Proof.
  destruct (syncPropFiles_from rowId propName files 0 w)
    as (files' & Hok & _ & Hlen & Hall).
  exists files'. split; [exact Hok|]. split; [exact Hlen|exact Hall].
Qed.

Lemma cover_key_not_prop_key rowId propName i :
  "page:" +:+ rowId +:+ ":cover" <> prop_key rowId propName i.
Proof.
  unfold prop_key. intros H. repeat apply String.app_inj in H.
  apply (f_equal (fun s => String.get 1 s)) in H. vm_compute in H.
  discriminate.
Qed.

Lemma within_row_files rowId propName files :
  preserves
    (within (fun k => block_key k
                      \/ exists name i, k = prop_key rowId name i)
            nowhere nowhere nowhere)
    (syncPropFiles rowId propName files).
Proof.
  unfold syncPropFiles. preserve. apply within_asset.
  right. now exists propName, i.
Qed.

(** The [cover_local] of a synced row that has a cover URL. *)
Lemma syncRow_cover fuel fb p w :
  forall r,
    fst (syncRow fuel fb p w) = Ok r ->
    Js.otruthy (ref_url (row_cover p)) = true ->
    row_cover_local r
    = Some (cached_local (mem (snd (syncRow fuel fb p w)))
              ("page:" +:+ row_id p +:+ ":cover")).
Proof.
  intros r Hok Hcov.
  destruct (syncRow fuel fb p w) as [r0 w'] eqn:H. simpl in Hok. subst r0.
  simpl. unfold syncRow in H. rewrite Hcov in H.
  set (coverKey := "page:" +:+ row_id p +:+ ":cover") in *.
  set (K := fun k => block_key k
                     \/ exists name i, k = prop_key (row_id p) name i).
  apply bind_ok_inv in H as (p1 & w1 & Hc & H).
  apply bind_ok_inv in Hc as (local & w1' & Hdl & [= <- ->]).
  pose proof (asset_outcome coverKey (ref_url (row_cover p)) "cover" w)
    as Ha.
  unfold wp in Ha. rewrite Hdl in Ha. destruct Ha as ([= ->] & _).
  assert (Hrest : within K nowhere nowhere nowhere w1 w'
                  /\ row_cover_local r
                     = Some (cached_local (mem w1) coverKey)).
  { split.
    - match type of H with
      | ?m w1 = _ =>
          assert (Hm : preserves (within K nowhere nowhere nowhere) m)
      end.
      { preserve; first [ apply within_row_files | apply within_listBlocks ];
          intros; left; first [apply block_key_image|apply block_key_file]. }
      specialize (Hm w1). now rewrite H in Hm.
    - apply bind_ok_inv in H as (props & w2 & _ & H).
      destruct fb; [|now injection H as <- _].
      apply try_catch_ok_inv in H as [H|(e & w3 & _ & H)].
      + apply bind_ok_inv in H as (blocks & w3 & _ & H).
        now injection H as <- _.
      + now injection H as <- _. }
  destruct Hrest as [Hw ->]. f_equal.
  apply cached_local_lookup. symmetry.
  apply (wi_records _ _ _ _ _ _ Hw).
  intros [Hb|(name & i & Hk)].
  - now apply page_key_not_block_key in Hb.
  - now apply cover_key_not_prop_key in Hk.
Qed.

(** X25. When a changed row has a cover URL, the [cover_local] the sync
    gives it is what the state records under [page:<rowId>:cover] once
    the row is done: the downloads of the row's files and blocks, which
    come after the cover, leave that record alone. *)
Theorem syncRow_cover_local fuel fb p w :
  forall r,
    fst (syncRow fuel fb p w) = Ok r ->
    Js.otruthy (ref_url (row_cover p)) = true ->
    row_cover_local r
    = Some (cached_local (mem (snd (syncRow fuel fb p w)))
              ("page:" +:+ row_id p +:+ ":cover")).
Proof. apply syncRow_cover. Qed.

Lemma syncRow_cover_local_witness :
  let run := syncRow 3 false Sample.row_A_covered Sample.w_covered in
  exists r,
    fst run = Ok r
    /\ row_cover_local r
       = Some (cached_local (mem (snd run)) ("page:" +:+ "A" +:+ ":cover"))
    /\ cached_local (mem (snd run)) "page:A:cover"
       = Some "./images/cover-4f9be057f0ea.png".
Proof.
  cbv zeta. eexists. split; [vm_compute; reflexivity|].
  split; [|vm_compute; reflexivity].
  apply (syncRow_cover_local 3 false Sample.row_A_covered Sample.w_covered).
  - vm_compute. reflexivity.
  - vm_compute. reflexivity.
Defined.

Lemma cached_local_is_truthy s key l :
  cached_local s key = Some l -> Js.truthy l = true.
Proof.
  unfold cached_local. destruct (images s !! key) as [c|]; [|discriminate].
  destruct (Js.truthy (img_local c)) eqn:E; [|discriminate].
  now intros [= <-].
Qed.

(** X26. The cover a card of the site shows for a synced row, as
    [coverOf] picks it: when the row has a cover URL, the local path the
    state records for the cover of the row if there is one, and the
    remote URL only otherwise; when the row has no cover URL, the
    [cover_local] the fetched row came with, if any. *)
Theorem coverOf_synced_row fuel fb p w :
  forall r,
    fst (syncRow fuel fb p w) = Ok r ->
    let w' := snd (syncRow fuel fb p w) in
    let key := "page:" +:+ row_id p +:+ ":cover" in
    (Js.otruthy (ref_url (row_cover p)) = true ->
     coverOf r = Js.or_else (cached_local (mem w') key) (ref_url (row_cover p)))
    /\ (Js.otruthy (ref_url (row_cover p)) = false ->
        coverOf r = Js.or_null (mjoin (row_cover_local p))).
Proof.
  intros r Hok. cbv zeta.
  pose proof (syncRow_cover fuel fb p w r Hok) as Hcl.
  destruct (syncRow fuel fb p w) as [r0 w'] eqn:H. simpl in Hok, Hcl |- *.
  subst r0. apply syncRow_ok in H as (_ & _ & Hcov & Hno & _).
  unfold coverOf. rewrite Hcov. unfold ref_url in *.
  split; intros Hc.
  - rewrite (Hcl Hc). cbn [mjoin option_join].
    destruct (cached_local (mem w') _) as [l|] eqn:E.
    + apply cached_local_is_truthy in E.
      unfold Js.or_else, Js.or_null, Js.otruthy.
      rewrite E. simpl. rewrite E. simpl. now rewrite E.
    + revert Hc. unfold Js.or_else, Js.or_null, Js.otruthy.
      destruct (ref_file_url (row_cover p)) as [a|];
        destruct (ref_external_url (row_cover p)) as [b|]; simpl;
        try destruct (Js.truthy a) eqn:Ea; try destruct (Js.truthy b) eqn:Eb;
        simpl; rewrite ?Ea, ?Eb; congruence.
  - rewrite (Hno Hc). revert Hc.
    unfold Js.or_else, Js.or_null, Js.otruthy.
    destruct (mjoin (row_cover_local p)) as [l|];
      destruct (ref_file_url (row_cover p)) as [a|];
      destruct (ref_external_url (row_cover p)) as [b|]; simpl;
      try destruct (Js.truthy l) eqn:El;
      try destruct (Js.truthy a) eqn:Ea; try destruct (Js.truthy b) eqn:Eb;
      simpl; rewrite ?El, ?Ea, ?Eb; congruence.
Qed.

Lemma coverOf_synced_row_witness :
  let run := syncRow 3 false Sample.row_A_covered Sample.w_covered in
  exists r,
    fst run = Ok r
    /\ coverOf r = Some "./images/cover-4f9be057f0ea.png"
    /\ coverOf r
       = Js.or_else
           (cached_local (mem (snd run)) ("page:" +:+ "A" +:+ ":cover"))
           (ref_url (row_cover Sample.row_A_covered)).
Proof.
  cbv zeta. eexists. split; [vm_compute; reflexivity|].
  split; [vm_compute; reflexivity|].
  refine (proj1 (coverOf_synced_row 3 false Sample.row_A_covered
                   Sample.w_covered _ _) _).
  - vm_compute. reflexivity.
  - vm_compute. reflexivity.
Defined.

(** ** Pagination *)

Section Follow.

Context {A : Type}.
Variable call : option string -> M (Listing A).
Variable listing : option string -> Listing A.
Variable ev : option string -> Event.
Variable e : Env.
Hypothesis call_ok :
  forall c w, env w = e ->
              call c w = (Ok (listing c), logged (ev c) (ticked w)).

Lemma paginate_follow fuel :
  forall c acc w cs items,
    env w = e ->
    follow fuel listing c = Some (cs, items) ->
    let run := paginate fuel call c acc w in
    fst run = Ok (acc ++ items)
    /\ trace (snd run) = trace w ++ map ev cs
    /\ env (snd run) = e.
Proof.
  induction fuel as [|fuel IH]; intros c acc w cs items He Hf; [discriminate|].
  cbv zeta. simpl in Hf |- *.
  rewrite (bind_run _ _ _ _ _ (withRetry_ok _ 5 _ _ _ (call_ok c w He))).
  cbv beta iota.
  destruct (negb (has_more (listing c))).
  - injection Hf as <- <-. repeat split; auto.
  - destruct (follow fuel listing (next_cursor (listing c)))
      as [[cs' items']|] eqn:E; [|discriminate].
    injection Hf as <- <-.
    destruct (IH (next_cursor (listing c)) (acc ++ results (listing c))
                (logged (ev c) (ticked w)) cs' items' He E)
      as (Hr & Ht & Henv).
    split; [now rewrite Hr, <- app_assoc|]. split; [|exact Henv].
    rewrite Ht. simpl. now rewrite <- app_assoc.
Qed.

End Follow.

(** X27. Against a remote that answers every page request, the query of
    a database returns the results of the pages concatenated in order.
    It makes exactly one request per page: the first without a cursor,
    each following one with the [next_cursor] of the answer before, all
    of them with the same filter, and no wait in between. *)
Theorem queryDatabaseIncremental_follows_cursors
  fuel db since w listing cursors rows :
  (forall t c,
      api_db_query (env w) t db c (since_filter since) = inr (listing c)) ->
  follow fuel listing None = Some (cursors, rows) ->
  let run := queryDatabaseIncremental fuel db since w in
  fst run = Ok rows
  /\ trace (snd run)
     = trace w ++ map (fun c => EvDbQuery db c (since_filter since)) cursors.
Proof.
  intros Hapi Hf. cbv zeta. unfold queryDatabaseIncremental.
  destruct (paginate_follow
              (fun c => databases_query db c (since_filter since))
              listing (fun c => EvDbQuery db c (since_filter since))
              (env w)) with (fuel := fuel) (c := @None string)
              (acc := @nil Row) (w := w) (cs := cursors) (items := rows)
    as (Hr & Ht & _); auto.
  intros c w0 He. unfold databases_query. now rewrite He, Hapi.
Qed.

Lemma queryDatabaseIncremental_follows_cursors_witness :
  let run := queryDatabaseIncremental 3 Sample.members_id
               (Some 1714550280000%Z) Scenario.w_paged in
  fst run = Ok [Sample.row_A'; Sample.row_C; Scenario.row_D]
  /\ trace (snd run)
     = trace Scenario.w_paged
       ++ map (fun c => EvDbQuery Sample.members_id c
                          (since_filter (Some 1714550280000%Z)))
              [None; Some "c1"].
Proof.
  apply (queryDatabaseIncremental_follows_cursors 3 Sample.members_id
           (Some 1714550280000%Z) Scenario.w_paged Scenario.paged).
  - intros t c. reflexivity.
  - vm_compute. reflexivity.
Defined.

(** ** The tree of blocks *)

Lemma for_each_ok_inv {A B} (f : A -> M B) xs :
  forall w ys w',
    for_each f xs w = (Ok ys, w') ->
    Forall2 (fun x y => exists wa wb, f x wa = (Ok y, wb)) xs ys.
Proof.
  induction xs as [|x r IH]; intros w ys w' H; simpl in H.
  - injection H as <- _. constructor.
  - apply bind_ok_inv in H as (y & w1 & Hy & H).
    apply bind_ok_inv in H as (ys' & w2 & Hr & H).
    injection H as <- _. constructor; [eauto|]. eapply IH, Hr.
Qed.

(** X28. The blocks [listBlocks] returns are the blocks of the listing,
    one for one and in the order of the listing: each keeps its id, has
    its children attached exactly when the listing says it has some, and
    keeps its body, to which at most a [local] path is added when it is
    an image or a file. No block is dropped, and a block whose download
    fails is returned all the same. *)
Theorem listBlocks_keeps_blocks fuel blockId w :
  forall bs,
    fst (listBlocks fuel blockId w) = Ok bs ->
    exists all,
      fst (paginate fuel (blocks_children_list blockId) None [] w) = Ok all
      /\ Forall2 block_synced all bs.
Proof.
  intros bs Hok.
  destruct (listBlocks fuel blockId w) as [r w'] eqn:H. simpl in Hok.
  subst r. destruct fuel as [|fuel]; [discriminate|].
  cbn [listBlocks] in H.
  apply bind_ok_inv in H as (all & w1 & Hall & H).
  exists all. split; [now rewrite Hall|].
  apply for_each_ok_inv in H.
  eapply Forall2_impl; [exact H|]. cbv beta.
  intros b b' (wa & wb & Hb).
  apply bind_ok_inv in Hb as (b1 & wc & H1 & Hb).
  assert (Hb1 : blk_id b1 = blk_id b
                /\ blk_has_children b1 = blk_has_children b
                /\ (if blk_has_children b then is_Some (blk_children b1)
                    else blk_children b1 = blk_children b)
                /\ blk_body b1 = blk_body b).
  { destruct (blk_has_children b) eqn:Ehc.
    - apply bind_ok_inv in H1 as (c & wd & _ & [= <- _]). simpl.
      repeat split; eauto.
    - injection H1 as <- _. repeat split; auto. }
  destruct Hb1 as (Hid & Hhc & Hch & Hbody).
  unfold block_synced. rewrite <- Hbody.
  destruct (blk_body b1) as [m|m|ty] eqn:E.
  - apply bind_ok_inv in Hb as (local & we & _ & [= <- _]). simpl.
    split; [exact Hid|]. split; [exact Hhc|]. split; [exact Hch|]. eauto.
  - apply bind_ok_inv in Hb as (local & we & _ & [= <- _]). simpl.
    split; [exact Hid|]. split; [exact Hhc|]. split; [exact Hch|]. eauto.
  - injection Hb as <- _. rewrite E.
    split; [exact Hid|]. split; [exact Hhc|]. split; [exact Hch|].
    reflexivity.
Qed.

Lemma listBlocks_keeps_blocks_witness :
  exists bs,
    fst (listBlocks 3 Sample.home_id Scenario.w_blocks) = Ok bs
    /\ map blk_id bs = ["b1"; "b2"]
    /\ exists all,
         fst (paginate 3 (blocks_children_list Sample.home_id) None []
                Scenario.w_blocks) = Ok all
         /\ Forall2 block_synced all bs.
Proof.
  eexists. split; [vm_compute; reflexivity|].
  split; [vm_compute; reflexivity|].
  apply (listBlocks_keeps_blocks 3 Sample.home_id Scenario.w_blocks).
  vm_compute. reflexivity.
Defined.

(** ** The builder's helpers *)

Lemma replace_all_app c by_ l1 l2 :
  replace_all c by_ (l1 ++ l2) = replace_all c by_ l1 ++ replace_all c by_ l2.
Proof. unfold replace_all. apply flat_map_app. Qed.

Lemma esc_char_passes c :
  replace_all ">" "&gt;" (replace_all "<" "&lt;" (replace_all "&" "&amp;" [c]))
  = esc_char c.
Proof. by_all_chars c. Qed.

Lemma esc_char_no_angle c x :
  In x (esc_char c) -> x <> "<"%char /\ x <> ">"%char.
Proof.
  unfold esc_char.
  destruct (Ascii.eqb c "&") eqn:E1; [|destruct (Ascii.eqb c "<") eqn:E2;
    [|destruct (Ascii.eqb c ">") eqn:E3]].
  - simpl. intros [<-|[<-|[<-|[<-|[<-|[]]]]]]; split; discriminate.
  - simpl. intros [<-|[<-|[<-|[<-|[]]]]]; split; discriminate.
  - simpl. intros [<-|[<-|[<-|[<-|[]]]]]; split; discriminate.
  - intros [<-|[]]. apply Ascii.eqb_neq in E2, E3. now split.
Qed.

(** X29. The two [esc] helpers, the one-pass one of the page builder and
    the three-pass one of the block renderer, give the same string. That
    string holds neither [<] nor [>]; and a text with none of [&], [<],
    [>] is returned as it is, so every other character, the double quote
    included, passes through unescaped. *)
Theorem esc_agrees_and_leaves_no_angle_bracket s :
  esc_block s = esc s
  /\ ~ In "<"%char (Js.chars (esc s))
  /\ ~ In ">"%char (Js.chars (esc s))
  /\ (Forall (fun c => c <> "&"%char /\ c <> "<"%char /\ c <> ">"%char)
             (Js.chars s) ->
      esc s = s).
Proof.
  unfold esc, esc_block. split; [|split; [|split]].
  - f_equal. induction (Js.chars s) as [|c l IH]; [reflexivity|].
    change (c :: l) with ([c] ++ l).
    rewrite !replace_all_app, IH, esc_char_passes. reflexivity.
  - rewrite chars_str. intros H. apply in_flat_map in H as (c & _ & H).
    now apply esc_char_no_angle in H.
  - rewrite chars_str. intros H. apply in_flat_map in H as (c & _ & H).
    now apply esc_char_no_angle in H.
  - intros H. rewrite <- (str_chars s) at 2. f_equal.
    induction H as [|c l (H1 & H2 & H3) _ IH]; [reflexivity|].
    simpl. rewrite IH. unfold esc_char.
    apply Ascii.eqb_neq in H1, H2, H3. now rewrite H1, H2, H3.
Qed.

Lemma esc_agrees_and_leaves_no_angle_bracket_witness :
  esc "<b>R&D</b>" = "&lt;b&gt;R&amp;D&lt;/b&gt;"
  /\ esc (String (ascii_of_nat 34) "quoted'") = String (ascii_of_nat 34) "quoted'".
Proof.
  split; [vm_compute; reflexivity|].
  apply (esc_agrees_and_leaves_no_angle_bracket
           (String (ascii_of_nat 34) "quoted'")).
  repeat constructor; discriminate.
Defined.

(** ** Downloads that fail *)

(** X30. A download that fails never fails the sync of a database. When
    the remote answers each query with a single page, the stored
    snapshot is absent or readable and the write of the snapshot is
    accepted, a sync that does not fetch the blocks of the rows returns
    normally, whatever the network answers to the downloads of covers
    and files. *)
Theorem syncDatabase_completes_despite_downloads
  fuel db outName options w stored :
  (forall t c f, exists l,
      api_db_query (env w) t db c f = inr l /\ has_more l = false) ->
  fetchBlocksForRows options = false ->
  stored_rows (disk w) outName = Some stored ->
  (forall t, fs_write_ok (env w) t (db_file outName) = true) ->
  fst (syncDatabase (S fuel) db outName options w) = Ok tt.
Proof.
  intros Hq Hb Hs Hw.
  destruct (syncDatabase_returns fuel db outName options w stored Hq Hb Hs Hw)
    as (w' & ->).
  reflexivity.
Qed.

Lemma syncDatabase_completes_despite_downloads_witness :
  let run := syncDatabase 3 Sample.members_id "members"
               Sample.opts_incremental Scenario.w_broken_assets in
  fst run = Ok tt
  /\ trace (snd run)
     = [EvDbQuery Sample.members_id None
          (Some (LastEditedOnOrAfter 1714550280000));
        EvFetch "https://down.example/e.png";
        EvFetch "https://denied.example/e.pdf";
        EvWrite "notion-data/db-members.json"].
Proof.
  cbv zeta. split; [|vm_compute; reflexivity].
  apply (syncDatabase_completes_despite_downloads 2 Sample.members_id
           "members" Sample.opts_incremental Scenario.w_broken_assets
           [Sample.row_A; Sample.row_B; Sample.row_C]).
  - intros t c f. eexists. split; reflexivity.
  - reflexivity.
  - vm_compute. reflexivity.
  - intros t. reflexivity.
Defined.
